(** * Blocking and multi-pass matching orchestration

    A shallow embedding of [record_linkage_shared/block_functions.py] and of
    the pass loop of [matching/match.py], with the properties of the blocking
    engine stated over it.

    Conventions of the embedding.
    - A table row is a finite map from column name to string; a column the
      map does not bind reads as NULL (SQL) or NaN (pandas).  Both tables are
      taken to carry every column their field map names.
    - The ordinal [idx] of a row is kept beside the row map.  In a data
      frame it is an integer.  The store may keep the column [idx] as a
      number or as text; a text column holds the decimal spelling of the
      ordinal, and [idx_text] says of a row that its table does.
    - The store keeps a table under its name folded to lower case and cut
      at 63 characters, as it does for a name written without quotes.  The
      schema holds no table created under a quoted name, and the name of
      the schema itself is in lower case.
    - A Python exception is a [Raise] result; a function that can raise
      returns in [res].
    - The SQL text assembled by the relational backend is kept as the
      structure it is assembled from (a list of conjuncts, a list of
      disjuncts), with the truthiness of a string being non-emptiness of the
      list; it is evaluated in SQL's three-valued logic. *)

From Stdlib Require Import String Ascii List ZArith Lia Bool Permutation Sorted.
From stdpp Require Import gmap strings pretty.
Import ListNotations.
Local Open Scope string_scope.
Local Open Scope list_scope.
Local Open Scope Z_scope.

(** ** Exceptions and results *)

Inductive exn : Type :=
| KeyError
| IndexError
| AttributeError
| FileNotFoundError
| ValueError
| SyntaxError.

Inductive res (A : Type) : Type :=
| Ok (a : A)
| Raise (e : exn).
Arguments Ok {A} a.
Arguments Raise {A} e.

Definition rbind {A B : Type} (m : res A) (k : A -> res B) : res B :=
  match m with
  | Ok a => k a
  | Raise e => Raise e
  end.

Notation "'do' x <- m ; k" := (rbind m (fun x => k))
  (at level 10, x pattern, m at level 100, k at level 200).

(** ** Data model *)

(** [None] is NULL in the relational store and NaN in a data frame. *)
Definition value : Type := option string.

Record record : Type := mkRecord {
  idx : Z;
  row : gmap string string;
  idx_text : bool
}.

Definition col (r : record) (c : string) : value := row r !! c.

(** A row of a candidates table: [indv_id_a, indv_id_b, idx_a, idx_b]. *)
Record candidate : Type := mkCandidate {
  indv_id_a : value;
  indv_id_b : value;
  idx_a : Z;
  idx_b : Z
}.

Definition value_eqb (x y : value) : bool :=
  match x, y with
  | Some s, Some t => String.eqb s t
  | None, None => true
  | _, _ => false
  end.

Definition candidate_eqb (c d : candidate) : bool :=
  value_eqb (indv_id_a c) (indv_id_a d) && value_eqb (indv_id_b c) (indv_id_b d)
  && (idx_a c =? idx_a d) && (idx_b c =? idx_b d).

(** [blank v]: the empty string or NULL. *)
Definition blank (v : value) : bool :=
  match v with
  | None => true
  | Some s => String.eqb s EmptyString
  end.

(** ** The relational backend *)

Module Sql.

(** SQL truth values. *)
Inductive tv : Type := T | F | U.

Definition tv_and (a b : tv) : tv :=
  match a, b with
  | F, _ | _, F => F
  | T, T => T
  | _, _ => U
  end.

Definition tv_or (a b : tv) : tv :=
  match a, b with
  | T, _ | _, T => T
  | F, F => F
  | _, _ => U
  end.

Definition tv_not (a : tv) : tv :=
  match a with
  | T => F
  | F => T
  | U => U
  end.

Definition of_bool (b : bool) : tv := if b then T else F.

Definition is_true (a : tv) : bool :=
  match a with
  | T => true
  | _ => false
  end.

(** [x = y] and [x != y] on nullable text. *)
Definition sql_eq (x y : value) : tv :=
  match x, y with
  | Some s, Some t => of_bool (String.eqb s t)
  | _, _ => U
  end.

Definition sql_ne (x y : value) : tv := tv_not (sql_eq x y).

Definition is_not_null (x : value) : tv :=
  match x with
  | Some _ => T
  | None => F
  end.

(** One conjunct of the ON clause,
    [(a.ca = b.cb AND a.ca != '' AND a.ca IS NOT NULL)]. *)
Definition conjunct : Type := (string * string)%type.

(** [join_cond_str]: the conjuncts joined by [' AND ']. *)
Definition join_cond : Type := list conjunct.

(** [past_join_cond_str]: ['(c1) OR (c2) OR ...']; [[]] is the empty
    string. *)
Definition past_cond : Type := list join_cond.

(** [join_cond_fullstr]: the pass's condition, the optional
    [AND NOT (past)] and the optional dedup suffix
    [AND a.idx < b.idx AND a.ida != b.idb]. *)
Record full_cond : Type := mkFull {
  fc_join : join_cond;
  fc_not_past : past_cond;
  fc_dedup : option (string * string)
}.

Fixpoint get_pass_join_cond (passblocks_a passblocks_b : list string)
  : res join_cond :=
  match passblocks_a with
  | [] => Ok []
  | a :: pa =>
      match passblocks_b with
      | [] => Raise IndexError
      | b :: pb =>
          do rest <- get_pass_join_cond pa pb;
          Ok ((a, b) :: rest)
      end
  end.

Definition exclude_past_join_cond (join_cond_str : join_cond)
    (past_join_cond_str : past_cond) : full_cond :=
  match past_join_cond_str with
  | _ :: _ => mkFull join_cond_str past_join_cond_str None
  | [] => mkFull join_cond_str [] None
  end.

Definition update_past_join_cond (join_cond_str : join_cond)
    (past_join_cond_str : past_cond) : past_cond :=
  match past_join_cond_str with
  | _ :: _ => past_join_cond_str ++ [join_cond_str]
  | [] => [join_cond_str]
  end.

(** *** Evaluation on a pair of rows *)

Definition eval_conjunct (ra rb : record) (c : conjunct) : tv :=
  let '(ca, cb) := c in
  tv_and (tv_and (sql_eq (col ra ca) (col rb cb))
                 (sql_ne (col ra ca) (Some EmptyString)))
         (is_not_null (col ra ca)).

Definition eval_join (ra rb : record) (j : join_cond) : tv :=
  fold_left (fun acc c => tv_and acc (eval_conjunct ra rb c)) j T.

Definition eval_past (ra rb : record) (p : past_cond) : tv :=
  fold_left (fun acc j => tv_or acc (eval_join ra rb j)) p F.

(** [a.idx < b.idx] on the column as the store keeps it: by value on a
    number column, by the codes of the characters on a text column (on the
    spellings of two natural numbers every collation orders alike).  The
    two rows of a deduplication are of one table. *)
Definition idx_lt (ra rb : record) : bool :=
  if idx_text ra && idx_text rb
  then String.ltb (pretty (idx ra)) (pretty (idx rb))
  else idx ra <? idx rb.

Definition eval_dedup (ra rb : record) (ids : string * string) : tv :=
  tv_and (of_bool (idx_lt ra rb))
         (sql_ne (col ra (fst ids)) (col rb (snd ids))).

Definition eval_full (ra rb : record) (f : full_cond) : tv :=
  let base :=
    match fc_not_past f with
    | [] => eval_join ra rb (fc_join f)
    | p => tv_and (eval_join ra rb (fc_join f)) (tv_not (eval_past ra rb p))
    end in
  match fc_dedup f with
  | None => base
  | Some ids => tv_and base (eval_dedup ra rb ids)
  end.

(** The SELECT of [execute_blocking_join]: an inner join, one output row
    per pair of rows on which the ON clause is true.  An empty pass
    condition leaves [ON] without an operand, which the server rejects. *)
Definition select_row (indv_id_a indv_id_b : string) (ra rb : record)
  : candidate :=
  mkCandidate (col ra indv_id_a) (col rb indv_id_b) (idx ra) (idx rb).

Definition joined_rows (table_a table_b : list record) (f : full_cond)
  : list (record * record) :=
  flat_map (fun ra =>
    map (fun rb => (ra, rb))
        (List.filter (fun rb => is_true (eval_full ra rb f)) table_b))
    table_a.

Definition execute_blocking_join (table_a table_b : list record)
    (indv_id_a indv_id_b : string) (f : full_cond) : res (list candidate) :=
  match fc_join f with
  | [] => Raise SyntaxError
  | _ =>
      Ok (map (fun p => select_row indv_id_a indv_id_b (fst p) (snd p))
              (joined_rows table_a table_b f))
  end.

Definition find_pass_candidates (passblocks_a passblocks_b : list string)
    (indv_id_a indv_id_b : string) (past_join_cond_str : past_cond)
    (table_a table_b : list record) (dedup : bool)
  : res (list candidate * past_cond) :=
  do join_cond_str <- get_pass_join_cond passblocks_a passblocks_b;
  let join_cond_fullstr :=
    exclude_past_join_cond join_cond_str past_join_cond_str in
  let join_cond_fullstr :=
    if dedup
    then mkFull (fc_join join_cond_fullstr) (fc_not_past join_cond_fullstr)
                (Some (indv_id_a, indv_id_b))
    else join_cond_fullstr in
  do rows <- execute_blocking_join table_a table_b indv_id_a indv_id_b
               join_cond_fullstr;
  Ok (rows, update_past_join_cond join_cond_str past_join_cond_str).

End Sql.

(** ** The in-memory backend *)

Module Frame.

(** A data frame in file order.  [f_index] is [Some id] once
    [set_index([id, idx])] has moved the identifier column and the
    ordinal into the index, where they are no longer columns. *)
Record frame : Type := mkFrame {
  f_index : option string;
  f_rows : list record
}.

Definition set_index (id : string) (f : frame) : res frame :=
  match f_index f with
  | Some _ => Raise KeyError
  | None => Ok (mkFrame (Some id) (f_rows f))
  end.

Definition reset_index (f : frame) : frame := mkFrame None (f_rows f).

Definition is_column (f : frame) (c : string) : bool :=
  match f_index f with
  | Some id => negb (String.eqb c id) && negb (String.eqb c "idx")
  | None => true
  end.

(** [df.query(q)], where [q] asks of each variable that it differs from
    the empty string: NaN differs from it, so only rows holding the empty
    string are removed.  With no variable [q] compares nothing with the
    empty string and does not parse. *)
Definition query (vars : list string) (f : frame) : res frame :=
  match vars with
  | [] => Raise SyntaxError
  | _ =>
      Ok (mkFrame (f_index f)
            (List.filter
               (fun r => forallb (fun c => negb (value_eqb (col r c) (Some EmptyString))) vars)
               (f_rows f)))
  end.

(** The values of the index [(id, idx)], one per row. *)
Definition index_value : Type := (value * Z)%type.

Definition index_values (f : frame) : res (list index_value) :=
  match f_index f with
  | Some id => Ok (map (fun r => (col r id, idx r)) (f_rows f))
  | None => Raise ValueError
  end.

Definition index_value_eqb (p q : index_value) : bool :=
  value_eqb (fst p) (fst q) && (snd p =? snd q).

Fixpoint is_unique (l : list index_value) : bool :=
  match l with
  | [] => true
  | x :: l' => negb (existsb (index_value_eqb x) l') && is_unique l'
  end.

(** [pd.MultiIndex(levels=..., codes=...)]. *)
Record multi_index : Type := mkMulti {
  levels_a : list index_value;
  levels_b : list index_value;
  codes : list (nat * nat)
}.

(** *** [CustomIndex] *)

Record CustomIndex : Type := mkCustomIndex {
  left_on : list string;
  right_on : option (list string);
  left_seen : list (list string);
  right_seen : option (list (list string))
}.

Definition _get_left_and_right_on (self : CustomIndex)
  : list string * list string :=
  match right_on self with
  | None => (left_on self, left_on self)
  | Some r => (left_on self, r)
  end.

Definition _get_left_and_right_seen (self : CustomIndex)
  : list (list string) * list (list string) :=
  match right_seen self with
  | None => (left_seen self, left_seen self)
  | Some r => (left_seen self, r)
  end.

Definition mem (c : string) (l : list string) : bool :=
  existsb (String.eqb c) l.

(** [list(set(var for v in seen for var in v))]: each variable once. *)
Definition keep_of (seen : list (list string)) : list string :=
  nodup string_dec (concat seen).

(** A row of [data_left] or [data_right]: the blocking keys, the kept
    columns by name, and the position [index_x] or [index_y]. *)
Record side_row : Type := mkSide {
  s_keys : list value;
  s_keep : list (string * value);
  s_index : nat
}.

(** The rows with their positions, [np.arange(len(df))]. *)
Definition enumerate (l : list record) : list (nat * record) :=
  combine (seq 0 (length l)) l.

Definition side_row_of (on keep : list string) (ir : nat * record) : side_row :=
  mkSide (map (col (snd ir)) on)
         (map (fun c => (c, col (snd ir) c)) keep)
         (fst ir).

Definition side_rows (f : frame) (on keep : list string) : list side_row :=
  map (side_row_of on keep) (enumerate (f_rows f)).

(** [df[on + keep]] followed by the renaming to
    [blocking_keys + keep]: a name that is not a column is a [KeyError],
    a different number of names a [ValueError]. *)
Definition side_frame (f : frame) (on keep : list string) (nkeys : nat)
  : res (list side_row) :=
  if negb (forallb (is_column f) (on ++ keep)) then Raise KeyError
  else if negb (Nat.eqb (length on) nkeys) then Raise ValueError
  else Ok (side_rows f on keep).

Definition is_some (v : value) : bool :=
  match v with Some _ => true | None => false end.

(** [dropna(axis=0, how=any, subset=blocking_keys)]. *)
Definition dropna (l : list side_row) : list side_row :=
  List.filter (fun s => forallb is_some (s_keys s)) l.

(** A row of [pairs_df]. *)
Record pair_row : Type := mkPair {
  p_keys : list value;
  p_cols : list (string * value);
  index_x : nat;
  index_y : nat
}.

Definition keys_eqb (k1 k2 : list value) : bool :=
  Nat.eqb (length k1) (length k2)
  && forallb (fun p => value_eqb (fst p) (snd p)) (combine k1 k2).

(** [merge] renames a kept column that both sides carry: [_x] on the
    left, [_y] on the right. *)
Definition suffixed (sfx : string) (other : list string) (c : string) : string :=
  if mem c other then c +:+ sfx else c.

Definition merged_columns (left_keep right_keep : list string) : list string :=
  map (suffixed "_x" right_keep) left_keep
  ++ map (suffixed "_y" left_keep) right_keep.

Definition merge_row (left_keep right_keep : list string) (l r : side_row)
  : pair_row :=
  mkPair (s_keys l)
         (map (fun kv => (suffixed "_x" right_keep (fst kv), snd kv)) (s_keep l)
          ++ map (fun kv => (suffixed "_y" left_keep (fst kv), snd kv)) (s_keep r))
         (s_index l) (s_index r).

(** [data_left.merge(data_right, how=inner, on=blocking_keys)]. *)
Definition merge (left_keep right_keep : list string)
    (data_left data_right : list side_row) : list pair_row :=
  flat_map (fun l =>
    map (merge_row left_keep right_keep l)
        (List.filter (fun r => keys_eqb (s_keys l) (s_keys r)) data_right))
    data_left.

Fixpoint assoc (c : string) (kv : list (string * value)) : value :=
  match kv with
  | [] => None
  | (k, v) :: kv' => if String.eqb c k then v else assoc c kv'
  end.

(** Element-wise [==] of two columns: NaN equals nothing. *)
Definition pd_eq (x y : value) : bool :=
  match x, y with
  | Some s, Some t => String.eqb s t
  | _, _ => false
  end.

(** The inner loop over one earlier block: the pairs of column names of
    [pairs_df] that are compared.  The helper columns of the two sides
    take part in the membership tests. *)
Fixpoint compared_columns (left_keep right_keep : list string)
    (left_columns right_columns : list string)
    (prev_block_l prev_block_r : list string) : res (list (string * string)) :=
  match prev_block_l with
  | [] => Ok []
  | left_var :: pl =>
      match prev_block_r with
      | [] => Raise IndexError
      | right_var :: pr =>
          let '(left_var, right_var) :=
            if mem left_var right_columns || mem right_var left_columns
            then (left_var +:+ "_x", right_var +:+ "_y")
            else (left_var, right_var) in
          if mem left_var (merged_columns left_keep right_keep)
             && mem right_var (merged_columns left_keep right_keep)
          then
            do rest <- compared_columns left_keep right_keep
                         left_columns right_columns pl pr;
            Ok ((left_var, right_var) :: rest)
          else Raise KeyError
      end
  end.

Definition statement (cmp : list (string * string)) (p : pair_row) : bool :=
  forallb (fun lr => pd_eq (assoc (fst lr) (p_cols p)) (assoc (snd lr) (p_cols p))) cmp.

(** The outer loop [for i, prev_block_l in enumerate(left_seen)].  An
    empty earlier block leaves [statement] the Python [True], and
    [pairs_df[~True]] is a [KeyError]. *)
Fixpoint exclude_seen (left_keep right_keep : list string)
    (left_columns right_columns : list string)
    (left_seen right_seen : list (list string)) (pairs_df : list pair_row)
  : res (list pair_row) :=
  match left_seen with
  | [] => Ok pairs_df
  | prev_block_l :: ls =>
      match right_seen with
      | [] => Raise IndexError
      | prev_block_r :: rs =>
          do cmp <- compared_columns left_keep right_keep
                      left_columns right_columns prev_block_l prev_block_r;
          match cmp with
          | [] => Raise KeyError
          | _ =>
              exclude_seen left_keep right_keep left_columns right_columns
                ls rs (List.filter (fun p => negb (statement cmp p)) pairs_df)
          end
      end
  end.

Definition blocking_keys (left_on : list string) : list string :=
  imap (fun i _ => "blocking_key_" +:+ pretty (N.of_nat i)) left_on.

Definition _link_index (self : CustomIndex) (df_a df_b : frame)
  : res multi_index :=
  let '(left_on, right_on) := _get_left_and_right_on self in
  let '(left_seen, right_seen) := _get_left_and_right_seen self in
  let left_keep := keep_of left_seen in
  let right_keep := keep_of right_seen in
  do data_left <- side_frame df_a left_on left_keep (length left_on);
  let data_left := dropna data_left in
  do data_right <- side_frame df_b right_on right_keep (length left_on);
  let data_right := dropna data_right in
  let left_columns := blocking_keys left_on ++ left_keep ++ ["index_x"] in
  let right_columns := blocking_keys left_on ++ right_keep ++ ["index_y"] in
  let pairs_df := merge left_keep right_keep data_left data_right in
  do pairs_df <- exclude_seen left_keep right_keep left_columns right_columns
                   left_seen right_seen pairs_df;
  do la <- index_values df_a;
  do lb <- index_values df_b;
  Ok (mkMulti la lb (map (fun p => (index_x p, index_y p)) pairs_df)).

(** *** [recordlinkage.base.BaseIndexAlgorithm]

    [CustomIndex] inherits [index] from the recordlinkage library, which
    is not part of this repository.  The definitions below follow the
    library: [index] checks that the index of each frame has no repeated
    value, links two frames with [_link_index], and deduplicates one frame
    by keeping the lower triangle [codes[0] > codes[1]] of
    [_link_index(x, x)].  Once the pairs are computed the library divides
    their number by the number of possible pairs; over an empty frame that
    is the [ZeroDivisionError] which [find_block] catches and replaces by
    an empty index.  The pairs are empty in that case, so [index] returns
    them as they are and [make_df] yields no candidate either way. *)

Definition _verify_integrity (x : frame) : res unit :=
  do l <- index_values x;
  if is_unique l then Ok tt else Raise ValueError.

Definition _dedup_index (self : CustomIndex) (df_a : frame) : res multi_index :=
  do pairs <- _link_index self df_a df_a;
  Ok (mkMulti (levels_a pairs) (levels_b pairs)
        (List.filter (fun c => Nat.ltb (snd c) (fst c)) (codes pairs))).

Definition index (self : CustomIndex) (x : frame) (x_link : option frame)
  : res multi_index :=
  match x_link with
  | Some y =>
      do _ <- _verify_integrity x;
      do _ <- _verify_integrity y;
      _link_index self x y
  | None =>
      do _ <- _verify_integrity x;
      _dedup_index self x
  end.

(** *** [make_df] and [find_block] *)

Fixpoint make_df (levels_a levels_b : list index_value)
    (codes : list (nat * nat)) : res (list candidate) :=
  match codes with
  | [] => Ok []
  | (x, y) :: cs =>
      match levels_a !! x, levels_b !! y with
      | Some a, Some b =>
          do rest <- make_df levels_a levels_b cs;
          Ok (mkCandidate (fst a) (fst b) (snd a) (snd b) :: rest)
      | _, _ => Raise IndexError
      end
  end.

(** The candidates are returned beside the updated lists; the caller
    stores them under [candidates_table]. *)
Definition find_block (data_a : frame) (data_b : option frame)
    (blocking_vars_a blocking_vars_b : list string) (dedup : bool)
    (prev_vars_a prev_vars_b : list (list string))
  : res (list candidate * (list (list string) * list (list string))) :=
  let indexer :=
    if dedup
    then mkCustomIndex blocking_vars_a None prev_vars_a None
    else mkCustomIndex blocking_vars_a (Some blocking_vars_b)
                       prev_vars_a (Some prev_vars_b) in
  do pairs <-
    (if dedup
     then do qa <- query blocking_vars_a data_a; index indexer qa None
     else
       do qa <- query blocking_vars_a data_a;
       match data_b with
       | None => Raise AttributeError
       | Some data_b =>
           do qb <- query blocking_vars_b data_b;
           index indexer qa (Some qb)
       end);
  do df <- make_df (levels_a pairs) (levels_b pairs) (codes pairs);
  let prev_vars_a := prev_vars_a ++ [blocking_vars_a] in
  let prev_vars_b :=
    match blocking_vars_b with
    | [] => prev_vars_b
    | _ => prev_vars_b ++ [blocking_vars_b]
    end in
  Ok (df, (prev_vars_a, prev_vars_b)).

End Frame.

(** ** [remove_previously_seen_pairs]

    An index of pairs is taken as the set of its entries, which is what
    [difference] works on; [old_pairs] is the dict in the order of its
    items. *)

Definition pair_index : Type := gset (Frame.index_value * Frame.index_value).

Definition remove_previously_seen_pairs (new_pairs : pair_index)
    (new_name : string) (old_pairs : list (string * pair_index)) : pair_index :=
  fold_left (fun new_pairs np =>
               if negb (String.eqb (fst np) new_name)
                  && negb (Nat.eqb (size (snd np)) 0)
               then new_pairs ∖ snd np
               else new_pairs)
            old_pairs new_pairs.

(** ** [run_blocking_pass] and [run_ground_truth_ids_passes] *)

(** What the mutable objects of a run hold: the two data frames (side B is
    absent in a deduplication), the candidates tables of the relational
    store and the CSV files of the working directory, both by name.  The
    tables [table_a] and [table_b] of the store hold the rows of the two
    frames. *)
Record world : Type := mkWorld {
  df_a : Frame.frame;
  df_b : option Frame.frame;
  tables : gmap string (list candidate);
  files : gmap string (list candidate)
}.

(** [past_join_cond_str] is a string when a connection is configured and
    a pair of lists otherwise. *)
Inductive past_state : Type :=
| PastSql (p : Sql.past_cond)
| PastSeen (prev_vars_a prev_vars_b : list (list string)).

(** [d[k]] on a dict. *)
Definition getitem {V : Type} (d : gmap string V) (k : string) : res V :=
  match d !! k with
  | Some v => Ok v
  | None => Raise KeyError
  end.

(** ['_inv' in s] and [s.replace('_inv', '')]. *)
Fixpoint contains_inv (s : string) : bool :=
  match s with
  | EmptyString => false
  | String _ rest => String.prefix "_inv" s || contains_inv rest
  end.

Fixpoint remove_inv (s : string) : string :=
  match s with
  | String "_" (String "i" (String "n" (String "v" rest))) => remove_inv rest
  | String c rest => String c (remove_inv rest)
  | EmptyString => EmptyString
  end.

Definition table_rows (f : Frame.frame) : list record := Frame.f_rows f.

(** The name under which the store keeps a table whose name is written
    without quotes: the letters [A] to [Z] in lower case, the first 63
    characters. *)
Definition lower (c : ascii) : ascii :=
  let n := N_of_ascii c in
  if (N.leb 65 n && N.leb n 90)%N then ascii_of_N (n + 32) else c.

Fixpoint fold_case (s : string) : string :=
  match s with
  | EmptyString => EmptyString
  | String c rest => String (lower c) (fold_case rest)
  end.

Definition store_name (s : string) : string :=
  String.substring 0 63 (fold_case s).

Definition set_indexes (indv_id_a indv_id_b name_b : string) (w : world)
  : res world :=
  do a <- Frame.set_index indv_id_a (df_a w);
  if String.eqb name_b "dedup"
  then Ok (mkWorld a (df_b w) (tables w) (files w))
  else
    match df_b w with
    | None => Raise AttributeError
    | Some b =>
        do b <- Frame.set_index indv_id_b b;
        Ok (mkWorld a (Some b) (tables w) (files w))
    end.

Definition reset_indexes (name_b : string) (w : world) : world :=
  mkWorld (Frame.reset_index (df_a w))
          (if String.eqb name_b "dedup" then df_b w
           else option_map Frame.reset_index (df_b w))
          (tables w) (files w).

(** The rows of [table_b]: those of [table_a] in a deduplication. *)
Definition rows_b (dedup : bool) (w : world) : list record :=
  if dedup then table_rows (df_a w)
  else match df_b w with
       | Some b => table_rows b
       | None => []
       end.

(** [run_block]: the state is indexed at 0 and 1 before [find_block] is
    called; on the empty string the first index is out of range, and on a
    non-empty string the characters are taken for lists of columns. *)
Definition run_block (data_a : Frame.frame) (data_b : option Frame.frame)
    (blocking_vars_a blocking_vars_b : list string) (all_pairs : past_state)
    (dedup : bool)
  : res (list candidate * (list (list string) * list (list string))) :=
  match all_pairs with
  | PastSeen prev_a prev_b =>
      Frame.find_block data_a data_b blocking_vars_a blocking_vars_b dedup
        prev_a prev_b
  | PastSql [] => Raise IndexError
  | PastSql (_ :: _) => Raise KeyError
  end.

Definition run_blocking_pass (blocks_by_pass : gmap string (list string))
    (passnum : string) (vars_a vars_b : gmap string string)
    (name_a name_b : string) (past_join_cond_str : past_state)
    (cursor : bool) (w : world) : res (past_state * world) :=
  do blocking_vars <- getitem blocks_by_pass passnum;
  do indv_id_a <- getitem vars_a "indv_id";
  do indv_id_b <- getitem vars_b "indv_id";
  do w <- (if cursor then Ok w else set_indexes indv_id_a indv_id_b name_b w);
  let dedup := String.eqb name_b "dedup" in
  let match_name :=
    if dedup then name_a +:+ "_dedup" else name_a +:+ "_" +:+ name_b in
  match blocking_vars with
  | _ :: _ =>
      let inverted_blocks := existsb contains_inv blocking_vars in
      let blocking_vars :=
        if inverted_blocks then map remove_inv blocking_vars
        else blocking_vars in
      let passblocks_a := omap (fun v => vars_a !! v) blocking_vars in
      let passblocks_b := omap (fun v => vars_b !! v) blocking_vars in
      if negb (Nat.eqb (length passblocks_a) (length blocking_vars))
         || negb (Nat.eqb (length passblocks_b) (length blocking_vars))
      then Ok (past_join_cond_str, w)
      else
        let passblocks_b :=
          if inverted_blocks then rev passblocks_b else passblocks_b in
        if cursor then
          let candidates_table :=
            "candidates_" +:+ match_name +:+ "_p" +:+ passnum in
          match past_join_cond_str with
          | PastSql p =>
              do r <- Sql.find_pass_candidates passblocks_a passblocks_b
                        indv_id_a indv_id_b p
                        (table_rows (df_a w)) (rows_b dedup w) dedup;
              Ok (PastSql (snd r),
                  mkWorld (df_a w) (df_b w)
                          (<[store_name candidates_table := fst r]> (tables w))
                          (files w))
          | PastSeen _ _ => Raise SyntaxError
          end
        else
          let candidates_table :=
            "candidates_" +:+ match_name +:+ "_p" +:+ passnum +:+ ".csv" in
          do r <- run_block (df_a w) (df_b w) passblocks_a passblocks_b
                    past_join_cond_str dedup;
          let w := mkWorld (df_a w) (df_b w) (tables w)
                           (<[candidates_table := fst r]> (files w)) in
          Ok (PastSeen (fst (snd r)) (snd (snd r)), reset_indexes name_b w)
  | [] => Ok (PastSql [], w)
  end.

Fixpoint ground_truth_loop (ground_truth_ids : list string)
    (vars_a vars_b : gmap string string) (match_name : string)
    (indv_id_a indv_id_b : string) (dedup : bool)
    (past_join_cond_str : past_state) (w : world) : res (past_state * world) :=
  match ground_truth_ids with
  | [] => Ok (past_join_cond_str, w)
  | gid :: rest =>
      do gid_a <- getitem vars_a gid;
      do gid_b <- getitem vars_b gid;
      let candidates_table :=
        "candidates_" +:+ match_name +:+ "_matching_" +:+ gid in
      match past_join_cond_str with
      | PastSql p =>
          do r <- Sql.find_pass_candidates [gid_a] [gid_b] indv_id_a indv_id_b
                    p (table_rows (df_a w)) (rows_b dedup w) dedup;
          ground_truth_loop rest vars_a vars_b match_name indv_id_a indv_id_b
            dedup (PastSql (snd r))
            (mkWorld (df_a w) (df_b w)
                     (<[store_name candidates_table := fst r]> (tables w))
                     (files w))
      | PastSeen _ _ => Raise SyntaxError
      end
  end.

Definition run_ground_truth_ids_passes (ground_truth_ids : list string)
    (vars_a vars_b : gmap string string) (name_a name_b : string)
    (past_join_cond_str : past_state) (w : world)
  : res (past_state * world) :=
  do indv_id_a <- getitem vars_a "indv_id";
  do indv_id_b <- getitem vars_b "indv_id";
  let dedup := String.eqb name_b "dedup" in
  let match_name :=
    if dedup then name_a +:+ "_dedup" else name_a +:+ "_" +:+ name_b in
  ground_truth_loop ground_truth_ids vars_a vars_b match_name
    indv_id_a indv_id_b dedup past_join_cond_str w.

(** ** The pass loop of [match.py] *)

Record config : Type := mkConfig {
  matchtype : string;
  name_a_cfg : string;
  name_b_cfg : string;
  vars_a_cfg : gmap string string;
  vars_b_cfg : gmap string string;
  database_information : bool;
  ground_truth_ids : list string;
  blocks_by_pass : gmap string (list string);
  chunk_sizes : gmap string nat;
  num_processes : nat
}.

Definition chunk : Type := list candidate.

(** An entry of [all_cands]: a chunk and the name of its pass. *)
Definition tagged : Type := (chunk * string)%type.

(** What a run does, in order. *)
Inductive event : Type :=
| GroundTruthPasses (gids : list string)
| GroundTruthResult (g_id : string) (rows : list candidate) (weight : Z)
| BlockingPass (pass_name : string)
| ChunkRead (pass_name : string) (c : chunk)
| Submit (i : nat) (batch : list tagged).

Record run_state : Type := mkRun {
  past : past_state;
  wld : world;
  all_cands : list tagged;
  shard : nat;
  log : list event
}.

(** [sorted] on strings: ascending in the order of the characters' codes. *)
Fixpoint insert_sorted (s : string) (l : list string) : list string :=
  match l with
  | [] => [s]
  | t :: l' => if String.leb s t then s :: l else t :: insert_sorted s l'
  end.

Definition sorted (l : list string) : list string :=
  fold_right insert_sorted [] l.

Definition keys {V : Type} (d : gmap string V) : list string :=
  map fst (map_to_list d).

(** [int(re.sub(r'\D+', '', pass_name))]. *)
Definition is_digit (c : ascii) : bool :=
  (N.leb 48 (N_of_ascii c) && N.leb (N_of_ascii c) 57)%N.

Fixpoint digits_of (s : string) : list N :=
  match s with
  | EmptyString => []
  | String c rest =>
      if is_digit c then (N_of_ascii c - 48)%N :: digits_of rest
      else digits_of rest
  end.

Definition int_of_digits (ds : list N) : res N :=
  match ds with
  | [] => Raise ValueError
  | _ => Ok (fold_left (fun acc d => (10 * acc + d)%N) ds 0%N)
  end.

Definition pass_number (pass_name : string) : res N :=
  int_of_digits (digits_of pass_name).

(** [while chunk := cur.fetchmany(size)]: the chunks of at most [size]
    rows, until an empty one is fetched.  The recursion is on a bound that
    the number of rows provides. *)
Fixpoint fetch_chunks (bound size : nat) (rows : list candidate) : list chunk :=
  match bound with
  | O => []
  | S bound' =>
      match firstn size rows with
      | [] => []
      | c => c :: fetch_chunks bound' size (skipn size rows)
      end
  end.

Definition fetchmany_all (size : nat) (rows : list candidate) : list chunk :=
  fetch_chunks (length rows) size rows.

(** The spellings that [pd.read_csv] reads as NaN unless told otherwise;
    a NaN is written as the empty field. *)
Definition na_values : list string :=
  [EmptyString; "#N/A"; "#N/A N/A"; "#NA"; "-1.#IND"; "-1.#QNAN"; "-NaN"; "-nan";
   "1.#IND"; "1.#QNAN"; "<NA>"; "N/A"; "NA"; "NULL"; "NaN"; "None"; "n/a";
   "nan"; "null"].

(** An identifier read with [dtype=str]: the text as written, or NaN. *)
Definition read_cell (v : value) : value :=
  match v with
  | Some s => if Frame.mem s na_values then None else Some s
  | None => None
  end.

Definition read_row (c : candidate) : candidate :=
  mkCandidate (read_cell (indv_id_a c)) (read_cell (indv_id_b c))
              (idx_a c) (idx_b c).

(** [pd.read_csv(blockfile, chunksize=size, dtype=dtypes)]: a missing file
    and a chunk size below 1 raise; a file with a header and no row is read
    as one empty chunk. *)
Definition read_csv (files : gmap string (list candidate)) (blockfile : string)
    (size : nat) : res (list chunk) :=
  match size with
  | O => Raise ValueError
  | _ =>
      match files !! blockfile with
      | None => Raise FileNotFoundError
      | Some [] => Ok [[]]
      | Some rows => Ok (fetchmany_all size (map read_row rows))
      end
  end.

(** [process_pool.starmap(run_match, tuple(all_cands))] and the writing of
    the shard [temp_match_i.csv]. *)
Definition submit (st : run_state) : run_state :=
  mkRun (past st) (wld st) [] (S (shard st))
        (log st ++ [Submit (shard st) (all_cands st)]).

Definition submit_rest (st : run_state) : run_state :=
  match all_cands st with
  | [] => st
  | _ => mkRun (past st) (wld st) [] (shard st)
               (log st ++ [Submit (shard st) (all_cands st)])
  end.

Definition threshold_reached (num_processes : nat) (st : run_state) : bool :=
  Nat.eqb (length (all_cands st)) (num_processes * 2).

(** The body of the loop over the chunks of a candidates table. *)
Definition on_chunk (num_processes : nat) (pass_name : string)
    (st : run_state) (c : chunk) : run_state :=
  let st := mkRun (past st) (wld st) (all_cands st ++ [(c, pass_name)])
                  (shard st) (log st ++ [ChunkRead pass_name c]) in
  if threshold_reached num_processes st then submit st else st.

(** The body of the loop over the chunks of a CSV file. *)
Definition on_csv_chunk (num_processes : nat) (pass_name : string)
    (st : run_state) (c : chunk) : run_state :=
  let st := mkRun (past st) (wld st)
                  (match c with
                   | [] => all_cands st
                   | _ => all_cands st ++ [(c, pass_name)]
                   end)
                  (shard st) (log st ++ [ChunkRead pass_name c]) in
  if threshold_reached num_processes st then submit st else st.

(** The look-up of [cand_table] in [information_schema.tables] compares
    the name as a literal, letter for letter, with the names the store
    keeps; the table it finds is the one that the unquoted name reads. *)
Definition listed (t : gmap string (list candidate)) (table_name : string)
  : option (list candidate) :=
  if String.eqb (store_name table_name) table_name then t !! table_name
  else None.

Section PassLoop.

Variable cfg : config.

Definition dedup_run : bool := String.eqb (matchtype cfg) "dedup".
Definition name_a : string := name_a_cfg cfg.
Definition name_b : string := if dedup_run then "dedup" else name_b_cfg cfg.
Definition vars_a : gmap string string := vars_a_cfg cfg.
Definition vars_b : gmap string string :=
  if dedup_run then vars_a_cfg cfg else vars_b_cfg cfg.

(** [conn] and [cursor] exist when [database_information] is given. *)
Definition conn : bool := database_information cfg.

Definition passes : list string := sorted (keys (blocks_by_pass cfg)).

Definition cand_table (pass_name : string) : string :=
  "candidates_" +:+ name_a +:+ "_" +:+ name_b +:+ "_p" +:+ pass_name.

Definition with_tables (w : world) (t : gmap string (list candidate)) : world :=
  mkWorld (df_a w) (df_b w) t (files w).

(** One iteration of [for pass_name in passes]. *)
Definition process_pass (st : run_state) (pass_name : string)
  : res run_state :=
  do passnum <- pass_number pass_name;
  do r <- run_blocking_pass (blocks_by_pass cfg) pass_name vars_a vars_b
            name_a name_b (past st) conn (wld st);
  let st := mkRun (fst r) (snd r) (all_cands st) (shard st)
                  (log st ++ [BlockingPass pass_name]) in
  if conn then
    match listed (tables (wld st)) (cand_table pass_name) with
    | None => Ok st
    | Some rows =>
        do size <- getitem (chunk_sizes cfg) (pretty passnum);
        let st := fold_left (on_chunk (num_processes cfg) pass_name)
                            (fetchmany_all size rows) st in
        Ok (mkRun (past st)
                  (with_tables (wld st)
                     (delete (store_name (cand_table pass_name)) (tables (wld st))))
                  (all_cands st) (shard st) (log st))
    end
  else
    let blockfile := cand_table pass_name +:+ ".csv" in
    do size <- getitem (chunk_sizes cfg) (pretty passnum);
    do chunks <- read_csv (files (wld st)) blockfile size;
    Ok (fold_left (on_csv_chunk (num_processes cfg) pass_name) chunks st).

Fixpoint pass_loop (names : list string) (st : run_state) : res run_state :=
  match names with
  | [] => Ok st
  | pass_name :: rest =>
      do st <- process_pass st pass_name;
      pass_loop rest st
  end.

(** The weight of every ground-truth result. *)
Definition ground_truth_weight : Z :=
  10 ^ (Z.of_nat (size (blocks_by_pass cfg)) + 1).

(** The read of one ground-truth table is left to [match_functions]; its
    rows are those of the table. *)
Definition ground_truth_results (w : world) : list event :=
  map (fun g_id =>
         GroundTruthResult g_id
           (default [] (tables w !! store_name
                                      ("candidates_" +:+ name_a +:+ "_" +:+ name_b
                                       +:+ "_matching_" +:+ g_id)))
           ground_truth_weight)
      (ground_truth_ids cfg).

(** The ground-truth stage: [conn.cursor()] on the absent connection is
    an [AttributeError]. *)
Definition ground_truth_stage (st : run_state) : res run_state :=
  match ground_truth_ids cfg with
  | [] => Ok st
  | _ =>
      if conn then
        do r <- run_ground_truth_ids_passes (ground_truth_ids cfg)
                  vars_a vars_b name_a name_b (past st) (wld st);
        Ok (mkRun (fst r) (snd r) (all_cands st) (shard st)
                  (log st ++ [GroundTruthPasses (ground_truth_ids cfg)]
                          ++ ground_truth_results (snd r)))
      else Raise AttributeError
  end.

(** The run on the data [data_a], [data_b] that [load_data] returns, from
    a store and a directory holding [tables0] and [files0].
    [multiprocessing.Pool] refuses a pool without a process. *)
Definition main (data_a data_b : list record)
    (tables0 files0 : gmap string (list candidate)) : res run_state :=
  let w := mkWorld (Frame.mkFrame None data_a)
                   (if dedup_run then None else Some (Frame.mkFrame None data_b))
                   tables0 files0 in
  let past_join_cond_str := if conn then PastSql [] else PastSeen [] [] in
  do st <- ground_truth_stage (mkRun past_join_cond_str w [] 0 []);
  match num_processes cfg with
  | O => Raise ValueError
  | _ =>
      do st <- pass_loop passes st;
      Ok (submit_rest st)
  end.

End PassLoop.

(** ** The columns of a shard

    [output_vars] starts from the ten fixed columns and takes the names of
    [comp_names_by_pass], read in the order of its keys, each name the
    first time it is met. *)

Definition base_output_vars : list string :=
  ["indv_id_a"; "indv_id_b"; "idx_a"; "idx_b"; "pass_name"; "match_strict";
   "match_moderate"; "match_relaxed"; "match_review"; "weight"].

Definition add_output_var (output_vars : list string) (var : string)
  : list string :=
  if Frame.mem var output_vars then output_vars else output_vars ++ [var].

Definition output_vars (comp_names_by_pass : list (string * list string))
  : list string :=
  fold_left (fun acc kv => fold_left add_output_var (snd kv) acc)
            comp_names_by_pass base_output_vars.

(** * The vocabulary of the properties *)

(** ** Reading a log *)

Definition pass_events (l : list event) : list string :=
  omap (fun e => match e with BlockingPass p => Some p | _ => None end) l.

Definition chunks_read (l : list event) : list tagged :=
  omap (fun e => match e with ChunkRead p c => Some (c, p) | _ => None end) l.

Definition submitted (l : list event) : list (list tagged) :=
  omap (fun e => match e with Submit _ b => Some b | _ => None end) l.

Definition chunks_of_pass (pass_name : string) (l : list event) : list candidate :=
  concat (map fst (List.filter (fun t => String.eqb (snd t) pass_name) (chunks_read l))).

Definition log_of (r : res run_state) : list event :=
  match r with
  | Ok st => log st
  | Raise _ => []
  end.

Definition state_of (r : res run_state) : run_state :=
  match r with
  | Ok st => st
  | Raise _ => mkRun (PastSql []) (mkWorld (Frame.mkFrame None []) None ∅ ∅) [] 0 []
  end.

(** ** Exclusion by the running state *)

Module Exclusion.

(** A pair of rows is excluded by the relational state when the
    [AND NOT (past)] that [exclude_past_join_cond] adds is not true on
    it; the empty state adds nothing. *)
Definition excluded_sql (p : Sql.past_cond) (ra rb : record) : bool :=
  match p with
  | [] => false
  | _ => negb (Sql.is_true (Sql.tv_not (Sql.eval_past ra rb p)))
  end.

Definition excluded (s : past_state) (ra rb : record) : bool :=
  match s with
  | PastSql p => excluded_sql p ra rb
  | PastSeen prev_a prev_b =>
      existsb (fun lr =>
                 Nat.leb 1 (length (fst lr))
                 && forallb (fun cc => Frame.pd_eq (col ra (fst cc)) (col rb (snd cc)))
                            (combine (fst lr) (snd lr)))
              (combine prev_a prev_b)
  end.

End Exclusion.

(** ** The pending batch *)

Module Dispatcher.

(** The pending batch after a log: a non-empty chunk read joins it, a
    submission empties it. *)
Definition replay (acc : list tagged) (e : event) : list tagged :=
  match e with
  | ChunkRead p (x :: c) => acc ++ [(x :: c, p)]
  | Submit _ _ => []
  | _ => acc
  end.

Definition pending (l : list event) : list tagged := fold_left replay l [].

Definition has_rows (t : tagged) : bool :=
  match fst t with
  | [] => false
  | _ => true
  end.

(** An event that neither reads a chunk nor submits a batch. *)
Definition quiet (e : event) : Prop :=
  match e with
  | ChunkRead _ _ | Submit _ _ => False
  | _ => True
  end.

(** What holds of the log between two iterations of the loops. *)
Record loop_ok (n : nat) (l : list event) : Prop := mkLoopOk {
  ok_bound : forall pre post, l = pre ++ post ->
               (length (pending pre) <= 2 * n)%nat;
  ok_submit : forall pre i b post, l = pre ++ Submit i b :: post ->
               b = pending pre /\ length b = (2 * n)%nat;
  ok_prompt : forall pre post, l = pre ++ post ->
               length (pending pre) = (2 * n)%nat ->
               exists i post', post = Submit i (pending pre) :: post';
  ok_all : concat (submitted l) ++ pending l
           = List.filter has_rows (chunks_read l)
}.

(** The invariant of the run between two iterations. *)
Definition inv (n : nat) (st : run_state) : Prop :=
  all_cands st = pending (log st)
  /\ (length (all_cands st) < 2 * n)%nat
  /\ loop_ok n (log st).

(** What the log of a finished run satisfies. *)
Record batches_ok (n : nat) (st : run_state) : Prop := mkBatchesOk {
  never_exceeds : forall pre post, log st = pre ++ post ->
      (length (pending pre) <= 2 * n)%nat;
  submits_pending : forall pre i b post, log st = pre ++ Submit i b :: post ->
      b = pending pre /\ b <> []
      /\ (length b = (2 * n)%nat \/ post = []);
  submits_at_threshold : forall pre post, log st = pre ++ post ->
      length (pending pre) = (2 * n)%nat ->
      exists i post', post = Submit i (pending pre) :: post';
  nothing_left : all_cands st = [] /\ pending (log st) = [];
  each_chunk_once :
      concat (submitted (log st)) = List.filter has_rows (chunks_read (log st))
}.

(** The chunks that the cursor or the CSV reader of a pass yields once
    [run_blocking_pass] has returned, and the store once the table that was
    read is dropped. *)
Definition yield (cfg : config) (w : world) (pass_name : string) (passnum : N)
  : res (list chunk * world) :=
  if conn cfg then
    match listed (tables w) (cand_table cfg pass_name) with
    | None => Ok ([], w)
    | Some rows =>
        do size <- getitem (chunk_sizes cfg) (pretty passnum);
        Ok (fetchmany_all size rows,
            with_tables w (delete (store_name (cand_table cfg pass_name)) (tables w)))
    end
  else
    do size <- getitem (chunk_sizes cfg) (pretty passnum);
    do chunks <- read_csv (files w) (cand_table cfg pass_name +:+ ".csv") size;
    Ok (chunks, w).

(** The chunks that the readers yield over the passes [names], in order,
    each with the name of its pass: the pass loop without its dispatcher. *)
Fixpoint yielded (cfg : config) (names : list string) (s : past_state) (w : world)
  : res (list tagged) :=
  match names with
  | [] => Ok []
  | pass_name :: rest =>
      do passnum <- pass_number pass_name;
      do r <- run_blocking_pass (blocks_by_pass cfg) pass_name (vars_a cfg)
                (vars_b cfg) (name_a cfg) (name_b cfg) s (conn cfg) w;
      do y <- yield cfg (snd r) pass_name passnum;
      do more <- yielded cfg rest (fst r) (snd y);
      Ok (map (fun c => (c, pass_name)) (fst y) ++ more)
  end.

(** The state in which [main] enters the ground-truth stage. *)
Definition initial (cfg : config) (data_a data_b : list record)
    (tables0 files0 : gmap string (list candidate)) : run_state :=
  mkRun (if conn cfg then PastSql [] else PastSeen [] [])
        (mkWorld (Frame.mkFrame None data_a)
                 (if dedup_run cfg then None else Some (Frame.mkFrame None data_b))
                 tables0 files0)
        [] 0 [].

(** The chunks that the log of a finished run records as read are the
    chunks that the readers yielded after the ground-truth stage, each once
    and in order. *)
Definition reads_all (cfg : config) (data_a data_b : list record)
    (tables0 files0 : gmap string (list candidate)) (st : run_state) : Prop :=
  exists st1,
    ground_truth_stage cfg (initial cfg data_a data_b tables0 files0) = Ok st1
    /\ yielded cfg (passes cfg) (past st1) (wld st1) = Ok (chunks_read (log st)).

End Dispatcher.

(** ** The order of the passes *)

Definition string_le (s t : string) : Prop := String.leb s t = true.

(** The loop starts the passes in the order of the list it is given. *)
Definition starts_no_pass (e : event) : Prop :=
  match e with
  | BlockingPass _ => False
  | _ => True
  end.

(** The events of the numbered passes. *)
Definition numbered (e : event) : Prop :=
  match e with
  | GroundTruthPasses _ | GroundTruthResult _ _ _ => False
  | _ => True
  end.

Definition extends (st st' : run_state) : Prop :=
  exists es, log st' = log st ++ es /\ Forall numbered es.

(** ** A pass that names a field absent from a field map *)

(** The variables of a pass once the inversion marker is removed. *)
Definition cleaned (blocking_vars : list string) : list string :=
  if existsb contains_inv blocking_vars then map remove_inv blocking_vars
  else blocking_vars.

Definition names_missing_field (vars_a vars_b : gmap string string)
    (blocking_vars : list string) : Prop :=
  exists v, In v (cleaned blocking_vars)
            /\ (vars_a !! v = None \/ vars_b !! v = None).

(** ** The two backends on a plan *)

(** The blocking columns of a pass, side A and side B. *)
Definition pass_columns : Type := (list string * list string)%type.

(** The calls of [find_pass_candidates] that a linking run makes for a
    plan, the state threaded from one to the next. *)
Fixpoint relational_run (ida idb : string) (ta tb : list record)
    (plan : list pass_columns) (past : Sql.past_cond)
  : res (list (list candidate)) :=
  match plan with
  | [] => Ok []
  | p :: rest =>
      do r <- Sql.find_pass_candidates (fst p) (snd p) ida idb past ta tb false;
      do more <- relational_run ida idb ta tb rest (snd r);
      Ok (fst r :: more)
  end.

(** The calls of [find_block] for the same plan, on the frames indexed by
    identifier and ordinal. *)
Fixpoint in_memory_run (ida idb : string) (ta tb : list record)
    (plan : list pass_columns) (prev_a prev_b : list (list string))
  : res (list (list candidate)) :=
  match plan with
  | [] => Ok []
  | p :: rest =>
      do r <- Frame.find_block (Frame.mkFrame (Some ida) ta)
                (Some (Frame.mkFrame (Some idb) tb))
                (fst p) (snd p) false prev_a prev_b;
      do more <- in_memory_run ida idb ta tb rest (fst (snd r)) (snd (snd r));
      Ok (fst r :: more)
  end.

Definition id_pair (c : candidate) : value * value := (indv_id_a c, indv_id_b c).

(** Both backends run the plan and produce the same multiset of pairs of
    identifiers. *)
Definition backends_agree (ida idb : string) (ta tb : list record)
    (plan : list pass_columns) : Prop :=
  exists rs rm,
    relational_run ida idb ta tb plan [] = Ok rs
    /\ in_memory_run ida idb ta tb plan [] [] = Ok rm
    /\ Permutation (map id_pair (concat rs)) (map id_pair (concat rm)).

(** A pass as [run_blocking_pass] hands it to a backend when both field
    maps name the columns alike: as many columns on each side, the same
    ones up to their order, none of them the identifier or the ordinal. *)
Definition well_formed_pass (ida idb : string) (p : pass_columns) : Prop :=
  fst p <> []
  /\ length (fst p) = length (snd p)
  /\ (forall c, In c (fst p) <-> In c (snd p))
  /\ (forall c, In c (fst p) -> c <> ida /\ c <> idb /\ c <> "idx").

(** No row of side A holds the empty string, and no row of side B holds
    NULL, in a column of the pass. *)
Definition no_blank_clash (ta tb : list record) (p : pass_columns) : Prop :=
  (forall ra c, In ra ta -> In c (fst p) -> col ra c <> Some EmptyString)
  /\ (forall rb c, In rb tb -> In c (snd p) -> col rb c <> None).

(** ** Normal forms of the in-memory backend *)

Module Normal.
Import Sql Frame.

Definition non_empty_on (vars : list string) (r : record) : bool :=
  forallb (fun c => negb (value_eqb (col r c) (Some EmptyString))) vars.

Definition keys_ok (on : list string) (ir : nat * record) : bool :=
  forallb is_some (map (col (snd ir)) on).

Definition has_keys (on : list string) (r : record) : bool :=
  forallb is_some (map (col r) on).

(** [df[on + keep]] and the renaming go through. *)
Definition check_side (f : frame) (on keep : list string) (nkeys : nat)
  : res unit :=
  if negb (forallb (is_column f) (on ++ keep)) then Raise KeyError
  else if negb (Nat.eqb (length on) nkeys) then Raise ValueError
  else Ok tt.

(** Which comparisons the loop over the earlier blocks makes: a matter
    of column names alone. *)
Fixpoint seen_columns (left_keep right_keep left_columns right_columns : list string)
    (left_seen right_seen : list (list string))
  : res (list (list (string * string))) :=
  match left_seen with
  | [] => Ok []
  | prev_block_l :: ls =>
      match right_seen with
      | [] => Raise IndexError
      | prev_block_r :: rs =>
          do cmp <- compared_columns left_keep right_keep
                      left_columns right_columns prev_block_l prev_block_r;
          match cmp with
          | [] => Raise KeyError
          | _ =>
              do rest <- seen_columns left_keep right_keep
                           left_columns right_columns ls rs;
              Ok (cmp :: rest)
          end
      end
  end.

Definition not_seen (cmps : list (list (string * string))) (p : pair_row) : bool :=
  forallb (fun cmp => negb (statement cmp p)) cmps.

Definition pair_of (lk rk on_l on_r : list string) (q : (nat * record) * (nat * record))
  : pair_row :=
  merge_row lk rk (side_row_of on_l lk (fst q)) (side_row_of on_r rk (snd q)).

Definition pair_test (lk rk on_l on_r : list string)
    (cmps : list (list (string * string))) (a b : nat * record) : bool :=
  keys_eqb (map (col (snd a)) on_l) (map (col (snd b)) on_r)
  && not_seen cmps (pair_of lk rk on_l on_r (a, b)).

Definition link_pairs (lk rk on_l on_r : list string)
    (cmps : list (list (string * string))) (ta tb : list record)
  : list ((nat * record) * (nat * record)) :=
  flat_map (fun a =>
    map (pair a)
        (List.filter (pair_test lk rk on_l on_r cmps a)
                     (List.filter (keys_ok on_r) (enumerate tb))))
    (List.filter (keys_ok on_l) (enumerate ta)).

Definition code_of (q : (nat * record) * (nat * record)) : nat * nat :=
  (fst (fst q), fst (snd q)).

Definition positioned (ta tb : list record)
    (q : (nat * record) * (nat * record)) : Prop :=
  ta !! fst (fst q) = Some (snd (fst q)) /\ tb !! fst (snd q) = Some (snd (snd q)).

(** The comparisons asked for by an earlier block. *)
Definition comparisons (p : pass_columns) : list (string * string) :=
  map (fun lr => (fst lr +:+ "_x", snd lr +:+ "_y")) (combine (fst p) (snd p)).

(** The columns of a block are among the kept columns. *)
Definition within (lk rk : list string) (p : pass_columns) : Prop :=
  (forall c, In c (fst p) -> In c lk) /\ (forall c, In c (snd p) -> In c rk).

Definition condition_of (p : pass_columns) : join_cond := combine (fst p) (snd p).

(** The test that [_link_index] makes on a pair of rows, after the
    passes [prev]. *)
Definition link_test (prev : list pass_columns) (p : pass_columns)
    (ra rb : record) : bool :=
  pair_test (keep_of (map fst prev)) (keep_of (map snd prev)) (fst p) (snd p)
            (map comparisons prev) (O, ra) (O, rb).

(** The pairs of rows and the rows of candidates of the relational pass
    [p] after the passes [prev]. *)
Definition joined (ta tb : list record) (prev : list pass_columns)
    (p : pass_columns) : list (record * record) :=
  joined_rows ta tb (mkFull (condition_of p) (map condition_of prev) None).

Definition pass_rows (ida idb : string) (ta tb : list record)
    (prev : list pass_columns) (p : pass_columns) : list candidate :=
  map (fun q => select_row ida idb (fst q) (snd q)) (joined ta tb prev p).

End Normal.

(** ** Pairs of rows and the columns of a pass *)

(** The two rows hold the same non-empty value in a pair of columns. *)
Definition agree_on (ra rb : record) (cc : string * string) : Prop :=
  exists s, col ra (fst cc) = Some s /\ col rb (snd cc) = Some s
            /\ s <> EmptyString.

(** The conjunct of the relational join is false: side A is blank, or the
    two values are known and different. *)
Definition differ_on (ra rb : record) (cc : string * string) : Prop :=
  blank (col ra (fst cc)) = true
  \/ exists s t, col ra (fst cc) = Some s /\ col rb (snd cc) = Some t /\ s <> t.

(** Side A holds a value that side B repeats or leaves NULL. *)
Definition half_known (ra rb : record) (cc : string * string) : Prop :=
  exists s, col ra (fst cc) = Some s /\ s <> EmptyString
            /\ (col rb (snd cc) = None \/ col rb (snd cc) = Some s).

(** The comparison [==] of the in-memory exclusion fails. *)
Definition unequal_on (ra rb : record) (cc : string * string) : Prop :=
  Frame.pd_eq (col ra (fst cc)) (col rb (snd cc)) = false.

Definition ordinal_pair (c : candidate) : Z * Z := (idx_a c, idx_b c).

(** The columns that the two field maps give a variable. *)
Definition named_by (va vb : gmap string string) (v : string)
    (cc : string * string) : Prop :=
  va !! v = Some (fst cc) /\ vb !! v = Some (snd cc).

(** The part of a candidates table's name that [run_blocking_pass] and
    [run_ground_truth_ids_passes] call [match_name]. *)
Definition match_name (na nb : string) : string :=
  if String.eqb nb "dedup" then na +:+ "_dedup" else na +:+ "_" +:+ nb.

(** What a pass leaves behind apart from the frames. *)
Definition pass_outcome (r : res (past_state * world))
  : res (past_state * gmap string (list candidate) * gmap string (list candidate)) :=
  do r <- r; Ok (fst r, tables (snd r), files (snd r)).

(** ** What the pass loop needs of a pass name *)

(** The name holds a number under which a chunk size of at least 1 is
    configured. *)
Definition sized (cfg : config) (pass_name : string) : Prop :=
  exists n size, pass_number pass_name = Ok n
                 /\ chunk_sizes cfg !! pretty n = Some size
                 /\ (1 <= size)%nat.

(** The name holds a number and, without a relational store, a chunk size
    of at least 1 is configured under that number. *)
Definition pass_configured (cfg : config) (pass_name : string) : Prop :=
  exists n, pass_number pass_name = Ok n
            /\ (conn cfg = false ->
                exists size, chunk_sizes cfg !! pretty n = Some size
                             /\ (1 <= size)%nat).

(** A name that the store takes as it is written: lower-case letters,
    digits and underscores, 63 characters at most. *)
Definition plain_char (c : ascii) : bool :=
  let n := N_of_ascii c in
  ((N.leb 97 n && N.leb n 122) || (N.leb 48 n && N.leb n 57) || N.eqb n 95)%N.

Fixpoint all_plain (s : string) : bool :=
  match s with
  | EmptyString => true
  | String c rest => plain_char c && all_plain rest
  end.

Definition plain_name (s : string) : bool :=
  all_plain s && (String.length s <=? 63)%nat.

Fixpoint all_digits (s : string) : bool :=
  match s with
  | EmptyString => true
  | String c rest => is_digit c && all_digits rest
  end.

(** The number that a list of decimal digits writes. *)
Definition dval (ds : list N) : N :=
  fold_left (fun acc d => (10 * acc + d)%N) ds 0%N.

(** ** The shards *)

(** The indices [i] of the files [temp_match_i.csv] written, in order. *)
Definition shards (l : list event) : list nat :=
  omap (fun e => match e with Submit i _ => Some i | _ => None end) l.

Definition shards_ok (st : run_state) : Prop :=
  shards (log st) = seq 0 (shard st).

(** ** The pairs that a run reads *)

(** Every candidate read in a chunk so far, in the order of reading. *)
Definition read_pairs (l : list event) : list candidate :=
  concat (map fst (chunks_read l)).

(** A pass that blocks: it has variables, the two field maps name them
    all, and a chunk size of at least 1 is configured under its number. *)
Definition ready (cfg : config) (pass_name : string) : Prop :=
  exists vs pa pb,
    blocks_by_pass cfg !! pass_name = Some vs /\ vs <> []
    /\ Forall2 (fun v c => vars_a cfg !! v = Some c) (cleaned vs) pa
    /\ Forall2 (fun v c => vars_b cfg !! v = Some c) (cleaned vs) pb
    /\ sized cfg pass_name.

(** A pass that blocks, on columns named alike on the two sides and apart
    from the identifiers and the ordinal. *)
Definition ready_alike (cfg : config) (ida idb : string) (pass_name : string) : Prop :=
  exists vs pa pb,
    blocks_by_pass cfg !! pass_name = Some vs /\ vs <> []
    /\ Forall2 (fun v c => vars_a cfg !! v = Some c) (cleaned vs) pa
    /\ Forall2 (fun v c => vars_b cfg !! v = Some c) (cleaned vs) pb
    /\ well_formed_pass ida idb
         (pa, if existsb contains_inv vs then rev pb else pb)
    /\ sized cfg pass_name.

(** What holds between two passes with a relational store: the candidates
    read so far are pairs of rows of the two tables, each excluded by the
    state, no two of them with the same ordinals. *)
Definition read_once (cfg : config) (ida idb : string) (ta tb : list record)
    (st : run_state) : Prop :=
  exists p,
    past st = PastSql p
    /\ table_rows (df_a (wld st)) = ta
    /\ rows_b (String.eqb (name_b cfg) "dedup") (wld st) = tb
    /\ List.NoDup (map ordinal_pair (read_pairs (log st)))
    /\ forall c, In c (read_pairs (log st)) ->
         exists ra rb, In ra ta /\ In rb tb /\ c = Sql.select_row ida idb ra rb
                       /\ Exists (fun j => Sql.eval_join ra rb j = Sql.T) p.

(** The same between two passes of a linking run without a store: the
    frames are without index, and each candidate read is a pair of rows, as
    the CSV reader reads it back, that agrees on the columns of a pass that
    the state holds. *)
Definition read_once_seen (ida idb : string) (ta tb : list record)
    (st : run_state) : Prop :=
  exists prev : list pass_columns,
    past st = PastSeen (map fst prev) (map snd prev)
    /\ Forall (well_formed_pass ida idb) prev
    /\ df_a (wld st) = Frame.mkFrame None ta
    /\ df_b (wld st) = Some (Frame.mkFrame None tb)
    /\ List.NoDup (map ordinal_pair (read_pairs (log st)))
    /\ forall c, In c (read_pairs (log st)) ->
         exists ra rb, In ra ta /\ In rb tb
           /\ c = read_row (Sql.select_row ida idb ra rb)
           /\ Exists (fun q => Forall (agree_on ra rb) (combine (fst q) (snd q))) prev.

(** * Data and configurations of the examples *)

Definition rec_of (i : Z) (kvs : list (string * string)) : record :=
  mkRecord i (list_to_map kvs) false.

Definition ssn_side (tag : string) (i : Z) (ssn : string) : record :=
  rec_of i [("id", tag +:+ ssn); ("ssn", ssn)].

Definition ex_a : list record :=
  [ssn_side "a" 0 "1"; ssn_side "a" 1 "1"; ssn_side "a" 2 "2";
   ssn_side "a" 3 "3"; ssn_side "a" 4 "4"].

Definition ex_b : list record :=
  [ssn_side "b" 0 "1"; ssn_side "b" 1 "2"; ssn_side "b" 2 "2";
   ssn_side "b" 3 "3"; ssn_side "b" 4 "5"].

(** The five pairs of the example. *)
Definition ssn_candidates : list candidate :=
  [mkCandidate (Some "a1") (Some "b1") 0 0;
   mkCandidate (Some "a1") (Some "b1") 1 0;
   mkCandidate (Some "a2") (Some "b2") 2 1;
   mkCandidate (Some "a2") (Some "b2") 2 2;
   mkCandidate (Some "a3") (Some "b3") 3 3].

Definition ordinals (r : res (list candidate)) : list (Z * Z) :=
  match r with
  | Ok l => map (fun c => (idx_a c, idx_b c)) l
  | Raise _ => []
  end.

Definition frame_by_id (l : list record) : Frame.frame :=
  Frame.mkFrame (Some "id") l.

Definition same_vars : gmap string string :=
  list_to_map [("indv_id", "id"); ("ssn", "ssn")].

Definition link_config (db : bool) (blocks : list (string * list string))
    (gids : list string) : config :=
  mkConfig "link" "a" "b" same_vars same_vars db gids
           (list_to_map blocks)
           (list_to_map (map (fun kv => (fst kv, 9%nat)) blocks)) 1.

Definition two_chunk_config : config :=
  mkConfig "link" "a" "b" same_vars same_vars true []
           (list_to_map [("1", ["ssn"])]) (list_to_map [("1", 2%nat)]) 1.

Definition dedup_file_config : config :=
  mkConfig "dedup" "a" "b" same_vars same_vars false []
           (list_to_map [("1", ["ssn"])]) (list_to_map [("1", 9%nat)]) 1.

(** Two rows of one person: the same identifier, the same [ssn]. *)
Definition twin_rows : list record :=
  [rec_of 0 [("id", "x"); ("ssn", "1")]; rec_of 1 [("id", "x"); ("ssn", "1")]].

Definition ten_pass_config : config :=
  link_config true
    (map (fun k => (k, ["ssn"])) ["1"; "2"; "3"; "4"; "5"; "6"; "7"; "8"; "9"; "10"])
    [].

Definition missing_field_plan : list (string * list string) :=
  [("1", ["dob"]); ("2", ["ssn"])].

Definition skip_world : world :=
  mkWorld (Frame.mkFrame None ex_a) (Some (Frame.mkFrame None ex_b)) ∅ ∅.

Definition skip_plan : gmap string (list string) :=
  list_to_map [("1", ["ssn"]); ("2", []); ("3", ["ssn"])].

Definition past_after (pass_name : string) (s : past_state) : past_state :=
  match run_blocking_pass skip_plan pass_name same_vars same_vars "a" "b" s
          true skip_world with
  | Ok r => fst r
  | Raise _ => s
  end.

Definition blank_a : list record :=
  [rec_of 0 [("id", "a0"); ("f1", EmptyString); ("f2", "k")]].

Definition blank_b : list record :=
  [rec_of 0 [("id", "b0"); ("f1", EmptyString); ("f2", "k")]].

Definition two_key_a : list record :=
  [rec_of 0 [("id", "a0"); ("ssn", "1"); ("dob", "d1")];
   rec_of 1 [("id", "a1"); ("ssn", "2"); ("dob", EmptyString)];
   rec_of 2 [("id", "a2"); ("ssn", "3"); ("dob", "d2")]].

Definition two_key_b : list record :=
  [rec_of 0 [("id", "b0"); ("ssn", "1"); ("dob", "d1")];
   rec_of 1 [("id", "b1"); ("ssn", "9"); ("dob", "d2")];
   rec_of 2 [("id", "b2"); ("ssn", "2")]].

Definition two_key_plan : list pass_columns :=
  [(["ssn"], ["ssn"]); (["dob"], ["dob"])].

(** Three rows with one [ssn], two of them of one person. *)
Definition dedup_rows : list record :=
  [rec_of 0 [("id", "p"); ("ssn", "1")]; rec_of 1 [("id", "q"); ("ssn", "1")];
   rec_of 2 [("id", "p"); ("ssn", "1")]].

Definition two_key_rows : list (list candidate) :=
  [[mkCandidate (Some "a0") (Some "b0") 0 0;
    mkCandidate (Some "a1") (Some "b2") 1 2];
   [mkCandidate (Some "a2") (Some "b1") 2 1]].

(** A row of side B without [f1]. *)
Definition null_a : list record :=
  [rec_of 0 [("id", "a0"); ("f1", "x"); ("f2", "k")]].

Definition null_b : list record :=
  [rec_of 0 [("id", "b0"); ("f2", "k")]].

Definition gt_vars : gmap string string :=
  list_to_map [("indv_id", "id"); ("ssn", "ssn"); ("dob", "dob")].

Definition start_sql : run_state := mkRun (PastSql []) skip_world [] 0 [].

Definition start_seen : run_state := mkRun (PastSeen [] []) skip_world [] 0 [].

(** Two rows of a table that keeps the column [idx] as text, the
    ordinals 9 and 10. *)
Definition text_rows : list record :=
  [mkRecord 9 (list_to_map [("id", "p"); ("ssn", "1")]) true;
   mkRecord 10 (list_to_map [("id", "q"); ("ssn", "1")]) true].

(** Two rows that an inverted pass on first and last name pairs. *)
Definition name_vars : gmap string string :=
  list_to_map [("indv_id", "id"); ("xf", "xf"); ("xl", "xl")].

Definition inv_world : world :=
  mkWorld (Frame.mkFrame None [rec_of 0 [("id", "a0"); ("xf", "ann"); ("xl", "lee")]])
          (Some (Frame.mkFrame None [rec_of 0 [("id", "b0"); ("xf", "lee"); ("xl", "ann")]]))
          ∅ ∅.

(** Pass names padded to two digits; the chunk sizes are keyed by the
    numbers. *)
Definition padded_config : config :=
  mkConfig "link" "a" "b" same_vars same_vars true []
    (list_to_map [("01", ["ssn"]); ("02", ["ssn"]); ("10", ["ssn"])])
    (list_to_map [("1", 9%nat); ("2", 9%nat); ("10", 9%nat)]) 1.

(** Two passes, on [f1] and then on [f2]. *)
Definition blank_vars : gmap string string :=
  list_to_map [("indv_id", "id"); ("f1", "f1"); ("f2", "f2")].

Definition blank_config (db : bool) : config :=
  mkConfig "link" "a" "b" blank_vars blank_vars db []
    (list_to_map [("1", ["f1"]); ("2", ["f2"])])
    (list_to_map [("1", 9%nat); ("2", 9%nat)]) 1.

(** The configuration of [two_chunk_config] with the data sets named in
    capital letters. *)
Definition capital_config : config :=
  mkConfig "link" "A" "B" same_vars same_vars true []
           (list_to_map [("1", ["ssn"])]) (list_to_map [("1", 2%nat)]) 1.

(** Candidates whose identifiers are spelled like missing values. *)
Definition na_rows : list candidate :=
  [mkCandidate (Some "NA") (Some "b1") 0 0;
   mkCandidate (Some "a2") (Some "None") 1 1;
   mkCandidate (Some EmptyString) None 2 2;
   mkCandidate (Some "na") (Some "007") 3 3].

(** Two passes, on [ssn] and then on [dob]. *)
Definition two_key_config (db : bool) : config :=
  mkConfig "link" "a" "b" gt_vars gt_vars db []
    (list_to_map [("1", ["ssn"]); ("2", ["dob"])])
    (list_to_map [("1", 9%nat); ("2", 9%nat)]) 1.

(** * Facts *)

(** ** The end-to-end example: one pass on [ssn] *)

Example sql_end_to_end :
  ordinals (do r <- Sql.find_pass_candidates ["ssn"] ["ssn"] "id" "id" []
                      ex_a ex_b false; Ok (fst r))
  = [(0,0); (1,0); (2,1); (2,2); (3,3)].
Proof. vm_compute. reflexivity. Qed.

Example frame_end_to_end :
  ordinals (do r <- Frame.find_block (frame_by_id ex_a) (Some (frame_by_id ex_b))
                      ["ssn"] ["ssn"] false [] []; Ok (fst r))
  = [(0,0); (1,0); (2,1); (2,2); (3,3)].
Proof. vm_compute. reflexivity. Qed.

(** ** Facts about the relational backend *)

Module SqlFacts.
Import Sql.

Lemma tv_and_T a b : tv_and a b = T <-> a = T /\ b = T.
Proof. destruct a, b; simpl; split; intros H; try discriminate; tauto. Qed.

Lemma tv_and_F a b : tv_and a b = F <-> a = F \/ b = F.
Proof.
  destruct a, b; simpl; split; intros H; try discriminate; auto;
    destruct H; discriminate.
Qed.

Lemma tv_or_T a b : tv_or a b = T <-> a = T \/ b = T.
Proof.
  destruct a, b; simpl; split; intros H; try discriminate; auto;
    destruct H; discriminate.
Qed.

Lemma tv_or_F a b : tv_or a b = F <-> a = F /\ b = F.
Proof. destruct a, b; simpl; split; intros H; try discriminate; tauto. Qed.

Lemma tv_not_T a : tv_not a = T <-> a = F.
Proof. destruct a; simpl; split; intros H; try discriminate; auto. Qed.

Lemma is_true_T a : is_true a = true <-> a = T.
Proof. destruct a; simpl; split; intros H; try discriminate; auto. Qed.

Lemma fold_and_T {A : Type} (f : A -> tv) (l : list A) (acc : tv) :
  fold_left (fun a c => tv_and a (f c)) l acc = T
  <-> acc = T /\ Forall (fun c => f c = T) l.
Proof.
  revert acc. induction l as [|c l IH]; intros acc; simpl.
  - split; [intros H; split; [exact H | constructor] | tauto].
  - rewrite IH, tv_and_T. split.
    + intros [[H1 H2] H3]. split; [exact H1 | constructor; assumption].
    + intros [H1 H2]. inversion H2; subst. tauto.
Qed.

Lemma fold_and_F {A : Type} (f : A -> tv) (l : list A) (acc : tv) :
  fold_left (fun a c => tv_and a (f c)) l acc = F
  <-> acc = F \/ Exists (fun c => f c = F) l.
Proof.
  revert acc. induction l as [|c l IH]; intros acc; simpl.
  - split; [auto | intros [H | H]; [exact H | inversion H]].
  - rewrite IH, tv_and_F. split.
    + intros [[H | H] | H]; auto.
    + intros [H | H]; [auto | inversion H; subst; auto].
Qed.

Lemma fold_or_T {A : Type} (f : A -> tv) (l : list A) (acc : tv) :
  fold_left (fun a c => tv_or a (f c)) l acc = T
  <-> acc = T \/ Exists (fun c => f c = T) l.
Proof.
  revert acc. induction l as [|c l IH]; intros acc; simpl.
  - split; [auto | intros [H | H]; [exact H | inversion H]].
  - rewrite IH, tv_or_T. split.
    + intros [[H | H] | H]; auto.
    + intros [H | H]; [auto | inversion H; subst; auto].
Qed.

Lemma fold_or_F {A : Type} (f : A -> tv) (l : list A) (acc : tv) :
  fold_left (fun a c => tv_or a (f c)) l acc = F
  <-> acc = F /\ Forall (fun c => f c = F) l.
Proof.
  revert acc. induction l as [|c l IH]; intros acc; simpl.
  - split; [intros H; split; [exact H | constructor] | tauto].
  - rewrite IH, tv_or_F. split.
    + intros [[H1 H2] H3]. split; [exact H1 | constructor; assumption].
    + intros [H1 H2]. inversion H2; subst. tauto.
Qed.

Lemma eval_join_T ra rb j :
  eval_join ra rb j = T <-> Forall (fun c => eval_conjunct ra rb c = T) j.
Proof. unfold eval_join. rewrite fold_and_T. tauto. Qed.

Lemma eval_join_F ra rb j :
  eval_join ra rb j = F <-> Exists (fun c => eval_conjunct ra rb c = F) j.
Proof.
  unfold eval_join. rewrite fold_and_F.
  split; [intros [H | H]; [discriminate | exact H] | auto].
Qed.

Lemma eval_past_T ra rb p :
  eval_past ra rb p = T <-> Exists (fun j => eval_join ra rb j = T) p.
Proof.
  unfold eval_past. rewrite fold_or_T.
  split; [intros [H | H]; [discriminate | exact H] | auto].
Qed.

Lemma eval_past_F ra rb p :
  eval_past ra rb p = F <-> Forall (fun j => eval_join ra rb j = F) p.
Proof. unfold eval_past. rewrite fold_or_F. tauto. Qed.

(** A conjunct is true exactly on equal, non-empty, non-null values. *)
Lemma eval_conjunct_T ra rb ca cb :
  eval_conjunct ra rb (ca, cb) = T
  <-> exists s, col ra ca = Some s /\ col rb cb = Some s /\ s <> EmptyString.
Proof.
  unfold eval_conjunct, sql_ne, sql_eq, is_not_null, of_bool.
  destruct (col ra ca) as [s|], (col rb cb) as [t|]; simpl.
  - destruct (String.eqb_spec s t) as [Heq|Hne],
             (String.eqb_spec s EmptyString) as [He|Hne2];
      simpl; split; intros H; try discriminate;
      try (destruct H as (u & Hu & Hv & Hn); congruence).
    exists s. subst. auto.
  - split; [destruct (String.eqb s EmptyString); discriminate|].
    intros (u & _ & Hv & _). discriminate.
  - split; [discriminate|]. intros (u & Hu & _). discriminate.
  - split; [discriminate|]. intros (u & Hu & _). discriminate.
Qed.

Lemma eval_conjunct_nonblank ra rb ca cb :
  eval_conjunct ra rb (ca, cb) = T ->
  blank (col ra ca) = false /\ blank (col rb cb) = false.
Proof.
  rewrite eval_conjunct_T. intros (s & -> & -> & Hs). simpl.
  destruct (String.eqb_spec s EmptyString); [contradiction | auto].
Qed.

(** The ON clause is true on a pair exactly when the pass condition is
    true, every earlier condition is false, and in a deduplication the
    ordinals ascend and the identifiers differ. *)
Lemma eval_full_T ra rb j p d :
  eval_full ra rb (mkFull j p d) = T
  <-> eval_join ra rb j = T
      /\ Forall (fun j' => eval_join ra rb j' = F) p
      /\ match d with
         | None => True
         | Some ids => eval_dedup ra rb ids = T
         end.
Proof.
  unfold eval_full; simpl.
  destruct p as [|j0 p], d as [ids|];
    rewrite ?tv_and_T, ?tv_not_T, ?eval_past_F; split; intros H;
    repeat match goal with
           | H : _ /\ _ |- _ => destruct H
           end; repeat split; auto.
Qed.

Lemma exclude_past_join_cond_eq j p :
  exclude_past_join_cond j p = mkFull j p None.
Proof. destruct p; reflexivity. Qed.

Lemma update_past_join_cond_eq j p :
  update_past_join_cond j p = p ++ [j].
Proof. destruct p; reflexivity. Qed.

Lemma get_pass_join_cond_Ok pa pb j :
  get_pass_join_cond pa pb = Ok j ->
  j = combine pa pb /\ (length pa <= length pb)%nat.
Proof.
  revert pb j. induction pa as [|a pa IH]; intros pb j; simpl.
  - intros H. inversion H. split; [reflexivity | lia].
  - destruct pb as [|b pb]; [discriminate|].
    destruct (get_pass_join_cond pa pb) as [rest|e] eqn:E; simpl; [|discriminate].
    intros H. inversion H; subst. destruct (IH _ _ E) as [-> Hl].
    split; [reflexivity | simpl; lia].
Qed.

Lemma get_pass_join_cond_same_length pa pb :
  length pa = length pb -> get_pass_join_cond pa pb = Ok (combine pa pb).
Proof.
  revert pb. induction pa as [|a pa IH]; intros [|b pb] H; simpl in *;
    try discriminate; [reflexivity|].
  rewrite IH by lia. reflexivity.
Qed.

Lemma in_joined_rows ta tb f ra rb :
  In (ra, rb) (joined_rows ta tb f)
  <-> In ra ta /\ In rb tb /\ eval_full ra rb f = T.
Proof.
  unfold joined_rows. rewrite in_flat_map. split.
  - intros (x & Hx & Hin). apply in_map_iff in Hin.
    destruct Hin as (y & Heq & Hy). inversion Heq; subst.
    apply filter_In in Hy. rewrite is_true_T in Hy. tauto.
  - intros (Ha & Hb & Ht). exists ra. split; [exact Ha|].
    apply in_map_iff. exists rb. split; [reflexivity|].
    apply filter_In. rewrite is_true_T. tauto.
Qed.

(** What [find_pass_candidates] returns when it returns. *)
Lemma find_pass_candidates_Ok pa pb ida idb p ta tb dedup rows p' :
  find_pass_candidates pa pb ida idb p ta tb dedup = Ok (rows, p') ->
  let f := mkFull (combine pa pb) p
                  (if dedup then Some (ida, idb) else None) in
  rows = map (fun q => select_row ida idb (fst q) (snd q)) (joined_rows ta tb f)
  /\ p' = p ++ [combine pa pb]
  /\ pa <> [] /\ (length pa <= length pb)%nat.
Proof.
  unfold find_pass_candidates.
  destruct (get_pass_join_cond pa pb) as [j|e] eqn:Ej; simpl; [|discriminate].
  destruct (get_pass_join_cond_Ok _ _ _ Ej) as [-> Hlen].
  rewrite exclude_past_join_cond_eq, update_past_join_cond_eq.
  unfold execute_blocking_join.
  assert (Hf : (if dedup
                then mkFull (fc_join (mkFull (combine pa pb) p None))
                       (fc_not_past (mkFull (combine pa pb) p None))
                       (Some (ida, idb))
                else mkFull (combine pa pb) p None)
               = mkFull (combine pa pb) p (if dedup then Some (ida, idb) else None))
    by (destruct dedup; reflexivity).
  rewrite Hf. simpl.
  destruct (combine pa pb) as [|c cs] eqn:Ec; simpl; [discriminate|].
  intros H. inversion H; subst. repeat split; auto.
  intros ->. discriminate.
Qed.

End SqlFacts.

(** ** Facts about the in-memory backend *)

Module FrameFacts.
Import Frame Normal.

(** *** List algebra *)

Lemma filter_flat_map {A B : Type} (P : B -> bool) (f : A -> list B) l :
  List.filter P (flat_map f l) = flat_map (fun x => List.filter P (f x)) l.
Proof.
  induction l as [|x l IH]; simpl; [reflexivity|].
  rewrite List.filter_app, IH. reflexivity.
Qed.

Lemma filter_filter {A : Type} (P Q : A -> bool) l :
  List.filter P (List.filter Q l) = List.filter (fun x => Q x && P x) l.
Proof.
  induction l as [|x l IH]; simpl; [reflexivity|].
  destruct (Q x); simpl; [destruct (P x)|]; rewrite IH; reflexivity.
Qed.

Lemma map_flat_map {A B C : Type} (g : B -> C) (f : A -> list B) l :
  map g (flat_map f l) = flat_map (fun x => map g (f x)) l.
Proof.
  induction l as [|x l IH]; simpl; [reflexivity|].
  rewrite map_app, IH. reflexivity.
Qed.

Lemma flat_map_map {A B C : Type} (g : A -> B) (f : B -> list C) l :
  flat_map f (map g l) = flat_map (fun x => f (g x)) l.
Proof.
  induction l as [|x l IH]; simpl; [reflexivity|].
  rewrite IH. reflexivity.
Qed.

Lemma forallb_map_comp {A B : Type} (f : B -> bool) (g : A -> B) l :
  forallb f (map g l) = forallb (fun x => f (g x)) l.
Proof.
  induction l as [|x l IH]; simpl; [reflexivity|]. rewrite IH. reflexivity.
Qed.

(** *** Positions *)

Lemma combine_seq_lookup (l : list record) k i r :
  In (i, r) (combine (seq k (length l)) l) ->
  (k <= i)%nat /\ l !! (i - k)%nat = Some r.
Proof.
  revert k. induction l as [|x l IH]; intros k; simpl; [tauto|].
  intros [H | H].
  - inversion H; subst. rewrite Nat.sub_diag. split; [lia | reflexivity].
  - destruct (IH _ H) as [Hk Hl]. split; [lia|].
    replace (i - k)%nat with (S (i - S k)) by lia. exact Hl.
Qed.

Lemma enumerate_lookup l i r :
  In (i, r) (enumerate l) -> l !! i = Some r.
Proof.
  intros H. destruct (combine_seq_lookup _ _ _ _ H) as [_ Hl].
  rewrite Nat.sub_0_r in Hl. exact Hl.
Qed.

Lemma map_snd_combine_seq (l : list record) k :
  map snd (combine (seq k (length l)) l) = l.
Proof.
  revert k. induction l as [|x l IH]; intros k; simpl; [reflexivity|].
  rewrite IH. reflexivity.
Qed.

Lemma map_snd_enumerate l : map snd (enumerate l) = l.
Proof. apply map_snd_combine_seq. Qed.

Lemma enumerate_In l i r : In (i, r) (enumerate l) -> In r l.
Proof.
  intros H. rewrite <- (map_snd_enumerate l).
  apply in_map_iff. exists (i, r). auto.
Qed.

(** *** The frame of pairs *)

Lemma dropna_side_rows f on keep :
  dropna (side_rows f on keep)
  = map (side_row_of on keep) (List.filter (keys_ok on) (enumerate (f_rows f))).
Proof. unfold dropna, side_rows. rewrite List.filter_map_swap. reflexivity. Qed.

Lemma exclude_seen_eq lk rk lc rc ls rs df :
  exclude_seen lk rk lc rc ls rs df
  = do cmps <- seen_columns lk rk lc rc ls rs;
    Ok (List.filter (not_seen cmps) df).
Proof.
  revert rs df. induction ls as [|bl ls IH]; intros rs df; simpl.
  - unfold not_seen; simpl. rewrite List.filter_true. reflexivity.
  - destruct rs as [|br rs]; [reflexivity|].
    destruct (compared_columns lk rk lc rc bl br) as [cmp|e]; simpl; [|reflexivity].
    destruct cmp as [|c cmp]; [reflexivity|].
    rewrite IH.
    destruct (seen_columns lk rk lc rc ls rs) as [rest|e]; simpl; [|reflexivity].
    rewrite filter_filter. reflexivity.
Qed.

Lemma merge_filtered lk rk on_l on_r cmps ea eb :
  List.filter (not_seen cmps)
    (merge lk rk (map (side_row_of on_l lk) ea) (map (side_row_of on_r rk) eb))
  = map (pair_of lk rk on_l on_r)
      (flat_map (fun a => map (pair a) (List.filter (pair_test lk rk on_l on_r cmps a) eb)) ea).
Proof.
  unfold merge. rewrite filter_flat_map, flat_map_map, map_flat_map.
  apply flat_map_ext. intros a.
  rewrite List.filter_map_swap. rewrite map_map. rewrite List.filter_map_swap.
  rewrite List.filter_map_swap, map_map, filter_filter. reflexivity.
Qed.

Lemma lookup_map {A B : Type} (f : A -> B) (l : list A) i :
  map f l !! i = option_map f (l !! i).
Proof.
  revert i. induction l as [|x l IH]; intros [|i]; simpl; auto.
Qed.

Lemma make_df_pairs ida idb ta tb l :
  Forall (positioned ta tb) l ->
  make_df (map (fun r => (col r ida, idx r)) ta)
          (map (fun r => (col r idb, idx r)) tb)
          (map code_of l)
  = Ok (map (fun q => Sql.select_row ida idb (snd (fst q)) (snd (snd q))) l).
Proof.
  induction 1 as [|q l [Ha Hb] _ IH]; simpl; [reflexivity|].
  rewrite !lookup_map, Ha, Hb; simpl. rewrite IH. reflexivity.
Qed.

Lemma link_pairs_positioned lk rk on_l on_r cmps ta tb :
  Forall (positioned ta tb) (link_pairs lk rk on_l on_r cmps ta tb).
Proof.
  apply List.Forall_forall. intros [[i ra] [j rb]] H.
  unfold link_pairs in H. apply in_flat_map in H.
  destruct H as (a & Ha & H). apply in_map_iff in H.
  destruct H as (b & Heq & Hb). inversion Heq; subst.
  apply filter_In in Ha. destruct Ha as [Ha _].
  apply filter_In in Hb. destruct Hb as [Hb _].
  apply filter_In in Hb. destruct Hb as [Hb _].
  split; simpl; eauto using enumerate_lookup.
Qed.

Lemma side_frame_eq f on keep n :
  side_frame f on keep n = do _ <- check_side f on keep n; Ok (side_rows f on keep).
Proof.
  unfold side_frame, check_side.
  destruct (negb (forallb (is_column f) (on ++ keep))); [reflexivity|].
  destruct (negb (Nat.eqb (length on) n)); reflexivity.
Qed.

(** [_link_index] in one piece: the checks on the two sides, the
    comparisons that the earlier blocks ask for, and the positions of the
    pairs of rows that pass the tests. *)
Lemma _link_index_eq on_l on_r ls rs da db :
  let lk := keep_of ls in
  let rk := keep_of rs in
  _link_index (mkCustomIndex on_l (Some on_r) ls (Some rs)) da db
  = do _ <- check_side da on_l lk (length on_l);
    do _ <- check_side db on_r rk (length on_l);
    do cmps <- seen_columns lk rk
                 (blocking_keys on_l ++ lk ++ ["index_x"])
                 (blocking_keys on_l ++ rk ++ ["index_y"]) ls rs;
    do la <- index_values da;
    do lb <- index_values db;
    Ok (mkMulti la lb
          (map code_of (link_pairs lk rk on_l on_r cmps (f_rows da) (f_rows db)))).
Proof.
  intros lk rk. unfold _link_index; simpl. fold lk rk.
  rewrite !side_frame_eq.
  destruct (check_side da on_l lk (length on_l)) as [[]|e]; simpl; [|reflexivity].
  destruct (check_side db on_r rk (length on_l)) as [[]|e]; simpl; [|reflexivity].
  rewrite exclude_seen_eq.
  destruct (seen_columns _ _ _ _ ls rs) as [cmps|e]; simpl; [|reflexivity].
  destruct (index_values da) as [la|e]; simpl; [|reflexivity].
  destruct (index_values db) as [lb|e]; simpl; [|reflexivity].
  rewrite !dropna_side_rows, merge_filtered, map_map.
  reflexivity.
Qed.

Lemma query_Ok vars f qf :
  query vars f = Ok qf ->
  vars <> [] /\ f_index qf = f_index f
  /\ f_rows qf = List.filter (non_empty_on vars) (f_rows f).
Proof.
  unfold query. destruct vars as [|v vars]; [discriminate|].
  intros H. inversion H; subst; simpl. repeat split. discriminate.
Qed.

Lemma not_blank v :
  is_some v = true -> negb (value_eqb v (Some EmptyString)) = true ->
  blank v = false.
Proof.
  destruct v as [s|]; simpl; [|discriminate].
  intros _ H. apply negb_true_iff in H. exact H.
Qed.

Lemma kept_not_blank vars r i :
  non_empty_on vars r = true -> keys_ok vars (i, r) = true ->
  forall v, In v vars -> blank (col r v) = false.
Proof.
  unfold non_empty_on, keys_ok; simpl. rewrite forallb_map_comp.
  rewrite !forallb_forall. intros H1 H2 v Hv.
  apply not_blank; auto.
Qed.

Lemma link_pairs_In lk rk on_l on_r cmps ta tb q :
  In q (link_pairs lk rk on_l on_r cmps ta tb) ->
  In (snd (fst q)) ta /\ In (snd (snd q)) tb
  /\ keys_ok on_l (fst q) = true /\ keys_ok on_r (snd q) = true
  /\ pair_test lk rk on_l on_r cmps (fst q) (snd q) = true.
Proof.
  unfold link_pairs. intros H. apply in_flat_map in H.
  destruct H as (a & Ha & H). apply in_map_iff in H.
  destruct H as (b & <- & Hb). simpl.
  apply filter_In in Ha. destruct Ha as [Ha Hka].
  apply filter_In in Hb. destruct Hb as [Hb Ht].
  apply filter_In in Hb. destruct Hb as [Hb Hkb].
  destruct a as [i ra], b as [j rb]; simpl.
  repeat split; eauto using enumerate_In.
Qed.

(** Every candidate of [find_block] pairs a row of side A with a row of
    side B (of side A itself in a deduplication), neither blank on the
    columns the pass blocks on. *)
Lemma find_block_sound da odb pa pb dedup pva pvb rows st' c :
  find_block da odb pa pb dedup pva pvb = Ok (rows, st') ->
  In c rows ->
  exists ida idb ra rb,
    c = Sql.select_row ida idb ra rb
    /\ In ra (f_rows da)
    /\ In rb (f_rows (if dedup then da else default da odb))
    /\ (forall v, In v pa -> blank (col ra v) = false)
    /\ (forall v, In v (if dedup then pa else pb) -> blank (col rb v) = false).
Proof.
  unfold find_block. intros H Hc. destruct dedup.
  - (* deduplication *)
    destruct (query pa da) as [qa|e] eqn:Eqa; simpl in H; [|discriminate].
    destruct (query_Ok _ _ _ Eqa) as (_ & Hix & Hrows).
    unfold index, _dedup_index in H.
    destruct (_verify_integrity qa) as [[]|e]; simpl in H; [|discriminate].
    change (_link_index (mkCustomIndex pa None pva None) qa qa)
      with (_link_index (mkCustomIndex pa (Some pa) pva (Some pva)) qa qa) in H.
    rewrite _link_index_eq in H.
    destruct (check_side qa pa (keep_of pva) (length pa)) as [[]|e];
      simpl in H; [|discriminate].
    destruct (seen_columns _ _ _ _ pva pva) as [cmps|e]; simpl in H; [|discriminate].
    unfold index_values in H.
    destruct (f_index qa) as [id|] eqn:Eid; simpl in H; [|discriminate].
    rewrite List.filter_map_swap in H.
    rewrite make_df_pairs in H.
    2:{ apply List.Forall_forall. intros q Hq. apply filter_In in Hq.
        destruct Hq as [Hq _]. revert q Hq. apply List.Forall_forall.
        apply link_pairs_positioned. }
    simpl in H. inversion H; subst; clear H.
    apply in_map_iff in Hc. destruct Hc as (q & <- & Hq).
    apply filter_In in Hq. destruct Hq as [Hq _].
    apply link_pairs_In in Hq. destruct Hq as (Ha & Hb & Hka & Hkb & _).
    rewrite Hrows in Ha, Hb. apply filter_In in Ha, Hb.
    destruct Ha as [Ha Hqa], Hb as [Hb Hqb].
    destruct q as [[i ra] [j rb]]; simpl in *.
    exists id, id, ra, rb. repeat split; eauto using kept_not_blank.
  - (* linking *)
    destruct (query pa da) as [qa|e] eqn:Eqa; simpl in H; [|discriminate].
    destruct odb as [db|]; [|discriminate].
    destruct (query pb db) as [qb|e] eqn:Eqb; simpl in H; [|discriminate].
    destruct (query_Ok _ _ _ Eqa) as (_ & Hixa & Hrowsa).
    destruct (query_Ok _ _ _ Eqb) as (_ & Hixb & Hrowsb).
    unfold index in H.
    destruct (_verify_integrity qa) as [[]|e]; simpl in H; [|discriminate].
    destruct (_verify_integrity qb) as [[]|e]; simpl in H; [|discriminate].
    rewrite _link_index_eq in H.
    destruct (check_side qa pa (keep_of pva) (length pa)) as [[]|e];
      simpl in H; [|discriminate].
    destruct (check_side qb pb (keep_of pvb) (length pa)) as [[]|e];
      simpl in H; [|discriminate].
    destruct (seen_columns _ _ _ _ pva pvb) as [cmps|e]; simpl in H; [|discriminate].
    unfold index_values in H.
    destruct (f_index qa) as [ida|] eqn:Eida; simpl in H; [|discriminate].
    destruct (f_index qb) as [idb|] eqn:Eidb; simpl in H; [|discriminate].
    rewrite make_df_pairs in H by apply link_pairs_positioned.
    simpl in H. inversion H; subst; clear H.
    apply in_map_iff in Hc. destruct Hc as (q & <- & Hq).
    apply link_pairs_In in Hq. destruct Hq as (Ha & Hb & Hka & Hkb & _).
    rewrite Hrowsa in Ha. rewrite Hrowsb in Hb. apply filter_In in Ha, Hb.
    destruct Ha as [Ha Hqa], Hb as [Hb Hqb].
    destruct q as [[i ra] [j rb]]; simpl in *.
    exists ida, idb, ra, rb. repeat split; eauto using kept_not_blank.
Qed.

End FrameFacts.

(** ** Empty-value exclusion *)

Lemma combine_firstn_In (pa pb : list string) cb :
  In cb (firstn (length pa) pb) -> exists ca, In (ca, cb) (combine pa pb).
Proof.
  revert pb. induction pa as [|a pa IH]; intros [|b pb]; simpl; try tauto.
  intros [<- | H]; [exists a; auto|].
  destruct (IH _ H) as (ca & Hca). exists ca. auto.
Qed.

Lemma combine_In_l (pa pb : list string) ca :
  (length pa <= length pb)%nat -> In ca pa -> exists cb, In (ca, cb) (combine pa pb).
Proof.
  revert pb. induction pa as [|a pa IH]; intros [|b pb]; simpl; try tauto; try lia.
  intros Hl [<- | H]; [exists b; auto|].
  destruct (IH pb ltac:(lia) H) as (cb & Hcb). exists cb. auto.
Qed.

(** Every row of [find_pass_candidates] pairs a row of [table_a] with a
    row of [table_b], neither blank on the columns of the pass. *)
Lemma find_pass_candidates_sound pa pb ida idb p ta tb dedup rows p' c :
  Sql.find_pass_candidates pa pb ida idb p ta tb dedup = Ok (rows, p') ->
  In c rows ->
  exists ra rb,
    c = Sql.select_row ida idb ra rb
    /\ In ra ta /\ In rb tb
    /\ (forall v, In v pa -> blank (col ra v) = false)
    /\ (forall v, In v (firstn (length pa) pb) -> blank (col rb v) = false).
Proof.
  intros H Hc. apply SqlFacts.find_pass_candidates_Ok in H.
  destruct H as (-> & _ & _ & Hlen).
  apply in_map_iff in Hc. destruct Hc as ([ra rb] & <- & Hq).
  apply SqlFacts.in_joined_rows in Hq. destruct Hq as (Ha & Hb & Ht).
  apply SqlFacts.eval_full_T in Ht. destruct Ht as (Hj & _ & _).
  apply SqlFacts.eval_join_T in Hj. rewrite List.Forall_forall in Hj.
  exists ra, rb. simpl. repeat split; auto.
  - intros v Hv. destruct (combine_In_l pa pb v Hlen Hv) as (cb & Hin).
    apply (SqlFacts.eval_conjunct_nonblank ra rb v cb (Hj _ Hin)).
  - intros v Hv. destruct (combine_firstn_In pa pb v Hv) as (ca & Hin).
    apply (SqlFacts.eval_conjunct_nonblank ra rb ca v (Hj _ Hin)).
Qed.

(** C6.  In either backend, a candidate pair of a pass is made of two rows
    that are neither empty nor null on any blocking column of the pass: the
    relational join requires it of the A-side value of each conjunct, which
    the B-side value equals; the in-memory index drops the rows holding an
    empty string ([query]) or NaN ([dropna]) before it merges.  Two rows
    that share an empty or null value therefore never pair. *)
Theorem blank_blocking_values_never_pair :
  forall (pa pb : list string) (dedup : bool) (c : candidate),
    (forall ida idb past ta tb rows past',
        Sql.find_pass_candidates pa pb ida idb past ta tb dedup = Ok (rows, past') ->
        In c rows ->
        exists ra rb,
          c = Sql.select_row ida idb ra rb
          /\ In ra ta /\ In rb tb
          /\ (forall v, In v pa -> blank (col ra v) = false)
          /\ (forall v, In v (firstn (length pa) pb) -> blank (col rb v) = false))
    /\
    (forall da odb prev_a prev_b rows st',
        Frame.find_block da odb pa pb dedup prev_a prev_b = Ok (rows, st') ->
        In c rows ->
        exists ida idb ra rb,
          c = Sql.select_row ida idb ra rb
          /\ In ra (Frame.f_rows da)
          /\ In rb (Frame.f_rows (if dedup then da else default da odb))
          /\ (forall v, In v pa -> blank (col ra v) = false)
          /\ (forall v, In v (if dedup then pa else pb) -> blank (col rb v) = false)).
Proof.
  intros pa pb dedup c. split.
  - intros ida idb past ta tb rows past' H Hc.
    eapply find_pass_candidates_sound; eauto.
  - intros da odb prev_a prev_b rows st' H Hc.
    eapply FrameFacts.find_block_sound; eauto.
Qed.

Lemma blank_blocking_values_never_pair_witness :
  let c := mkCandidate (Some "a1") (Some "b1") 0 0 in
  Sql.find_pass_candidates ["ssn"] ["ssn"] "id" "id" [] ex_a ex_b false
  = Ok (ssn_candidates, [[("ssn", "ssn")]])
  /\ Frame.find_block (frame_by_id ex_a) (Some (frame_by_id ex_b))
       ["ssn"] ["ssn"] false [] []
     = Ok (ssn_candidates, ([["ssn"]], [["ssn"]]))
  /\ In c ssn_candidates
  /\ (exists ra rb,
        c = Sql.select_row "id" "id" ra rb
        /\ In ra ex_a /\ In rb ex_b
        /\ (forall v, In v ["ssn"] -> blank (col ra v) = false)
        /\ (forall v, In v (firstn 1 ["ssn"]) -> blank (col rb v) = false))
  /\ (exists ida idb ra rb,
        c = Sql.select_row ida idb ra rb
        /\ In ra ex_a /\ In rb ex_b
        /\ (forall v, In v ["ssn"] -> blank (col ra v) = false)
        /\ (forall v, In v ["ssn"] -> blank (col rb v) = false)).
Proof.
  intros c.
  assert (Hs : Sql.find_pass_candidates ["ssn"] ["ssn"] "id" "id" [] ex_a ex_b false
               = Ok (ssn_candidates, [[("ssn", "ssn")]]))
    by (vm_compute; reflexivity).
  assert (Hm : Frame.find_block (frame_by_id ex_a) (Some (frame_by_id ex_b))
                 ["ssn"] ["ssn"] false [] []
               = Ok (ssn_candidates, ([["ssn"]], [["ssn"]])))
    by (vm_compute; reflexivity).
  assert (Hc : In c ssn_candidates) by (left; reflexivity).
  destruct (blank_blocking_values_never_pair ["ssn"] ["ssn"] false c)
    as [Hsql Hmem].
  split; [exact Hs|]. split; [exact Hm|]. split; [exact Hc|]. split.
  - exact (Hsql _ _ _ _ _ _ _ Hs Hc).
  - exact (Hmem _ _ _ _ _ _ Hm Hc).
Defined.

(** ** The dispatcher *)

Lemma chunks_read_app l1 l2 :
  chunks_read (l1 ++ l2) = chunks_read l1 ++ chunks_read l2.
Proof. unfold chunks_read. apply omap_app. Qed.

Lemma on_chunk_chunks_read n pn st c :
  chunks_read (log (on_chunk n pn st c)) = chunks_read (log st) ++ [(c, pn)].
Proof.
  unfold on_chunk, threshold_reached, submit. cbn [log all_cands].
  destruct (Nat.eqb _ _); cbn [log]; rewrite !chunks_read_app;
    change (chunks_read [ChunkRead pn c]) with [(c, pn)]; [|reflexivity].
  match goal with
  | |- context [chunks_read [?e]] => change (chunks_read [e]) with (@nil tagged)
  end.
  apply app_nil_r.
Qed.

Lemma on_csv_chunk_chunks_read n pn st c :
  chunks_read (log (on_csv_chunk n pn st c)) = chunks_read (log st) ++ [(c, pn)].
Proof.
  unfold on_csv_chunk, threshold_reached, submit. cbn [log all_cands].
  destruct (Nat.eqb _ _); cbn [log]; rewrite !chunks_read_app;
    change (chunks_read [ChunkRead pn c]) with [(c, pn)]; [|reflexivity].
  match goal with
  | |- context [chunks_read [?e]] => change (chunks_read [e]) with (@nil tagged)
  end.
  apply app_nil_r.
Qed.

Lemma fold_chunks_read (f : run_state -> chunk -> run_state) pn chunks st :
  (forall st c, chunks_read (log (f st c)) = chunks_read (log st) ++ [(c, pn)]) ->
  chunks_read (log (fold_left f chunks st))
  = chunks_read (log st) ++ map (fun c => (c, pn)) chunks.
Proof.
  intros H. revert st. induction chunks as [|c chunks IH]; intros st; simpl.
  - symmetry. apply app_nil_r.
  - rewrite IH, H, <- app_assoc. reflexivity.
Qed.

Lemma fold_on_chunk_past n pn chunks st :
  past (fold_left (on_chunk n pn) chunks st) = past st.
Proof.
  revert st. induction chunks as [|c chunks IH]; intros st; simpl; [reflexivity|].
  rewrite IH. unfold on_chunk, submit. destruct (threshold_reached _ _); reflexivity.
Qed.

Lemma fold_on_chunk_wld n pn chunks st :
  wld (fold_left (on_chunk n pn) chunks st) = wld st.
Proof.
  revert st. induction chunks as [|c chunks IH]; intros st; simpl; [reflexivity|].
  rewrite IH. unfold on_chunk, submit. destruct (threshold_reached _ _); reflexivity.
Qed.

Lemma fold_on_csv_chunk_state n pn chunks st :
  past (fold_left (on_csv_chunk n pn) chunks st) = past st
  /\ wld (fold_left (on_csv_chunk n pn) chunks st) = wld st.
Proof.
  revert st. induction chunks as [|c chunks IH]; intros st; simpl; [auto|].
  destruct (IH (on_csv_chunk n pn st c)) as [-> ->].
  unfold on_csv_chunk, submit. destruct (threshold_reached _ _); auto.
Qed.

Module DispatcherFacts.
Import Dispatcher.

Section Threshold.

Variable n : nat.
Hypothesis n_pos : (1 <= n)%nat.

Lemma pending_snoc l e : pending (l ++ [e]) = replay (pending l) e.
Proof. unfold pending. rewrite fold_left_app. reflexivity. Qed.

Lemma snoc_split {A : Type} (l : list A) e pre post :
  l ++ [e] = pre ++ post ->
  (post = [] /\ pre = l ++ [e])
  \/ (exists post', post = post' ++ [e] /\ l = pre ++ post').
Proof.
  destruct post as [|x post] using rev_ind.
  - rewrite app_nil_r. intros <-. left. auto.
  - rewrite app_assoc. intros H. apply app_inj_tail in H.
    destruct H as [-> ->]. right. exists post. auto.
Qed.

Lemma chunks_read_snoc l e :
  chunks_read (l ++ [e]) = chunks_read l ++ chunks_read [e].
Proof. unfold chunks_read. apply omap_app. Qed.

Lemma submitted_snoc l e :
  submitted (l ++ [e]) = submitted l ++ submitted [e].
Proof. unfold submitted. apply omap_app. Qed.

Lemma loop_ok_nil : loop_ok n [].
Proof.
  split.
  - intros pre post H. symmetry in H. apply app_eq_nil in H.
    destruct H as [-> _]. simpl. lia.
  - intros pre i b post H. symmetry in H. apply app_eq_nil in H.
    destruct H as [_ H]. discriminate.
  - intros pre post H. symmetry in H. apply app_eq_nil in H.
    destruct H as [-> _]. simpl. lia.
  - reflexivity.
Qed.

(** Appending one event that is not a submission, while the batch stays
    below the threshold. *)
Lemma loop_ok_snoc l e :
  loop_ok n l ->
  (length (pending l) < 2 * n)%nat ->
  (forall i b, e <> Submit i b) ->
  (length (replay (pending l) e) < 2 * n)%nat ->
  loop_ok n (l ++ [e]).
Proof.
  intros [Hb Hs Hp Ha] Hlt He Hlt'. split.
  - intros pre post H. apply snoc_split in H.
    destruct H as [[-> ->] | (post' & -> & ->)].
    + rewrite pending_snoc. lia.
    + eapply Hb. reflexivity.
  - intros pre i b post H.
    destruct post as [|x post] using rev_ind.
    + apply app_inj_tail in H. destruct H as [_ H].
      exfalso. eapply He. exact H.
    + clear IHpost.
      change (pre ++ Submit i b :: post ++ [x])
        with (pre ++ (Submit i b :: post) ++ [x]) in H.
      rewrite app_assoc in H. apply app_inj_tail in H. destruct H as [-> ->].
      eapply Hs. reflexivity.
  - intros pre post H Hlen. apply snoc_split in H.
    destruct H as [[-> ->] | (post' & -> & ->)].
    + rewrite pending_snoc in Hlen. lia.
    + destruct (Hp pre post' eq_refl Hlen) as (i & post'' & ->).
      exists i, (post'' ++ [e]). reflexivity.
  - rewrite submitted_snoc, chunks_read_snoc, pending_snoc, List.filter_app.
    rewrite <- Ha. destruct e as [g | g r w | p | p [|x c] | i b]; simpl;
      rewrite ?app_nil_r; try reflexivity.
    + rewrite app_assoc. reflexivity.
    + exfalso. eapply He. reflexivity.
Qed.

(** Appending the chunk that fills the batch together with the
    submission that follows it. *)
Lemma loop_ok_fill l p c i :
  loop_ok n l ->
  (length (pending l) < 2 * n)%nat ->
  length (replay (pending l) (ChunkRead p c)) = (2 * n)%nat ->
  loop_ok n (l ++ [ChunkRead p c] ++ [Submit i (replay (pending l) (ChunkRead p c))]).
Proof.
  intros [Hb Hs Hp Ha] Hlt Hfull. rewrite app_assoc. split.
  - intros pre post H. apply snoc_split in H.
    destruct H as [[-> ->] | (post' & -> & H)].
    + rewrite pending_snoc. simpl. lia.
    + apply snoc_split in H. destruct H as [[-> ->] | (post'' & -> & ->)].
      * rewrite pending_snoc. lia.
      * eapply Hb. reflexivity.
  - intros pre j b post H.
    destruct post as [|x post] using rev_ind.
    + apply app_inj_tail in H. destruct H as [<- H]. inversion H; subst.
      rewrite pending_snoc. auto.
    + clear IHpost.
      change (pre ++ Submit j b :: post ++ [x])
        with (pre ++ (Submit j b :: post) ++ [x]) in H.
      rewrite app_assoc in H. apply app_inj_tail in H. destruct H as [H _].
      destruct post as [|y post] using rev_ind.
      * apply app_inj_tail in H. destruct H as [_ H]. discriminate.
      * clear IHpost.
        change (pre ++ Submit j b :: post ++ [y])
          with (pre ++ (Submit j b :: post) ++ [y]) in H.
        rewrite app_assoc in H. apply app_inj_tail in H. destruct H as [-> _].
        eapply Hs. reflexivity.
  - intros pre post H Hlen. apply snoc_split in H.
    destruct H as [[-> ->] | (post' & -> & H)].
    + rewrite pending_snoc in Hlen. simpl in Hlen. lia.
    + apply snoc_split in H. destruct H as [[-> ->] | (post'' & -> & El)].
      * rewrite pending_snoc. exists i, []. reflexivity.
      * destruct (Hp pre post'' El Hlen) as (k & post3 & ->).
        exists k, ((post3 ++ [ChunkRead p c])
                     ++ [Submit i (replay (pending l) (ChunkRead p c))]).
        reflexivity.
  - rewrite !submitted_snoc, !chunks_read_snoc, !pending_snoc, !List.filter_app.
    simpl. rewrite !app_nil_r, concat_app. simpl. rewrite app_nil_r.
    rewrite <- Ha. destruct c as [|x c]; simpl.
    + rewrite app_nil_r. reflexivity.
    + rewrite app_assoc. reflexivity.
Qed.

Lemma pending_quiet l es :
  Forall quiet es -> pending (l ++ es) = pending l.
Proof.
  intros H. unfold pending. rewrite fold_left_app. generalize (fold_left replay l []).
  induction H as [|e es He _ IH]; intros acc; simpl; [reflexivity|].
  rewrite IH. destruct e; simpl in *; tauto.
Qed.

Lemma loop_ok_quiet l es :
  loop_ok n l -> (length (pending l) < 2 * n)%nat -> Forall quiet es ->
  loop_ok n (l ++ es).
Proof.
  intros Hl Hlt Hq. revert l Hl Hlt.
  induction Hq as [|e es He _ IH]; intros l Hl Hlt.
  - rewrite app_nil_r. exact Hl.
  - change (l ++ e :: es) with (l ++ [e] ++ es). rewrite app_assoc.
    assert (Hr : replay (pending l) e = pending l)
      by (destruct e; simpl in *; tauto).
    apply IH.
    + apply loop_ok_snoc; auto.
      * intros i b ->. exact He.
      * rewrite Hr. exact Hlt.
    + rewrite pending_snoc, Hr. exact Hlt.
Qed.

Lemma on_chunk_inv (p : string) (st : run_state) (c : chunk) :
  c <> [] -> inv n st -> inv n (on_chunk n p st c).
Proof.
  intros Hc (Hp & Hlt & Hok). unfold inv, on_chunk, threshold_reached; simpl.
  match goal with
  | |- context [Nat.eqb (length ?b) _] =>
      assert (Hr : replay (pending (log st)) (ChunkRead p c) = b)
        by (rewrite <- Hp; destruct c; [contradiction | reflexivity])
  end.
  match goal with
  | |- context [Nat.eqb ?a ?b] => destruct (Nat.eqb_spec a b) as [Heq | Hne]
  end.
  - unfold submit; simpl. split; [|split].
    + rewrite pending_snoc. reflexivity.
    + lia.
    + rewrite <- app_assoc, <- Hr.
      apply loop_ok_fill; [exact Hok | rewrite <- Hp; exact Hlt | rewrite Hr; lia].
  - rewrite length_app in Hne. simpl in Hne. split; [|split]; simpl.
    + rewrite pending_snoc, Hr. reflexivity.
    + rewrite length_app. simpl. lia.
    + apply loop_ok_snoc;
        [exact Hok | rewrite <- Hp; exact Hlt | discriminate
        | rewrite Hr, length_app; simpl; lia].
Qed.

Lemma on_csv_chunk_inv (p : string) (st : run_state) (c : chunk) :
  inv n st -> inv n (on_csv_chunk n p st c).
Proof.
  intros Hinv. destruct c as [|x c].
  - destruct Hinv as (Hp & Hlt & Hok).
    unfold inv, on_csv_chunk, threshold_reached; simpl.
    destruct (Nat.eqb_spec (length (all_cands st)) (n * 2)) as [Heq | _]; [lia|].
    simpl. split; [|split].
    + rewrite pending_snoc. exact Hp.
    + exact Hlt.
    + apply loop_ok_snoc;
        [exact Hok | rewrite <- Hp; exact Hlt | discriminate
        | simpl; rewrite <- Hp; exact Hlt].
  - change (on_csv_chunk n p st (x :: c)) with (on_chunk n p st (x :: c)).
    apply on_chunk_inv; [discriminate | exact Hinv].
Qed.

Lemma fold_on_chunk_inv p chunks st :
  Forall (fun c : chunk => c <> []) chunks -> inv n st ->
  inv n (fold_left (on_chunk n p) chunks st).
Proof.
  intros H. revert st. induction H as [|c chunks Hc _ IH]; intros st Hinv; simpl.
  - exact Hinv.
  - apply IH. apply on_chunk_inv; assumption.
Qed.

Lemma fold_on_csv_chunk_inv p chunks st :
  inv n st -> inv n (fold_left (on_csv_chunk n p) chunks st).
Proof.
  revert st. induction chunks as [|c chunks IH]; intros st Hinv; simpl.
  - exact Hinv.
  - apply IH. apply on_csv_chunk_inv. exact Hinv.
Qed.

Lemma inv_quiet st x y z es :
  Forall quiet es -> inv n st ->
  inv n (mkRun x y (all_cands st) z (log st ++ es)).
Proof.
  intros Hq (Hp & Hlt & Hok). unfold inv; simpl. split; [|split].
  - rewrite pending_quiet by exact Hq. exact Hp.
  - exact Hlt.
  - apply loop_ok_quiet; [exact Hok | rewrite <- Hp; exact Hlt | exact Hq].
Qed.

End Threshold.

Lemma fetch_chunks_non_empty bound size rows :
  Forall (fun c : chunk => c <> []) (fetch_chunks bound size rows).
Proof.
  revert rows. induction bound as [|b IH]; intros rows; simpl; [constructor|].
  destruct (firstn size rows) as [|x c] eqn:E; constructor.
  - discriminate.
  - apply IH.
Qed.

(** The bound on the recursion is enough: with a chunk size of at least 1
    every row is fetched. *)
Lemma fetch_chunks_all bound size rows :
  (1 <= size)%nat -> (length rows <= bound)%nat ->
  concat (fetch_chunks bound size rows) = rows.
Proof.
  intros Hs. revert rows. induction bound as [|b IH]; intros rows Hb; simpl.
  - destruct rows; [reflexivity | simpl in Hb; lia].
  - destruct (firstn size rows) as [|x c] eqn:E.
    + destruct rows as [|r rows]; [reflexivity|].
      destruct size; [lia | discriminate].
    + simpl. rewrite IH.
      * change (x :: c ++ skipn size rows) with ((x :: c) ++ skipn size rows).
        rewrite <- E. apply firstn_skipn.
      * rewrite length_skipn. destruct rows; [destruct size; discriminate|].
        simpl in *. lia.
Qed.

Section Run.

Variable cfg : config.
Hypothesis pool : (1 <= num_processes cfg)%nat.

Lemma process_pass_inv st pass_name st' :
  process_pass cfg st pass_name = Ok st' ->
  inv (num_processes cfg) st -> inv (num_processes cfg) st'.
Proof.
  unfold process_pass. intros H Hinv.
  destruct (pass_number pass_name) as [passnum|e]; simpl in H; [|discriminate].
  destruct (run_blocking_pass _ _ _ _ _ _ _ _ _) as [r|e]; simpl in H; [|discriminate].
  assert (Hinv1 : inv (num_processes cfg)
                    (mkRun (fst r) (snd r) (all_cands st) (shard st)
                           (log st ++ [BlockingPass pass_name]))).
  { apply inv_quiet; [exact pool | repeat constructor | exact Hinv]. }
  destruct (conn cfg).
  - destruct (listed (tables (snd r)) (cand_table cfg pass_name)) as [rows|];
      [|inversion H; subst; exact Hinv1].
    destruct (getitem (chunk_sizes cfg) (pretty passnum)) as [size|e];
      simpl in H; [|discriminate].
    inversion H; subst; clear H.
    apply (fold_on_chunk_inv (num_processes cfg) pool pass_name
             (fetchmany_all size rows) _ (fetch_chunks_non_empty _ _ _) Hinv1).
  - destruct (getitem (chunk_sizes cfg) (pretty passnum)) as [size|e];
      simpl in H; [|discriminate].
    destruct (read_csv _ _ size) as [chunks|e]; simpl in H; [|discriminate].
    inversion H; subst; clear H.
    apply fold_on_csv_chunk_inv; [exact pool | exact Hinv1].
Qed.

Lemma pass_loop_inv names st st' :
  pass_loop cfg names st = Ok st' ->
  inv (num_processes cfg) st -> inv (num_processes cfg) st'.
Proof.
  revert st. induction names as [|p names IH]; intros st H Hinv; simpl in H.
  - inversion H; subst. exact Hinv.
  - destruct (process_pass cfg st p) as [st1|e] eqn:E; simpl in H; [|discriminate].
    eapply IH; [exact H|]. eapply process_pass_inv; eauto.
Qed.

Lemma ground_truth_results_quiet w : Forall quiet (ground_truth_results cfg w).
Proof.
  unfold ground_truth_results. apply List.Forall_forall. intros e He.
  apply in_map_iff in He. destruct He as (g & <- & _). exact I.
Qed.

Lemma ground_truth_stage_inv st st' :
  ground_truth_stage cfg st = Ok st' ->
  inv (num_processes cfg) st -> inv (num_processes cfg) st'.
Proof.
  unfold ground_truth_stage. intros H Hinv.
  destruct (ground_truth_ids cfg) as [|g gids]; [inversion H; subst; exact Hinv|].
  destruct (conn cfg); [|discriminate].
  destruct (run_ground_truth_ids_passes _ _ _ _ _ _ _) as [r|e];
    simpl in H; [|discriminate].
  inversion H; subst; clear H.
  apply inv_quiet; [exact pool | | exact Hinv].
  constructor; [exact I | apply ground_truth_results_quiet].
Qed.

End Run.
Lemma inv_init (n : nat) x y z :
  (1 <= n)%nat -> inv n (mkRun x y [] z []).
Proof.
  intros Hn. unfold inv; simpl. split; [reflexivity|].
  split; [lia | apply loop_ok_nil; try exact Hn].
Qed.

Lemma submit_rest_ok (n : nat) st :
  (1 <= n)%nat -> inv n st -> batches_ok n (submit_rest st).
Proof.
  intros Hn (Hp & Hlt & [Hb Hs Hpr Ha]). unfold submit_rest.
  destruct (all_cands st) as [|x xs] eqn:Eall.
  - split.
    + exact Hb.
    + intros pre i b post H. destruct (Hs _ _ _ _ H) as [-> Hlen].
      repeat split; auto. intros E. rewrite E in Hlen. simpl in Hlen. lia.
    + exact Hpr.
    + rewrite Eall, <- Hp. auto.
    + rewrite <- Ha, <- Hp, app_nil_r. reflexivity.
  - split; simpl.
    + intros pre post H. apply snoc_split in H.
      destruct H as [[-> ->] | (post' & -> & El)].
      * rewrite pending_snoc. simpl. lia.
      * eapply Hb. exact El.
    + intros pre i b post H.
      destruct post as [|y post] using rev_ind.
      * apply app_inj_tail in H. destruct H as [<- H]. inversion H; subst.
        rewrite <- Hp. split; [reflexivity|]. split; [discriminate | auto].
      * clear IHpost.
        change (pre ++ Submit i b :: post ++ [y])
          with (pre ++ (Submit i b :: post) ++ [y]) in H.
        rewrite app_assoc in H. apply app_inj_tail in H. destruct H as [H _].
        destruct (Hs _ _ _ _ H) as [-> Hlen].
        repeat split; auto. intros E. rewrite E in Hlen. simpl in Hlen. lia.
    + intros pre post H Hlen. apply snoc_split in H.
      destruct H as [[-> ->] | (post' & -> & El)].
      * rewrite pending_snoc in Hlen. simpl in Hlen. lia.
      * destruct (Hpr pre post' El Hlen) as (k & post'' & ->).
        exists k, (post'' ++ [Submit (shard st) (x :: xs)]). reflexivity.
    + split; [reflexivity | rewrite pending_snoc; reflexivity].
    + rewrite submitted_snoc, chunks_read_snoc. simpl.
      rewrite concat_app, app_nil_r. simpl. rewrite app_nil_r.
      rewrite <- Ha, <- Hp. reflexivity.
Qed.

End DispatcherFacts.

(** An iteration of the pass loop records as read the chunks that the
    reader of the pass yields, and keeps the state of the pass and the store
    that the reader leaves. *)
Lemma process_pass_yields cfg st pn st' :
  process_pass cfg st pn = Ok st' ->
  exists n r y,
    pass_number pn = Ok n
    /\ run_blocking_pass (blocks_by_pass cfg) pn (vars_a cfg) (vars_b cfg)
         (name_a cfg) (name_b cfg) (past st) (conn cfg) (wld st) = Ok r
    /\ Dispatcher.yield cfg (snd r) pn n = Ok y
    /\ past st' = fst r /\ wld st' = snd y
    /\ chunks_read (log st') = chunks_read (log st) ++ map (fun c => (c, pn)) (fst y).
Proof.
  unfold process_pass. intros H.
  destruct (pass_number pn) as [n|e]; simpl in H; [|discriminate].
  destruct (run_blocking_pass _ _ _ _ _ _ _ _ _) as [r|e]; simpl in H; [|discriminate].
  exists n, r. unfold Dispatcher.yield. destruct (conn cfg).
  - destruct (listed (tables (snd r)) (cand_table cfg pn)) as [rows|].
    + destruct (getitem (chunk_sizes cfg) (pretty n)) as [size|e];
        simpl in H; [|discriminate].
      inversion H; subst; clear H. eexists. split; [reflexivity|].
      split; [reflexivity|]. split; [reflexivity|]. cbn [past wld log fst snd].
      rewrite fold_on_chunk_past, fold_on_chunk_wld. cbn [past wld].
      split; [reflexivity|]. split; [reflexivity|].
      rewrite (fold_chunks_read _ pn) by apply on_chunk_chunks_read.
      cbn [log]. rewrite chunks_read_app. simpl. rewrite app_nil_r. reflexivity.
    + inversion H; subst; clear H. eexists. split; [reflexivity|].
      split; [reflexivity|]. split; [reflexivity|]. cbn [past wld log fst snd].
      split; [reflexivity|]. split; [reflexivity|].
      rewrite chunks_read_app. reflexivity.
  - destruct (getitem (chunk_sizes cfg) (pretty n)) as [size|e];
      simpl in H; [|discriminate].
    cbn [wld] in H. cbn [rbind].
    destruct (read_csv (files (snd r)) _ size) as [chunks|e]; simpl in H; [|discriminate].
    inversion H; subst; clear H. eexists. split; [reflexivity|].
    split; [reflexivity|]. split; [reflexivity|]. cbn [rbind fst snd].
    match goal with
    | |- context [fold_left _ chunks ?s0] =>
        destruct (fold_on_csv_chunk_state (num_processes cfg) pn chunks s0) as [-> ->]
    end.
    cbn [past wld]. split; [reflexivity|]. split; [reflexivity|].
    rewrite (fold_chunks_read _ pn) by apply on_csv_chunk_chunks_read.
    cbn [log]. rewrite chunks_read_app. simpl. rewrite app_nil_r. reflexivity.
Qed.

Lemma pass_loop_yields cfg names st st' :
  pass_loop cfg names st = Ok st' ->
  exists ys,
    Dispatcher.yielded cfg names (past st) (wld st) = Ok ys
    /\ chunks_read (log st') = chunks_read (log st) ++ ys.
Proof.
  revert st. induction names as [|pn names IH]; intros st H; simpl in H.
  - inversion H; subst. exists []. split; [reflexivity|].
    symmetry. apply app_nil_r.
  - destruct (process_pass cfg st pn) as [st1|e] eqn:E; simpl in H; [|discriminate].
    destruct (process_pass_yields cfg st pn st1 E)
      as (n & r & y & Hn & Hr & Hy & Hp & Hw & Hc).
    destruct (IH st1 H) as (ys & Hys & Hc').
    rewrite Hp, Hw in Hys. simpl. rewrite Hn. cbn [rbind]. rewrite Hr. cbn [rbind].
    rewrite Hy. cbn [rbind]. rewrite Hys. cbn [rbind].
    eexists. split; [reflexivity|]. rewrite Hc', Hc, <- app_assoc. reflexivity.
Qed.

Lemma ground_truth_results_read_nothing cfg w :
  chunks_read (ground_truth_results cfg w) = [].
Proof.
  unfold ground_truth_results.
  induction (ground_truth_ids cfg) as [|g gs IH]; [reflexivity | exact IH].
Qed.

Lemma ground_truth_stage_reads_nothing cfg st st' :
  ground_truth_stage cfg st = Ok st' -> chunks_read (log st') = chunks_read (log st).
Proof.
  unfold ground_truth_stage. intros H.
  destruct (ground_truth_ids cfg) as [|g gids] eqn:Eg; [inversion H; reflexivity|].
  destruct (conn cfg); [|discriminate].
  destruct (run_ground_truth_ids_passes _ _ _ _ _ _ _) as [r|e];
    simpl in H; [|discriminate].
  inversion H; subst; clear H. cbn [log].
  rewrite !chunks_read_app. simpl.
  rewrite ground_truth_results_read_nothing, app_nil_r. reflexivity.
Qed.

(** C8.  In a run that ends, the pending batch never holds more than
    [2 * num_processes] chunks; every submission is of the whole pending
    batch, which is not empty and holds exactly [2 * num_processes] chunks
    unless it is the trailing submission that ends the log; the batch is
    submitted as soon as it reaches that size; nothing is left pending at the
    end; and the submitted batches, in order, are exactly the chunks read
    that hold a row, each once (a CSV file without rows is read as one empty
    chunk, which holds nothing to score and joins no batch).  The chunks read
    are all the chunks that the cursors and the CSV readers of the passes
    yield, each once and in the order in which they are yielded. *)
Theorem dispatcher_batches cfg data_a data_b tables0 files0 st :
  main cfg data_a data_b tables0 files0 = Ok st ->
  Dispatcher.batches_ok (num_processes cfg) st
  /\ Dispatcher.reads_all cfg data_a data_b tables0 files0 st.
Proof.
  unfold main. intros H. fold (Dispatcher.initial cfg data_a data_b tables0 files0) in H.
  destruct (ground_truth_stage cfg _) as [st1|e] eqn:E1; simpl in H; [|discriminate].
  destruct (num_processes cfg) as [|k] eqn:En; [discriminate|].
  destruct (pass_loop cfg (passes cfg) st1) as [st2|e] eqn:E2; simpl in H; [|discriminate].
  inversion H; subst; clear H.
  assert (Hn : (1 <= num_processes cfg)%nat) by lia. split.
  - rewrite <- En. apply DispatcherFacts.submit_rest_ok; [exact Hn|].
    eapply DispatcherFacts.pass_loop_inv; [exact Hn | exact E2 |].
    eapply DispatcherFacts.ground_truth_stage_inv; [exact Hn | exact E1 |].
    apply DispatcherFacts.inv_init. exact Hn.
  - exists st1. split; [exact E1|].
    destruct (pass_loop_yields cfg (passes cfg) st1 st2 E2) as (ys & Hys & Hc).
    rewrite Hys. f_equal.
    rewrite (ground_truth_stage_reads_nothing cfg _ _ E1) in Hc. simpl in Hc.
    unfold submit_rest. destruct (all_cands st2); [symmetry; exact Hc|].
    cbn [log]. rewrite chunks_read_app, Hc. simpl. rewrite app_nil_r. reflexivity.
Qed.

Lemma dispatcher_batches_witness :
  main two_chunk_config ex_a ex_b ∅ ∅
  = Ok (state_of (main two_chunk_config ex_a ex_b ∅ ∅))
  /\ Dispatcher.batches_ok (num_processes two_chunk_config)
       (state_of (main two_chunk_config ex_a ex_b ∅ ∅))
  /\ Dispatcher.reads_all two_chunk_config ex_a ex_b ∅ ∅
       (state_of (main two_chunk_config ex_a ex_b ∅ ∅)).
Proof.
  split; [vm_compute; reflexivity|].
  apply (dispatcher_batches two_chunk_config ex_a ex_b ∅ ∅).
  vm_compute. reflexivity.
Defined.

(** The five candidates of the example are yielded in three chunks of at
    most two rows and submitted in two batches, the first of two chunks. *)
Example dispatcher_reads_and_submits :
  let l := log_of (main two_chunk_config ex_a ex_b ∅ ∅) in
  map (fun t => length (fst t)) (chunks_read l) = [2; 2; 1]%nat
  /\ map (@length tagged) (submitted l) = [2; 1]%nat
  /\ concat (map fst (concat (submitted l))) = ssn_candidates.
Proof. vm_compute. repeat split; reflexivity. Qed.

(** ** Ground-truth passes without a connection *)

(** C10.  With a ground-truth identifier configured and no relational
    store, the run raises [AttributeError] at [conn.cursor()], whatever the
    data, the tables and the files: no ground-truth candidate is generated
    and no numbered pass is started. *)
Theorem ground_truth_needs_connection cfg data_a data_b tables0 files0 :
  ground_truth_ids cfg <> [] ->
  database_information cfg = false ->
  main cfg data_a data_b tables0 files0 = Raise AttributeError.
Proof.
  intros Hg Hdb. unfold main, ground_truth_stage, conn.
  destruct (ground_truth_ids cfg) as [|g gids]; [contradiction|].
  rewrite Hdb. reflexivity.
Qed.

Lemma ground_truth_needs_connection_witness :
  ground_truth_ids (link_config false [("1", ["ssn"])] ["ssn"]) <> []
  /\ database_information (link_config false [("1", ["ssn"])] ["ssn"]) = false
  /\ main (link_config false [("1", ["ssn"])] ["ssn"]) ex_a ex_b ∅ ∅
     = Raise AttributeError.
Proof.
  split; [discriminate|]. split; [reflexivity|].
  apply ground_truth_needs_connection; [discriminate | reflexivity].
Defined.

(** With a connection the same configuration runs its ground-truth pass
    before the numbered pass. *)
Example ground_truth_with_connection :
  map (fun e => match e with
                | GroundTruthPasses g => "ground truth"
                | GroundTruthResult g _ _ => "result " +:+ g
                | BlockingPass p => "pass " +:+ p
                | ChunkRead p _ => "chunk " +:+ p
                | Submit _ _ => "submit"
                end)
      (log_of (main (link_config true [("1", ["ssn"])] ["ssn"]) ex_a ex_b ∅ ∅))
  = ["ground truth"; "result ssn"; "pass 1"].
Proof. vm_compute. reflexivity. Qed.

(** ** Dedup safety *)

(** In a deduplication the relational join keeps a pair of rows only if
    the ordinal of the first comes before that of the second in the order of
    the column [idx] and the identifiers are known and different. *)
Lemma find_pass_candidates_dedup pa pb ida idb p ta tb rows p' c :
  Sql.find_pass_candidates pa pb ida idb p ta tb true = Ok (rows, p') ->
  In c rows ->
  exists ra rb,
    In ra ta /\ In rb tb /\ c = Sql.select_row ida idb ra rb
    /\ Sql.idx_lt ra rb = true
    /\ exists s t, indv_id_a c = Some s /\ indv_id_b c = Some t /\ s <> t.
Proof.
  intros H Hc. apply SqlFacts.find_pass_candidates_Ok in H.
  destruct H as (-> & _ & _ & _).
  apply in_map_iff in Hc. destruct Hc as ([ra rb] & <- & Hq).
  apply SqlFacts.in_joined_rows in Hq. destruct Hq as (Ha & Hb & Ht).
  apply SqlFacts.eval_full_T in Ht. destruct Ht as (_ & _ & Hd).
  unfold Sql.eval_dedup in Hd. apply SqlFacts.tv_and_T in Hd.
  destruct Hd as [Hlt Hne]. simpl in *.
  exists ra, rb. split; [exact Ha|]. split; [exact Hb|]. split; [reflexivity|].
  split.
  - unfold Sql.of_bool in Hlt. destruct (Sql.idx_lt ra rb); [reflexivity | discriminate].
  - unfold Sql.sql_ne, Sql.sql_eq, Sql.of_bool in Hne.
    destruct (col ra ida) as [s|], (col rb idb) as [t|]; try discriminate.
    exists s, t. repeat split.
    destruct (String.eqb_spec s t); [discriminate | assumption].
Qed.

(** C3.  A deduplication without a relational store pairs the two rows of
    [twin_rows]: the candidate has the same identifier on both sides, and
    the ordinal of side A is the greater one.  [find_block] relies on the
    index of the library, which keeps the pairs below the diagonal and
    never looks at the identifiers. *)
Theorem in_memory_dedup_pairs_twins :
  chunks_of_pass "1" (log_of (main dedup_file_config twin_rows [] ∅ ∅))
  = [mkCandidate (Some "x") (Some "x") 1 0].
Proof. vm_compute. reflexivity. Qed.

(** The relational store leaves the same rows unpaired. *)
Example relational_dedup_skips_twins :
  chunks_of_pass "1"
    (log_of (main (mkConfig "dedup" "a" "b" same_vars same_vars true []
                            (list_to_map [("1", ["ssn"])])
                            (list_to_map [("1", 9%nat)]) 1)
                  twin_rows [] ∅ ∅))
  = [].
Proof. vm_compute. reflexivity. Qed.

(** Whichever triangle the library kept, the twins would pair: the
    identifiers are not compared. *)
Remark link_index_pairs_twins_both_ways :
  (do pairs <- Frame._link_index (Frame.mkCustomIndex ["ssn"] None [] None)
                 (frame_by_id twin_rows) (frame_by_id twin_rows);
   Frame.make_df (Frame.levels_a pairs) (Frame.levels_b pairs) (Frame.codes pairs))
  = Ok [mkCandidate (Some "x") (Some "x") 0 0; mkCandidate (Some "x") (Some "x") 0 1;
        mkCandidate (Some "x") (Some "x") 1 0; mkCandidate (Some "x") (Some "x") 1 1].
Proof. vm_compute. reflexivity. Qed.

(** ** The order of the passes *)

Lemma insert_sorted_perm s l : Permutation (insert_sorted s l) (s :: l).
Proof.
  induction l as [|t l IH]; simpl; [reflexivity|].
  destruct (String.leb s t); [reflexivity|].
  rewrite IH. apply perm_swap.
Qed.

Lemma sorted_perm l : Permutation (sorted l) l.
Proof.
  induction l as [|s l IH]; simpl; [reflexivity|].
  rewrite insert_sorted_perm, IH. reflexivity.
Qed.

Lemma insert_sorted_ascending s l :
  Sorted string_le l -> Sorted string_le (insert_sorted s l).
Proof.
  induction 1 as [|t l Hl IH Ht]; simpl.
  - repeat constructor.
  - destruct (String.leb s t) eqn:E.
    + repeat constructor; assumption.
    + constructor; [exact IH|].
      assert (Hts : string_le t s).
      { destruct (String.leb_total s t) as [H | H]; [congruence | exact H]. }
      destruct l as [|u l]; simpl.
      * repeat constructor. exact Hts.
      * inversion Ht; subst. destruct (String.leb s u); constructor; assumption.
Qed.

Lemma sorted_ascending l : Sorted string_le (sorted l).
Proof.
  induction l as [|s l IH]; simpl; [constructor|].
  apply insert_sorted_ascending. exact IH.
Qed.

(** Every key of [blocks_by_pass] is a pass of the run, once. *)
Lemma passes_once cfg :
  List.NoDup (passes cfg)
  /\ forall k, In k (passes cfg) <-> is_Some (blocks_by_pass cfg !! k).
Proof.
  unfold passes, keys. split.
  - eapply Permutation_NoDup; [symmetry; apply sorted_perm|].
    apply NoDup_ListNoDup, NoDup_fst_map_to_list.
  - intros k. split.
    + intros H. eapply Permutation_in in H; [|apply sorted_perm].
      apply in_map_iff in H. destruct H as ([k' v] & <- & H).
      apply list_elem_of_In, elem_of_map_to_list in H. simpl. eauto.
    + intros [v Hv]. eapply Permutation_in; [symmetry; apply sorted_perm|].
      apply in_map_iff. exists (k, v). split; [reflexivity|].
      apply list_elem_of_In, elem_of_map_to_list. exact Hv.
Qed.

Lemma pass_events_app l1 l2 :
  pass_events (l1 ++ l2) = pass_events l1 ++ pass_events l2.
Proof. unfold pass_events. apply omap_app. Qed.

Lemma on_chunk_pass_events n p st c :
  pass_events (log (on_chunk n p st c)) = pass_events (log st).
Proof.
  unfold on_chunk, threshold_reached, submit; simpl.
  destruct (Nat.eqb _ _); simpl; rewrite !pass_events_app; simpl;
    rewrite ?app_nil_r; reflexivity.
Qed.

Lemma on_csv_chunk_pass_events n p st c :
  pass_events (log (on_csv_chunk n p st c)) = pass_events (log st).
Proof.
  unfold on_csv_chunk, threshold_reached, submit; simpl.
  destruct (Nat.eqb _ _); simpl; rewrite !pass_events_app; simpl;
    rewrite ?app_nil_r; reflexivity.
Qed.

Lemma fold_pass_events (f : run_state -> chunk -> run_state) chunks st :
  (forall st c, pass_events (log (f st c)) = pass_events (log st)) ->
  pass_events (log (fold_left f chunks st)) = pass_events (log st).
Proof.
  intros H. revert st. induction chunks as [|c chunks IH]; intros st; simpl.
  - reflexivity.
  - rewrite IH, H. reflexivity.
Qed.

Lemma process_pass_events cfg st pass_name st' :
  process_pass cfg st pass_name = Ok st' ->
  pass_events (log st') = pass_events (log st) ++ [pass_name].
Proof.
  unfold process_pass. intros H.
  destruct (pass_number pass_name) as [n|e]; simpl in H; [|discriminate].
  destruct (run_blocking_pass _ _ _ _ _ _ _ _ _) as [r|e]; simpl in H; [|discriminate].
  destruct (conn cfg).
  - destruct (listed (tables (snd r)) (cand_table cfg pass_name)) as [rows|].
    + destruct (getitem (chunk_sizes cfg) (pretty n)) as [size|e];
        simpl in H; [|discriminate].
      inversion H; subst; simpl.
      rewrite fold_pass_events by apply on_chunk_pass_events.
      simpl. rewrite pass_events_app. reflexivity.
    + inversion H; subst; simpl. rewrite pass_events_app. reflexivity.
  - destruct (getitem (chunk_sizes cfg) (pretty n)) as [size|e];
      simpl in H; [|discriminate].
    destruct (read_csv _ _ size) as [chunks|e]; simpl in H; [|discriminate].
    inversion H; subst.
    rewrite fold_pass_events by apply on_csv_chunk_pass_events.
    simpl. rewrite pass_events_app. reflexivity.
Qed.

Lemma pass_loop_events cfg names st st' :
  pass_loop cfg names st = Ok st' ->
  pass_events (log st') = pass_events (log st) ++ names.
Proof.
  revert st. induction names as [|p names IH]; intros st H; simpl in H.
  - inversion H; subst. rewrite app_nil_r. reflexivity.
  - destruct (process_pass cfg st p) as [st1|e] eqn:E; simpl in H; [|discriminate].
    rewrite (IH _ H), (process_pass_events _ _ _ _ E), <- app_assoc. reflexivity.
Qed.

Lemma extends_refl st : extends st st.
Proof. exists []. rewrite app_nil_r. split; [reflexivity | constructor]. Qed.

Lemma extends_trans st1 st2 st3 :
  extends st1 st2 -> extends st2 st3 -> extends st1 st3.
Proof.
  intros (es1 & E1 & H1) (es2 & E2 & H2). exists (es1 ++ es2).
  rewrite E2, E1, app_assoc. split; [reflexivity|].
  apply List.Forall_app. split; assumption.
Qed.

Lemma on_chunk_extends n p st c : extends st (on_chunk n p st c).
Proof.
  unfold extends, on_chunk, threshold_reached, submit; simpl.
  destruct (Nat.eqb _ _); simpl; eexists; rewrite <- ?app_assoc;
    (split; [reflexivity | repeat constructor]).
Qed.

Lemma on_csv_chunk_extends n p st c : extends st (on_csv_chunk n p st c).
Proof.
  unfold extends, on_csv_chunk, threshold_reached, submit; simpl.
  destruct (Nat.eqb _ _); simpl; eexists; rewrite <- ?app_assoc;
    (split; [reflexivity | repeat constructor]).
Qed.

Lemma fold_extends (f : run_state -> chunk -> run_state) chunks st :
  (forall st c, extends st (f st c)) -> extends st (fold_left f chunks st).
Proof.
  intros H. revert st. induction chunks as [|c chunks IH]; intros st; simpl.
  - apply extends_refl.
  - eapply extends_trans; [apply H | apply IH].
Qed.

Lemma process_pass_extends cfg st pass_name st' :
  process_pass cfg st pass_name = Ok st' -> extends st st'.
Proof.
  unfold process_pass. intros H.
  destruct (pass_number pass_name) as [n|e]; simpl in H; [|discriminate].
  destruct (run_blocking_pass _ _ _ _ _ _ _ _ _) as [r|e]; simpl in H; [|discriminate].
  assert (H1 : extends st (mkRun (fst r) (snd r) (all_cands st) (shard st)
                                 (log st ++ [BlockingPass pass_name]))).
  { exists [BlockingPass pass_name]. split; [reflexivity | repeat constructor]. }
  destruct (conn cfg).
  - destruct (listed (tables (snd r)) (cand_table cfg pass_name)) as [rows|].
    + destruct (getitem (chunk_sizes cfg) (pretty n)) as [size|e];
        simpl in H; [|discriminate].
      inversion H; subst. eapply extends_trans; [exact H1|].
      destruct (fold_extends (on_chunk (num_processes cfg) pass_name)
                  (fetchmany_all size rows)
                  (mkRun (fst r) (snd r) (all_cands st) (shard st)
                         (log st ++ [BlockingPass pass_name]))
                  (on_chunk_extends _ _)) as (es & E & Hes).
      exists es. simpl. split; [exact E | exact Hes].
    + inversion H; subst. exact H1.
  - destruct (getitem (chunk_sizes cfg) (pretty n)) as [size|e];
      simpl in H; [|discriminate].
    destruct (read_csv _ _ size) as [chunks|e]; simpl in H; [|discriminate].
    inversion H; subst. eapply extends_trans; [exact H1|].
    apply fold_extends. apply on_csv_chunk_extends.
Qed.

Lemma pass_loop_extends cfg names st st' :
  pass_loop cfg names st = Ok st' -> extends st st'.
Proof.
  revert st. induction names as [|p names IH]; intros st H; simpl in H.
  - inversion H; subst. apply extends_refl.
  - destruct (process_pass cfg st p) as [st1|e] eqn:E; simpl in H; [|discriminate].
    eapply extends_trans; [eapply process_pass_extends; exact E | apply IH; exact H].
Qed.

Lemma submit_rest_extends st : extends st (submit_rest st).
Proof.
  unfold submit_rest. destruct (all_cands st); [apply extends_refl|].
  eexists. simpl. split; [reflexivity | repeat constructor].
Qed.

Lemma submit_rest_pass_events st :
  pass_events (log (submit_rest st)) = pass_events (log st).
Proof.
  unfold submit_rest. destruct (all_cands st); [reflexivity|].
  simpl. rewrite pass_events_app. simpl. apply app_nil_r.
Qed.

Lemma ground_truth_stage_log cfg st st' :
  ground_truth_stage cfg st = Ok st' ->
  exists es, log st' = log st ++ es /\ Forall starts_no_pass es.
Proof.
  unfold ground_truth_stage. intros H.
  destruct (ground_truth_ids cfg) as [|g gids].
  - inversion H; subst. exists []. rewrite app_nil_r. split; [reflexivity | constructor].
  - destruct (conn cfg); [|discriminate].
    destruct (run_ground_truth_ids_passes _ _ _ _ _ _ _) as [r|e];
      simpl in H; [|discriminate].
    inversion H; subst; simpl. eexists. split; [reflexivity|].
    constructor; [exact I|]. unfold ground_truth_results.
    apply List.Forall_forall. intros e He. apply in_map_iff in He.
    destruct He as (x & <- & _). exact I.
Qed.

Lemma pass_events_none es : Forall starts_no_pass es -> pass_events es = [].
Proof.
  induction 1 as [|e es He _ IH]; [reflexivity|].
  destruct e; simpl in *; try contradiction; exact IH.
Qed.

(** A run that ends has started every pass once, in the order of
    [sorted], after the ground-truth passes. *)
Lemma run_pass_order cfg data_a data_b tables0 files0 st :
  main cfg data_a data_b tables0 files0 = Ok st ->
  pass_events (log st) = passes cfg
  /\ exists before after,
       log st = before ++ after
       /\ Forall starts_no_pass before
       /\ Forall numbered after.
Proof.
  unfold main. intros H.
  destruct (ground_truth_stage cfg _) as [st1|e] eqn:E1; simpl in H; [|discriminate].
  destruct (num_processes cfg) as [|k]; [discriminate|].
  destruct (pass_loop cfg (passes cfg) st1) as [st2|e] eqn:E2; simpl in H; [|discriminate].
  inversion H; subst; clear H.
  destruct (ground_truth_stage_log _ _ _ E1) as (gt & Egt & Hgt). simpl in Egt.
  split.
  - rewrite submit_rest_pass_events, (pass_loop_events _ _ _ _ E2), Egt.
    rewrite (pass_events_none _ Hgt). reflexivity.
  - destruct (extends_trans _ _ _ (pass_loop_extends _ _ _ _ E2)
                (submit_rest_extends st2)) as (es & Ees & Hes).
    exists gt, es. rewrite Ees, Egt. auto.
Qed.

(** C7.  With ten numbered passes the run processes pass 10 second:
    [sorted] orders the keys of [blocks_by_pass] as strings, so the pass
    numbers are not met in ascending order. *)
Theorem ten_passes_run_in_string_order :
  pass_events (log_of (main ten_pass_config ex_a ex_b ∅ ∅))
  = ["1"; "10"; "2"; "3"; "4"; "5"; "6"; "7"; "8"; "9"]
  /\ map pass_number (passes ten_pass_config)
     = map Ok [1; 10; 2; 3; 4; 5; 6; 7; 8; 9]%N.
Proof. split; vm_compute; reflexivity. Qed.

(** ** Skipped passes *)

Lemma omap_length_le {A B : Type} (f : A -> option B) (l : list A) :
  (length (omap f l) <= length l)%nat.
Proof.
  induction l as [|x l IH]; [simpl; lia|].
  change (omap f (x :: l))
    with (match f x with Some y => y :: omap f l | None => omap f l end).
  destruct (f x); simpl; lia.
Qed.

Lemma omap_length_lt {A B : Type} (f : A -> option B) (l : list A) x :
  In x l -> f x = None -> (length (omap f l) < length l)%nat.
Proof.
  induction l as [|y l IH]; [simpl; tauto|]. intros Hin Hx.
  change (omap f (y :: l))
    with (match f y with Some z => z :: omap f l | None => omap f l end).
  destruct Hin as [-> | Hin].
  - rewrite Hx. pose proof (omap_length_le f l). simpl. lia.
  - specialize (IH Hin Hx). destruct (f y); simpl; lia.
Qed.

Lemma lengths_differ va vb blocking_vars :
  names_missing_field va vb blocking_vars ->
  negb (Nat.eqb (length (omap (fun v => va !! v) (cleaned blocking_vars)))
                (length (cleaned blocking_vars)))
  || negb (Nat.eqb (length (omap (fun v => vb !! v) (cleaned blocking_vars)))
                   (length (cleaned blocking_vars)))
  = true.
Proof.
  intros (v & Hv & [Ha | Hb]); apply orb_true_iff; [left | right];
    apply negb_true_iff, Nat.eqb_neq.
  - pose proof (omap_length_lt (fun v => va !! v) _ v Hv Ha). lia.
  - pose proof (omap_length_lt (fun v => vb !! v) _ v Hv Hb). lia.
Qed.

(** With a cursor the pass returns the state and the store as they
    were. *)
Lemma missing_field_skipped_relational blocks pass_name va vb na nb
    blocking_vars ida idb s w :
  blocks !! pass_name = Some blocking_vars ->
  blocking_vars <> [] ->
  va !! "indv_id" = Some ida ->
  vb !! "indv_id" = Some idb ->
  names_missing_field va vb blocking_vars ->
  run_blocking_pass blocks pass_name va vb na nb s true w = Ok (s, w).
Proof.
  intros Hp Hne Ha Hb Hm.
  unfold run_blocking_pass, getitem. rewrite Hp, Ha, Hb. simpl.
  pose proof (lengths_differ va vb blocking_vars Hm) as H. unfold cleaned in H.
  destruct blocking_vars as [|v vs]; [contradiction|].
  rewrite H. reflexivity.
Qed.

(** Without a cursor the pass returns the state as it was and writes no
    file; the frames stay indexed. *)
Lemma missing_field_skipped_file blocks pass_name va vb na nb
    blocking_vars ida idb s w r :
  blocks !! pass_name = Some blocking_vars ->
  blocking_vars <> [] ->
  va !! "indv_id" = Some ida ->
  vb !! "indv_id" = Some idb ->
  names_missing_field va vb blocking_vars ->
  run_blocking_pass blocks pass_name va vb na nb s false w = Ok r ->
  fst r = s /\ files (snd r) = files w
  /\ Frame.f_index (df_a (snd r)) = Some ida.
Proof.
  intros Hp Hne Ha Hb Hm.
  unfold run_blocking_pass, getitem. rewrite Hp, Ha, Hb. simpl.
  destruct (set_indexes ida idb nb w) as [w'|e] eqn:Ew; simpl; [|discriminate].
  pose proof (lengths_differ va vb blocking_vars Hm) as H. unfold cleaned in H.
  destruct blocking_vars as [|v vs]; [contradiction|].
  rewrite H. intros Hr. inversion Hr; subst; simpl.
  unfold set_indexes, Frame.set_index in Ew.
  destruct (Frame.f_index (df_a w)); simpl in Ew; [discriminate|].
  destruct (String.eqb nb "dedup").
  - inversion Ew; subst; simpl. auto.
  - destruct (df_b w) as [b|]; [|discriminate].
    destruct (Frame.f_index b); simpl in Ew; [discriminate|].
    inversion Ew; subst; simpl. auto.
Qed.

(** In a run without a relational store, a pass that names a missing
    field never completes unless a file of its name was already there:
    nothing checks, as the relational branch does, that the pass wrote its
    candidates. *)
Lemma file_run_cannot_skip cfg st pass_name blocking_vars ida idb :
  conn cfg = false ->
  blocks_by_pass cfg !! pass_name = Some blocking_vars ->
  blocking_vars <> [] ->
  vars_a cfg !! "indv_id" = Some ida ->
  vars_b cfg !! "indv_id" = Some idb ->
  names_missing_field (vars_a cfg) (vars_b cfg) blocking_vars ->
  files (wld st) !! (cand_table cfg pass_name +:+ ".csv") = None ->
  exists e, process_pass cfg st pass_name = Raise e.
Proof.
  intros Hc Hb Hne Ha Hbid Hm Hf. unfold process_pass.
  destruct (pass_number pass_name) as [n|e]; simpl; [|eauto].
  rewrite Hc.
  destruct (run_blocking_pass _ _ _ _ _ _ _ _ _) as [r|e] eqn:Er; simpl; [|eauto].
  destruct (missing_field_skipped_file _ _ _ _ _ _ _ _ _ _ _ _
              Hb Hne Ha Hbid Hm Er) as (_ & Hfiles & _).
  destruct (getitem (chunk_sizes cfg) (pretty n)) as [size|e]; simpl; [|eauto].
  unfold read_csv. rewrite Hfiles, Hf.
  destruct size; eauto.
Qed.

(** C5.  Without a relational store, a first pass on a variable that no
    field map names is skipped by [run_blocking_pass] and then aborts the
    run: no CSV file was written for it, and reading it raises
    [FileNotFoundError].  The second pass is never started. *)
Theorem skipped_pass_aborts_file_run :
  main (link_config false missing_field_plan []) ex_a ex_b ∅ ∅
  = Raise FileNotFoundError.
Proof. vm_compute. reflexivity. Qed.

(** With a relational store the same plan skips pass 1, which reads no
    row, and goes on to pass 2. *)
Example skipped_pass_relational_run :
  let l := log_of (main (link_config true missing_field_plan []) ex_a ex_b ∅ ∅) in
  pass_events l = ["1"; "2"]
  /\ chunks_of_pass "1" l = []
  /\ map (fun c => (idx_a c, idx_b c)) (chunks_of_pass "2" l)
     = [(0,0); (1,0); (2,1); (2,2); (3,3)].
Proof. vm_compute. repeat split; reflexivity. Qed.

(** ** The exclusion state across passes *)

(** A pair of a relational pass satisfies none of the conditions held by
    the state the pass was given. *)
Lemma pass_misses_earlier_conditions pa pb ida idb p ta tb dedup rows p' ra rb :
  Sql.find_pass_candidates pa pb ida idb p ta tb dedup = Ok (rows, p') ->
  In (ra, rb) (Sql.joined_rows ta tb
                 (Sql.mkFull (combine pa pb) p
                    (if dedup then Some (ida, idb) else None))) ->
  Sql.eval_join ra rb (combine pa pb) = Sql.T
  /\ Forall (fun j => Sql.eval_join ra rb j = Sql.F) p
  /\ Exclusion.excluded_sql p ra rb = false
  /\ Exclusion.excluded_sql p' ra rb = true.
Proof.
  intros H Hin. apply SqlFacts.find_pass_candidates_Ok in H.
  destruct H as (_ & -> & _ & _).
  apply SqlFacts.in_joined_rows in Hin. destruct Hin as (_ & _ & Ht).
  apply SqlFacts.eval_full_T in Ht. destruct Ht as (Hj & Hp & _).
  repeat split; auto.
  - unfold Exclusion.excluded_sql. destruct p as [|j p]; [reflexivity|].
    apply SqlFacts.eval_past_F in Hp. rewrite Hp. reflexivity.
  - unfold Exclusion.excluded_sql.
    destruct (p ++ [combine pa pb]) as [|j q] eqn:E.
    + destruct p; discriminate.
    + rewrite <- E.
      assert (Ht : Sql.eval_past ra rb (p ++ [combine pa pb]) = Sql.T).
      { apply SqlFacts.eval_past_T. apply List.Exists_exists.
        exists (combine pa pb). split; [apply in_or_app; right; left; reflexivity|].
        exact Hj. }
      rewrite Ht. reflexivity.
Qed.

Lemma eval_past_snoc ra rb p j :
  Sql.eval_past ra rb (p ++ [j])
  = Sql.tv_or (Sql.eval_past ra rb p) (Sql.eval_join ra rb j).
Proof. unfold Sql.eval_past. rewrite fold_left_app. reflexivity. Qed.

(** [update_past_join_cond] never lets go of a pair. *)
Lemma update_keeps_excluded j p ra rb :
  Exclusion.excluded_sql p ra rb = true ->
  Exclusion.excluded_sql (Sql.update_past_join_cond j p) ra rb = true.
Proof.
  rewrite SqlFacts.update_past_join_cond_eq. unfold Exclusion.excluded_sql.
  destruct p as [|j0 p]; [discriminate|].
  change ((j0 :: p) ++ [j]) with (j0 :: (p ++ [j])).
  change (j0 :: (p ++ [j])) with ((j0 :: p) ++ [j]) at 2.
  rewrite eval_past_snoc.
  destruct (Sql.eval_past ra rb (j0 :: p)); simpl; try discriminate;
    destruct (Sql.eval_join ra rb j); reflexivity.
Qed.

(** C4.  After pass 1 on [ssn] the state excludes the first rows of the
    two sides, which share their [ssn]; pass 2, whose list of blocking
    variables is empty, returns the empty string, and the state no longer
    excludes them. *)
Theorem config_skipped_pass_forgets_exclusions :
  let ra := ssn_side "a" 0 "1" in
  let rb := ssn_side "b" 0 "1" in
  let s1 := past_after "1" (PastSql []) in
  let s2 := past_after "2" s1 in
  s1 = PastSql [[("ssn", "ssn")]]
  /\ Exclusion.excluded s1 ra rb = true
  /\ run_blocking_pass skip_plan "2" same_vars same_vars "a" "b" s1 true skip_world
     = Ok (PastSql [], skip_world)
  /\ Exclusion.excluded s2 ra rb = false.
Proof. vm_compute. repeat split; reflexivity. Qed.

(** C2.  In the run of the plan [ssn], skipped, [ssn], pass 3 produces
    again every pair of pass 1, each of which satisfies the condition of
    pass 1. *)
Theorem pass_after_skipped_pass_repeats_pairs :
  let l := log_of (main (link_config true [("1", ["ssn"]); ("2", []); ("3", ["ssn"])] [])
                        ex_a ex_b ∅ ∅) in
  chunks_of_pass "1" l <> []
  /\ chunks_of_pass "3" l = chunks_of_pass "1" l
  /\ Sql.eval_join (ssn_side "a" 0 "1") (ssn_side "b" 0 "1") [("ssn", "ssn")] = Sql.T
  /\ In (Sql.select_row "id" "id" (ssn_side "a" 0 "1") (ssn_side "b" 0 "1"))
        (chunks_of_pass "3" l).
Proof.
  vm_compute. repeat split; try reflexivity; [discriminate | left; reflexivity].
Qed.

(** ** The two backends on a plan *)

Module Agreement.
Import Sql SqlFacts Frame Normal FrameFacts.

(** *** Strings *)

Lemma length_app (s t : string) :
  String.length (s +:+ t) = (String.length s + String.length t)%nat.
Proof. induction s as [|a s IH]; simpl; [reflexivity | rewrite IH; reflexivity]. Qed.

Lemma app_cancel_r (s t u : string) : s +:+ u = t +:+ u -> s = t.
Proof.
  revert t. induction s as [|a s IH]; intros [|b t] H; simpl in H.
  - reflexivity.
  - apply (f_equal String.length) in H. simpl in H.
    rewrite ?length_app in H. simpl in H. lia.
  - apply (f_equal String.length) in H. simpl in H.
    rewrite ?length_app in H. simpl in H. lia.
  - inversion H; subst. f_equal. apply IH. assumption.
Qed.

Lemma suffix_x_y (s t : string) : s +:+ "_x" <> t +:+ "_y".
Proof.
  intros H.
  assert (Hl : String.length s = String.length t).
  { apply (f_equal String.length) in H. rewrite !length_app in H. simpl in H. lia. }
  revert t H Hl. induction s as [|a s IH]; intros [|b t] H Hl; simpl in *;
    try discriminate.
  inversion H; subst. eapply IH; eauto.
Qed.

(** *** Lists *)

Lemma filter_nil_in {A : Type} (P : A -> bool) (l : list A) :
  (forall x, In x l -> P x = false) -> List.filter P l = [].
Proof.
  induction l as [|x l IH]; intros H; simpl; [reflexivity|].
  rewrite (H x (or_introl eq_refl)). apply IH. intros y Hy. apply H. right. exact Hy.
Qed.

Lemma forallb_ext_in {A : Type} (f g : A -> bool) (l : list A) :
  (forall x, In x l -> f x = g x) -> forallb f l = forallb g l.
Proof.
  induction l as [|x l IH]; intros H; simpl; [reflexivity|].
  rewrite (H x (or_introl eq_refl)), IH; [reflexivity|].
  intros y Hy. apply H. right. exact Hy.
Qed.

Lemma flat_map_ext_in {A B : Type} (f g : A -> list B) (l : list A) :
  (forall x, In x l -> f x = g x) -> flat_map f l = flat_map g l.
Proof.
  induction l as [|x l IH]; intros H; simpl; [reflexivity|].
  rewrite (H x (or_introl eq_refl)), IH; [reflexivity|].
  intros y Hy. apply H. right. exact Hy.
Qed.

(** A join written as one test on the pair is the join of the filtered
    sides. *)
Lemma join_of_filtered {A B : Type} (S T : A -> B -> bool) (Pa : A -> bool)
    (Pb : B -> bool) (ta : list A) (tb : list B) :
  (forall a b, In a ta -> In b tb -> S a b = Pa a && (Pb b && T a b)) ->
  flat_map (fun a => map (pair a) (List.filter (S a) tb)) ta
  = flat_map (fun a => map (pair a) (List.filter (T a) (List.filter Pb tb)))
             (List.filter Pa ta).
Proof.
  intros H. induction ta as [|a ta IH]; simpl; [reflexivity|].
  rewrite IH by (intros; apply H; simpl; auto).
  destruct (Pa a) eqn:Ea; simpl.
  - f_equal. f_equal. rewrite filter_filter. apply List.filter_ext_in.
    intros b Hb. rewrite H by (simpl; auto). rewrite Ea. reflexivity.
  - rewrite filter_nil_in; [reflexivity|].
    intros b Hb. rewrite H by (simpl; auto). rewrite Ea. reflexivity.
Qed.

(** Forgetting the positions of a join over enumerated rows. *)
Lemma join_forget (T : record -> record -> bool) (Pa Pb : record -> bool)
    (ea eb : list (nat * record)) :
  map (fun q : (nat * record) * (nat * record) => (snd (fst q), snd (snd q)))
      (flat_map (fun a => map (pair a)
                   (List.filter (fun b => T (snd a) (snd b))
                                (List.filter (fun b => Pb (snd b)) eb)))
                (List.filter (fun a => Pa (snd a)) ea))
  = flat_map (fun ra => map (pair ra)
                (List.filter (T ra) (List.filter Pb (map snd eb))))
             (List.filter Pa (map snd ea)).
Proof.
  rewrite map_flat_map, (List.filter_map_swap Pa), flat_map_map.
  apply flat_map_ext. intros a.
  rewrite map_map, (List.filter_map_swap Pb), (List.filter_map_swap (T (snd a))).
  rewrite map_map. reflexivity.
Qed.

Lemma NoDup_map_filter {A B : Type} (f : A -> B) (P : A -> bool) (l : list A) :
  List.NoDup (map f l) -> List.NoDup (map f (List.filter P l)).
Proof.
  induction l as [|x l IH]; simpl; intros H; [constructor|].
  inversion H as [|y l' Hx Hl]; subst.
  destruct (P x); simpl; [constructor|]; auto.
  intros Hin. apply Hx. apply in_map_iff in Hin.
  destruct Hin as (z & Hz & Hin). apply filter_In in Hin.
  apply in_map_iff. exists z. tauto.
Qed.

(** *** Integrity of the index *)

Lemma is_unique_idx (id : string) (l : list record) :
  List.NoDup (map idx l) ->
  is_unique (map (fun r => (col r id, idx r)) l) = true.
Proof.
  induction l as [|r l IH]; simpl; intros H; [reflexivity|].
  inversion H as [|y l' Hx Hl]; subst. rewrite IH by assumption.
  rewrite andb_true_r. apply negb_true_iff.
  destruct (existsb _ _) eqn:E; [|reflexivity].
  apply existsb_exists in E. destruct E as (q & Hq & Heq).
  apply in_map_iff in Hq. destruct Hq as (r' & <- & Hr').
  unfold index_value_eqb in Heq; simpl in Heq.
  apply andb_true_iff in Heq. destruct Heq as [_ Heq].
  apply Z.eqb_eq in Heq. exfalso. apply Hx. rewrite Heq.
  apply in_map. exact Hr'.
Qed.

Lemma verify_filtered (id : string) (P : record -> bool) (l : list record) :
  List.NoDup (map idx l) ->
  _verify_integrity (mkFrame (Some id) (List.filter P l)) = Ok tt.
Proof.
  intros H. unfold _verify_integrity, index_values; simpl.
  rewrite is_unique_idx; [reflexivity|]. apply NoDup_map_filter. exact H.
Qed.

(** *** The names of the merged columns *)

Lemma mem_In c l : mem c l = true <-> In c l.
Proof.
  unfold mem. rewrite existsb_exists. split.
  - intros (x & Hx & Heq). apply String.eqb_eq in Heq. subst. exact Hx.
  - intros H. exists c. split; [exact H | apply String.eqb_refl].
Qed.

Lemma keep_of_In c seen : In c (keep_of seen) <-> exists b, In b seen /\ In c b.
Proof.
  unfold keep_of. rewrite nodup_In, in_concat. split; intros (b & H1 & H2); eauto.
Qed.

Lemma assoc_map_inj (f : string -> string) (g : string -> value) l c :
  (forall x y, f x = f y -> x = y) -> In c l ->
  assoc (f c) (map (fun x => (f x, g x)) l) = g c.
Proof.
  intros Hinj. induction l as [|x l IH]; simpl; [tauto|].
  intros Hin. destruct (String.eqb_spec (f c) (f x)) as [E|E].
  - apply Hinj in E. subst. reflexivity.
  - destruct Hin as [->|Hin]; [contradiction | auto].
Qed.

Lemma assoc_app_l c kv1 kv2 :
  In c (map fst kv1) -> assoc c (kv1 ++ kv2) = assoc c kv1.
Proof.
  induction kv1 as [|[k v] kv1 IH]; simpl; [tauto|].
  intros H. destruct (String.eqb_spec c k); [reflexivity|].
  destruct H as [->|H]; [contradiction | auto].
Qed.

Lemma assoc_app_r c kv1 kv2 :
  ~ In c (map fst kv1) -> assoc c (kv1 ++ kv2) = assoc c kv2.
Proof.
  induction kv1 as [|[k v] kv1 IH]; simpl; [reflexivity|].
  intros H. destruct (String.eqb_spec c k) as [->|_]; [tauto | auto].
Qed.

Section SameNames.

(** The kept columns of the two sides when they are the same ones. *)
Variables lk rk : list string.
Hypothesis lk_rk : forall c, In c lk <-> In c rk.

Lemma suffixed_x c : In c lk -> suffixed "_x" rk c = c +:+ "_x".
Proof.
  intros H. unfold suffixed. apply lk_rk in H. apply mem_In in H.
  rewrite H. reflexivity.
Qed.

Lemma suffixed_y c : In c rk -> suffixed "_y" lk c = c +:+ "_y".
Proof.
  intros H. unfold suffixed. apply lk_rk in H. apply mem_In in H.
  rewrite H. reflexivity.
Qed.

Lemma merged_cols on_l on_r (a b : nat * record) :
  p_cols (pair_of lk rk on_l on_r (a, b))
  = map (fun c => (c +:+ "_x", col (snd a) c)) lk
    ++ map (fun c => (c +:+ "_y", col (snd b) c)) rk.
Proof.
  unfold pair_of, merge_row, side_row_of; simpl. rewrite !map_map; simpl.
  f_equal; apply map_ext_in; intros c Hc;
    [rewrite suffixed_x | rewrite suffixed_y]; auto.
Qed.

Lemma lookup_x on_l on_r a b c :
  In c lk ->
  assoc (c +:+ "_x") (p_cols (pair_of lk rk on_l on_r (a, b))) = col (snd a) c.
Proof.
  intros H. rewrite merged_cols, assoc_app_l.
  - apply (assoc_map_inj (fun x => x +:+ "_x") (col (snd a))); [|exact H].
    intros x y. apply app_cancel_r.
  - rewrite map_map; simpl. apply in_map_iff. exists c. auto.
Qed.

Lemma lookup_y on_l on_r a b c :
  In c rk ->
  assoc (c +:+ "_y") (p_cols (pair_of lk rk on_l on_r (a, b))) = col (snd b) c.
Proof.
  intros H. rewrite merged_cols, assoc_app_r.
  - apply (assoc_map_inj (fun x => x +:+ "_y") (col (snd b))); [|exact H].
    intros x y. apply app_cancel_r.
  - rewrite map_map; simpl. intros Hin. apply in_map_iff in Hin.
    destruct Hin as (x & Hx & _). exact (suffix_x_y _ _ Hx).
Qed.

Lemma compared_columns_same_names keys bl br :
  length bl = length br ->
  within lk rk (bl, br) ->
  compared_columns lk rk (keys ++ lk ++ ["index_x"]) (keys ++ rk ++ ["index_y"])
    bl br
  = Ok (comparisons (bl, br)).
Proof.
  unfold comparisons; simpl. revert br.
  induction bl as [|lv bl IH]; intros [|rv br] Hlen [Hl Hr]; simpl in *;
    try discriminate; [reflexivity|].
  assert (Hlv : In lv lk) by auto.
  assert (Hrv : In rv rk) by auto.
  assert (E1 : mem lv (keys ++ rk ++ ["index_y"]) = true).
  { apply mem_In. apply in_or_app. right. apply in_or_app. left.
    apply lk_rk. exact Hlv. }
  rewrite E1; simpl.
  assert (E2 : mem (lv +:+ "_x") (merged_columns lk rk) = true).
  { apply mem_In. unfold merged_columns. apply in_or_app. left.
    apply in_map_iff. exists lv. split; [apply suffixed_x|]; assumption. }
  assert (E3 : mem (rv +:+ "_y") (merged_columns lk rk) = true).
  { apply mem_In. unfold merged_columns. apply in_or_app. right.
    apply in_map_iff. exists rv. split; [apply suffixed_y|]; assumption. }
  rewrite E2, E3; simpl. rewrite IH; [reflexivity | lia |].
  split; intros c Hc; auto.
Qed.

Lemma seen_columns_same_names keys (blocks : list pass_columns) :
  Forall (fun p => fst p <> [] /\ length (fst p) = length (snd p) /\ within lk rk p) blocks ->
  seen_columns lk rk (keys ++ lk ++ ["index_x"]) (keys ++ rk ++ ["index_y"])
    (map fst blocks) (map snd blocks)
  = Ok (map comparisons blocks).
Proof.
  induction 1 as [|[bl br] blocks (Hne & Hlen & Hw) _ IH]; simpl in *; [reflexivity|].
  rewrite compared_columns_same_names by assumption. simpl.
  destruct (comparisons (bl, br)) as [|x xs] eqn:E.
  - unfold comparisons in E; simpl in E.
    destruct bl; [contradiction|]. destruct br; discriminate.
  - rewrite IH. reflexivity.
Qed.

(** On a pair of rows, the comparisons of a block are the comparisons of
    the values of its columns. *)
Lemma statement_same_names on_l on_r a b (p : pass_columns) :
  within lk rk p ->
  statement (comparisons p) (pair_of lk rk on_l on_r (a, b))
  = forallb (fun lr => pd_eq (col (snd a) (fst lr)) (col (snd b) (snd lr)))
            (combine (fst p) (snd p)).
Proof.
  intros [Hl Hr]. unfold statement, comparisons.
  rewrite forallb_map_comp. apply forallb_ext_in.
  intros [lv rv] Hin; cbn [fst snd].
  rewrite lookup_x by (apply Hl; eapply in_combine_l; eauto).
  rewrite lookup_y by (apply Hr; eapply in_combine_r; eauto).
  reflexivity.
Qed.

End SameNames.

(** *** The tests of the two backends on a pair of rows *)

Lemma keys_eqb_cons x xs y ys :
  keys_eqb (x :: xs) (y :: ys) = value_eqb x y && keys_eqb xs ys.
Proof.
  unfold keys_eqb; simpl.
  destruct (Nat.eqb (length xs) (length ys)), (value_eqb x y); reflexivity.
Qed.

Lemma conjunct_test (va vb : value) :
  (exists s, va = Some s /\ vb = Some s /\ s <> EmptyString)
  <-> (negb (value_eqb va (Some EmptyString)) = true /\ is_some va = true)
      /\ (negb (value_eqb vb (Some EmptyString)) = true /\ is_some vb = true)
      /\ value_eqb va vb = true.
Proof.
  destruct va as [s|], vb as [t|]; simpl; split;
    try (intros (u & H1 & H2 & H3); discriminate);
    try (intros ((_ & H) & _); discriminate);
    try (intros (_ & (_ & H) & _); discriminate).
  - intros (u & H1 & H2 & H3). injection H1 as ->. injection H2 as ->.
    rewrite String.eqb_refl.
    destruct (String.eqb_spec u EmptyString); [contradiction | auto].
  - intros ((H1 & _) & _ & H3). apply String.eqb_eq in H3. subst.
    exists t. repeat split.
    intros ->. discriminate.
Qed.

(** The condition of the pass is true on a pair of rows exactly when both
    rows survive [query] and [dropna] and their keys merge. *)
Lemma pass_condition_test ra rb pa pb :
  length pa = length pb ->
  eval_join ra rb (combine pa pb) = T
  <-> (non_empty_on pa ra = true /\ has_keys pa ra = true)
      /\ (non_empty_on pb rb = true /\ has_keys pb rb = true)
      /\ keys_eqb (map (col ra) pa) (map (col rb) pb) = true.
Proof.
  rewrite eval_join_T. revert pb.
  induction pa as [|a pa IH]; intros [|b pb] Hlen; simpl in Hlen; try discriminate.
  - simpl. split; [intros _; repeat split | constructor].
  - unfold non_empty_on, has_keys in *. simpl combine. simpl map. simpl forallb.
    rewrite keys_eqb_cons, List.Forall_cons_iff, eval_conjunct_T, conjunct_test.
    rewrite (IH pb) by lia. rewrite !andb_true_iff. tauto.
Qed.

(** An earlier condition is false on a pair of rows exactly when the
    comparison of some pair of columns fails, provided the A-side values are
    not the empty string and the B-side values are not null. *)
Lemma earlier_condition_test ra rb (l : list (string * string)) :
  (forall ca cb, In (ca, cb) l ->
     col ra ca <> Some EmptyString /\ col rb cb <> None) ->
  eval_join ra rb l = F
  <-> forallb (fun lr => pd_eq (col ra (fst lr)) (col rb (snd lr))) l = false.
Proof.
  rewrite eval_join_F. induction l as [|[ca cb] l IH]; intros H; simpl.
  - split; [intros E; inversion E | discriminate].
  - rewrite List.Exists_cons, andb_false_iff, IH
      by (intros; apply H; right; assumption).
    assert (E : eval_conjunct ra rb (ca, cb) = F
                <-> pd_eq (col ra ca) (col rb cb) = false).
    { destruct (H ca cb (or_introl eq_refl)) as [Ha Hb].
      unfold eval_conjunct, sql_ne, sql_eq, is_not_null, of_bool, pd_eq.
      destruct (col ra ca) as [s|], (col rb cb) as [t|]; simpl;
        try contradiction; try tauto.
      destruct (String.eqb_spec s t) as [->|Hne]; simpl.
      - destruct (String.eqb_spec t EmptyString) as [->|Hne2]; simpl;
          [contradiction | split; discriminate].
      - tauto. }
    rewrite E. tauto.
Qed.

Lemma exclusion_test (lk rk : list string) (ta tb : list record)
    (on_l on_r : list string) (blocks : list pass_columns) ra rb :
  (forall c, In c lk <-> In c rk) ->
  Forall (within lk rk) blocks ->
  Forall (no_blank_clash ta tb) blocks ->
  In ra ta -> In rb tb ->
  Forall (fun j => eval_join ra rb j = F) (map condition_of blocks)
  <-> not_seen (map comparisons blocks)
        (pair_of lk rk on_l on_r ((O, ra), (O, rb))) = true.
Proof.
  intros Hlr Hw Hc Ha Hb. unfold not_seen.
  induction blocks as [|q qs IH]; simpl.
  - split; [reflexivity | constructor].
  - inversion Hw as [|? ? Hq Hw']; subst.
    inversion Hc as [|? ? [Hca Hcb] Hc']; subst.
    rewrite List.Forall_cons_iff, andb_true_iff, negb_true_iff, IH by assumption.
    rewrite (statement_same_names lk rk Hlr _ _ _ _ q Hq).
    unfold condition_of. rewrite earlier_condition_test; [tauto|].
    intros ca cb Hin. split.
    + apply Hca; [exact Ha | eapply in_combine_l; eauto].
    + apply Hcb; [exact Hb | eapply in_combine_r; eauto].
Qed.

Section OnePass.

Variables (ida idb : string) (ta tb : list record).
Variable prev : list pass_columns.
Variable p : pass_columns.

Hypothesis prev_wf : Forall (well_formed_pass ida idb) prev.
Hypothesis prev_clash : Forall (no_blank_clash ta tb) prev.
Hypothesis p_wf : well_formed_pass ida idb p.
Hypothesis idx_a_unique : List.NoDup (map idx ta).
Hypothesis idx_b_unique : List.NoDup (map idx tb).

Let lk := keep_of (map fst prev).
Let rk := keep_of (map snd prev).

Lemma kept_alike c : In c lk <-> In c rk.
Proof.
  unfold lk, rk. rewrite !keep_of_In. rewrite List.Forall_forall in prev_wf.
  split; intros (b & Hb & Hc); apply in_map_iff in Hb;
    destruct Hb as (q & <- & Hq); destruct (prev_wf q Hq) as (_ & _ & Hsame & _).
  - exists (snd q). split; [apply in_map; exact Hq | apply Hsame; exact Hc].
  - exists (fst q). split; [apply in_map; exact Hq | apply Hsame; exact Hc].
Qed.

Lemma prev_within :
  Forall (fun q => fst q <> [] /\ length (fst q) = length (snd q) /\ within lk rk q) prev.
Proof.
  rewrite List.Forall_forall in *. intros q Hq.
  destruct (prev_wf q Hq) as (Hne & Hlen & _ & _).
  repeat split; auto; intros c Hc; apply keep_of_In.
  - exists (fst q). split; [apply in_map; exact Hq | exact Hc].
  - exists (snd q). split; [apply in_map; exact Hq | exact Hc].
Qed.

(** On the rows of the two tables the ON clause of the relational join
    and the tests of the in-memory index agree. *)
Lemma join_test ra rb :
  In ra ta -> In rb tb ->
  is_true (eval_full ra rb (mkFull (condition_of p) (map condition_of prev) None))
  = (non_empty_on (fst p) ra && has_keys (fst p) ra)
    && ((non_empty_on (snd p) rb && has_keys (snd p) rb) && link_test prev p ra rb).
Proof.
  intros Ha Hb. apply eq_iff_eq_true.
  rewrite is_true_T, eval_full_T. unfold condition_of at 1.
  destruct p_wf as (_ & Hlen & _ & _).
  rewrite (pass_condition_test ra rb _ _ Hlen).
  rewrite (exclusion_test lk rk ta tb (fst p) (snd p) prev ra rb kept_alike).
  2:{ eapply List.Forall_impl; [|exact prev_within]. simpl. tauto. }
  2: exact prev_clash. 2: exact Ha. 2: exact Hb.
  unfold link_test, pair_test; simpl. fold lk rk. rewrite !andb_true_iff. tauto.
Qed.

Lemma relational_step :
  find_pass_candidates (fst p) (snd p) ida idb (map condition_of prev) ta tb false
  = Ok (pass_rows ida idb ta tb prev p, map condition_of (prev ++ [p])).
Proof.
  destruct p_wf as (Hne & Hlen & _ & _).
  unfold find_pass_candidates.
  rewrite get_pass_join_cond_same_length by exact Hlen. simpl.
  rewrite exclude_past_join_cond_eq, update_past_join_cond_eq.
  unfold execute_blocking_join; simpl.
  destruct (combine (fst p) (snd p)) as [|c cs] eqn:E.
  - destruct (fst p); [contradiction|]. destruct (snd p); discriminate.
  - simpl. rewrite map_app. unfold pass_rows, joined, condition_of. simpl.
    rewrite E. reflexivity.
Qed.

Lemma link_pairs_joined :
  map (fun q : (nat * record) * (nat * record) => (snd (fst q), snd (snd q)))
      (link_pairs lk rk (fst p) (snd p) (map comparisons prev)
         (List.filter (non_empty_on (fst p)) ta)
         (List.filter (non_empty_on (snd p)) tb))
  = joined ta tb prev p.
Proof.
  unfold link_pairs, joined, joined_rows.
  rewrite (join_of_filtered
             (fun ra rb => is_true (eval_full ra rb
                (mkFull (condition_of p) (map condition_of prev) None)))
             (link_test prev p)
             (fun r => non_empty_on (fst p) r && has_keys (fst p) r)
             (fun r => non_empty_on (snd p) r && has_keys (snd p) r))
    by (intros; apply join_test; assumption).
  etransitivity.
  - exact (join_forget (link_test prev p) (has_keys (fst p)) (has_keys (snd p))
             (enumerate (List.filter (non_empty_on (fst p)) ta))
             (enumerate (List.filter (non_empty_on (snd p)) tb))).
  - rewrite !map_snd_enumerate, !filter_filter. reflexivity.
Qed.

Lemma check_side_ok (id : string) rows on keep :
  (forall c, In c (on ++ keep) -> c <> id /\ c <> "idx") ->
  check_side (mkFrame (Some id) rows) on keep (length on) = Ok tt.
Proof.
  intros H. unfold check_side.
  assert (E : forallb (is_column (mkFrame (Some id) rows)) (on ++ keep) = true).
  { apply forallb_forall. intros c Hc. destruct (H c Hc) as [H1 H2].
    unfold is_column; simpl. apply andb_true_iff. split; apply negb_true_iff.
    - apply String.eqb_neq. exact H1.
    - apply String.eqb_neq. exact H2. }
  rewrite E, Nat.eqb_refl. reflexivity.
Qed.

Lemma kept_columns c :
  In c lk \/ In c rk -> c <> ida /\ c <> idb /\ c <> "idx".
Proof.
  intros H. assert (Hl : In c lk) by (destruct H; [|apply kept_alike]; assumption).
  unfold lk in Hl. apply keep_of_In in Hl. destruct Hl as (b & Hb & Hc).
  apply in_map_iff in Hb. destruct Hb as (q & <- & Hq).
  rewrite List.Forall_forall in prev_wf.
  destruct (prev_wf q Hq) as (_ & _ & _ & Hcol). auto.
Qed.

Lemma in_memory_step :
  find_block (mkFrame (Some ida) ta) (Some (mkFrame (Some idb) tb))
    (fst p) (snd p) false (map fst prev) (map snd prev)
  = Ok (pass_rows ida idb ta tb prev p,
        (map fst (prev ++ [p]), map snd (prev ++ [p]))).
Proof.
  destruct p_wf as (Hne & Hlen & Hsame & Hcol).
  assert (Hne_b : snd p <> []).
  { intros E. rewrite E in Hlen. destruct (fst p); [contradiction | discriminate]. }
  unfold find_block, query; simpl.
  destruct (fst p) as [|a pa] eqn:Epa; [contradiction|].
  destruct (snd p) as [|b pb] eqn:Epb; [contradiction|].
  rewrite <- Epa, <- Epb in *. simpl. unfold index.
  rewrite !verify_filtered by assumption. simpl.
  rewrite _link_index_eq. fold lk rk.
  rewrite check_side_ok.
  2:{ intros c Hc. apply in_app_or in Hc. destruct Hc as [Hc | Hc].
      - destruct (Hcol c Hc) as (H1 & _ & H3). auto.
      - destruct (kept_columns c (or_introl Hc)) as (H1 & _ & H3). auto. }
  simpl. rewrite Hlen. rewrite check_side_ok.
  2:{ intros c Hc. apply in_app_or in Hc. destruct Hc as [Hc | Hc].
      - apply Hsame in Hc. destruct (Hcol c Hc) as (_ & H2 & H3). auto.
      - destruct (kept_columns c (or_intror Hc)) as (_ & H2 & H3). auto. }
  simpl.
  rewrite (seen_columns_same_names lk rk kept_alike _ prev prev_within). simpl.
  rewrite make_df_pairs by apply link_pairs_positioned. simpl.
  rewrite !map_app. simpl. rewrite Epb at 1. rewrite <- Epb.
  unfold pass_rows. rewrite <- link_pairs_joined, map_map. reflexivity.
Qed.

End OnePass.

(** Pass after pass, the two backends return the same rows and keep
    states that describe the same earlier passes. *)
Lemma runs_agree ida idb ta tb (plan prev : list pass_columns) :
  List.NoDup (map idx ta) -> List.NoDup (map idx tb) ->
  Forall (well_formed_pass ida idb) prev ->
  Forall (no_blank_clash ta tb) prev ->
  Forall (well_formed_pass ida idb) plan ->
  Forall (no_blank_clash ta tb) (removelast plan) ->
  exists rs,
    relational_run ida idb ta tb plan (map condition_of prev) = Ok rs
    /\ in_memory_run ida idb ta tb plan (map fst prev) (map snd prev) = Ok rs.
Proof.
  intros Ha Hb. revert prev.
  induction plan as [|p rest IH]; intros prev Hpw Hpc Hw Hc.
  - exists []. split; reflexivity.
  - inversion Hw as [|? ? Hp Hw']; subst. simpl.
    rewrite (relational_step ida idb ta tb prev p Hp).
    rewrite (in_memory_step ida idb ta tb prev p Hpw Hpc Hp Ha Hb). simpl.
    destruct rest as [|q rest].
    + exists [pass_rows ida idb ta tb prev p]. split; reflexivity.
    + inversion Hc as [|? ? Hpc1 Hc']; subst.
      destruct (IH (prev ++ [p])) as (rs & E1 & E2).
      * apply List.Forall_app. split; [exact Hpw|].
        constructor; [exact Hp | constructor].
      * apply List.Forall_app. split; [exact Hpc|].
        constructor; [exact Hpc1 | constructor].
      * exact Hw'.
      * exact Hc'.
      * rewrite E1, E2.
        exists (pass_rows ida idb ta tb prev p :: rs). split; reflexivity.
Qed.

End Agreement.

(** C1.  The two backends do not produce the same pairs on two rows that
    share an empty [f1] and a key [k] in [f2]: after a pass on [f1], which
    pairs nothing in either backend, the relational pass on [f2] pairs the
    two rows, since the earlier condition is false on an empty value; the
    in-memory pass on [f2] drops the pair, since the two empty strings
    compare equal. *)
Theorem backends_disagree_on_shared_blank :
  ~ backends_agree "id" "id" blank_a blank_b [(["f1"], ["f1"]); (["f2"], ["f2"])].
Proof.
  intros (rs & rm & H1 & H2 & HP).
  vm_compute in H1. vm_compute in H2.
  inversion H1; subst; clear H1. inversion H2; subst; clear H2.
  simpl in HP. apply Permutation_length in HP. discriminate.
Qed.

(** What each backend returns on the two rows, pass by pass. *)
Example shared_blank_pass_by_pass :
  let plan := [(["f1"], ["f1"]); (["f2"], ["f2"])] in
  relational_run "id" "id" blank_a blank_b plan []
  = Ok [[]; [mkCandidate (Some "a0") (Some "b0") 0 0]]
  /\ in_memory_run "id" "id" blank_a blank_b plan [] [] = Ok [[]; []].
Proof. vm_compute. split; reflexivity. Qed.

(** The same on the whole run: with a relational store the pair is read
    in pass 2, without one no pair is read. *)
Example shared_blank_run :
  read_pairs (log_of (main (blank_config true) blank_a blank_b ∅ ∅))
  = [mkCandidate (Some "a0") (Some "b0") 0 0]
  /\ read_pairs (log_of (main (blank_config false) blank_a blank_b ∅ ∅)) = [].
Proof. vm_compute. split; reflexivity. Qed.

Example two_key_relational :
  relational_run "id" "id" two_key_a two_key_b two_key_plan []
  = Ok [[mkCandidate (Some "a0") (Some "b0") 0 0;
         mkCandidate (Some "a1") (Some "b2") 1 2];
        [mkCandidate (Some "a2") (Some "b1") 2 1]].
Proof. vm_compute. reflexivity. Qed.

(** A row of side B that holds NULL in [f1] where side A holds a value:
    after a pass on [f1], the relational pass on [f2] loses the pair, since
    the earlier condition is unknown on it; the in-memory pass keeps it. *)
Example backends_disagree_on_null :
  let ta := [rec_of 0 [("id", "a0"); ("f1", "x"); ("f2", "k")]] in
  let tb := [rec_of 0 [("id", "b0"); ("f2", "k")]] in
  let plan := [(["f1"], ["f1"]); (["f2"], ["f2"])] in
  relational_run "id" "id" ta tb plan [] = Ok [[]; []]
  /\ in_memory_run "id" "id" ta tb plan [] []
     = Ok [[]; [mkCandidate (Some "a0") (Some "b0") 0 0]].
Proof. vm_compute. split; reflexivity. Qed.

(** * Further properties of the code *)

(** ** The relational backend, pass by pass *)

(** X1.  [get_pass_join_cond] pairs the columns of side A with those of
    side B by position: it raises [IndexError] exactly when side B has
    fewer columns than side A, and otherwise returns one conjunct for each
    column of side A, any further columns of side B being left out. *)
Theorem get_pass_join_cond_total pa pb :
  Sql.get_pass_join_cond pa pb
  = if (length pa <=? length pb)%nat then Ok (combine pa pb) else Raise IndexError.
Proof.
  revert pb. induction pa as [|a pa IH]; intros pb; simpl; [reflexivity|].
  destruct pb as [|b pb]; simpl; [reflexivity|].
  rewrite IH. destruct (length pa <=? length pb)%nat; reflexivity.
Qed.

(** A conjunct is false exactly when side A is blank or the two values
    are known and different; it is unknown when side B is NULL against a
    value of side A. *)
Lemma eval_conjunct_F ra rb ca cb :
  Sql.eval_conjunct ra rb (ca, cb) = Sql.F <-> differ_on ra rb (ca, cb).
Proof.
  unfold differ_on, Sql.eval_conjunct, Sql.sql_ne, Sql.sql_eq, Sql.is_not_null,
    Sql.of_bool, blank. cbn [fst snd].
  destruct (col ra ca) as [s|], (col rb cb) as [t|]; simpl.
  - destruct (String.eqb_spec s t) as [->|Hne];
      destruct (String.eqb_spec t EmptyString) as [->|Hne2]; simpl;
      try destruct (String.eqb_spec s EmptyString) as [->|Hne3]; simpl;
      split; intros H; auto; try discriminate.
    + destruct H as [H | (u & v & Hu & Hv & Hd)]; [discriminate|]. congruence.
    + right. exists s, EmptyString. auto.
    + right. exists s, t. auto.
  - destruct (String.eqb_spec s EmptyString) as [->|Hne]; simpl;
      split; intros H; auto; try discriminate.
    destruct H as [H | (u & v & _ & Hv & _)]; discriminate.
  - split; auto.
  - split; auto.
Qed.

Lemma agree_on_T ra rb j :
  Forall (agree_on ra rb) j <-> Sql.eval_join ra rb j = Sql.T.
Proof.
  rewrite SqlFacts.eval_join_T. split; intros H;
    (eapply List.Forall_impl; [|exact H]); intros [ca cb] Hc;
    apply SqlFacts.eval_conjunct_T; exact Hc.
Qed.

Lemma differ_on_F ra rb j :
  Exists (differ_on ra rb) j <-> Sql.eval_join ra rb j = Sql.F.
Proof.
  rewrite SqlFacts.eval_join_F. split; intros H;
    (eapply List.Exists_impl; [|exact H]); intros [ca cb] Hc;
    apply eval_conjunct_F; exact Hc.
Qed.

(** X2.  A linking pass of the relational backend returns a candidate
    exactly for the pairs of rows that hold the same non-empty value in
    every pair of blocking columns and on which every condition of the state
    fails, that is, has a column where side A is blank or the two values are
    known and different. *)
Theorem link_pass_selects pa pb ida idb p ta tb rows p' c :
  Sql.find_pass_candidates pa pb ida idb p ta tb false = Ok (rows, p') ->
  In c rows
  <-> exists ra rb,
        In ra ta /\ In rb tb /\ c = Sql.select_row ida idb ra rb
        /\ Forall (agree_on ra rb) (combine pa pb)
        /\ Forall (fun j => Exists (differ_on ra rb) j) p.
Proof.
  intros H. apply SqlFacts.find_pass_candidates_Ok in H.
  destruct H as (-> & _ & _ & _).
  rewrite in_map_iff. split.
  - intros ([ra rb] & <- & Hq). apply SqlFacts.in_joined_rows in Hq.
    destruct Hq as (Ha & Hb & Ht). apply SqlFacts.eval_full_T in Ht.
    destruct Ht as (Hj & Hp & _). exists ra, rb. repeat split; auto.
    + apply agree_on_T. exact Hj.
    + eapply List.Forall_impl; [|exact Hp]. intros j Hf.
      apply differ_on_F. exact Hf.
  - intros (ra & rb & Ha & Hb & -> & Hj & Hp). exists (ra, rb).
    split; [reflexivity|]. apply SqlFacts.in_joined_rows.
    repeat split; auto. apply SqlFacts.eval_full_T. repeat split; auto.
    + apply agree_on_T. exact Hj.
    + eapply List.Forall_impl; [|exact Hp]. intros j Hf.
      apply differ_on_F. exact Hf.
Qed.

Lemma link_pass_selects_witness :
  let c := mkCandidate (Some "a2") (Some "b1") 2 1 in
  Sql.find_pass_candidates ["dob"] ["dob"] "id" "id" [[("ssn", "ssn")]]
    two_key_a two_key_b false
  = Ok ([c], [[("ssn", "ssn")]; [("dob", "dob")]])
  /\ (In c [c]
      <-> exists ra rb,
            In ra two_key_a /\ In rb two_key_b /\ c = Sql.select_row "id" "id" ra rb
            /\ Forall (agree_on ra rb) (combine ["dob"] ["dob"])
            /\ Forall (fun j => Exists (differ_on ra rb) j) [[("ssn", "ssn")]]).
Proof.
  intros c.
  assert (H : Sql.find_pass_candidates ["dob"] ["dob"] "id" "id" [[("ssn", "ssn")]]
                two_key_a two_key_b false
              = Ok ([c], [[("ssn", "ssn")]; [("dob", "dob")]])) by (vm_compute; reflexivity).
  split; [exact H|].
  exact (link_pass_selects _ _ _ _ _ _ _ _ _ c H).
Defined.

(** X3.  In a deduplication the relational backend returns only pairs of
    rows of the table whose two identifiers are known and different and
    whose ordinal on side A comes before the ordinal on side B in the order
    of the column [idx] of the store: the lower ordinal first when the
    column holds numbers and, when it holds the ordinals as text, the
    ordinal whose decimal spelling sorts first. *)
Theorem relational_dedup_pairs pa pb ida idb p ta tb rows p' c :
  Sql.find_pass_candidates pa pb ida idb p ta tb true = Ok (rows, p') ->
  In c rows ->
  (exists s t, indv_id_a c = Some s /\ indv_id_b c = Some t /\ s <> t)
  /\ exists ra rb,
       In ra ta /\ In rb tb /\ c = Sql.select_row ida idb ra rb
       /\ (idx_text ra = false -> idx_text rb = false -> idx_a c < idx_b c)
       /\ (idx_text ra = true -> idx_text rb = true ->
           0 <= idx_a c -> 0 <= idx_b c ->
           String.ltb (pretty (idx_a c)) (pretty (idx_b c)) = true).
Proof.
  intros H Hc.
  destruct (find_pass_candidates_dedup _ _ _ _ _ _ _ _ _ _ H Hc)
    as (ra & rb & Ha & Hb & -> & Hlt & Hid).
  split; [exact Hid|]. exists ra, rb. split; [exact Ha|]. split; [exact Hb|].
  split; [reflexivity|]. unfold Sql.idx_lt in Hlt. simpl. split.
  - intros Ea Eb. rewrite Ea, Eb in Hlt. apply Z.ltb_lt. exact Hlt.
  - intros Ea Eb _ _. rewrite Ea, Eb in Hlt. exact Hlt.
Qed.

Lemma relational_dedup_pairs_witness :
  let c := mkCandidate (Some "p") (Some "q") 0 1 in
  let rows := [c; mkCandidate (Some "q") (Some "p") 1 2] in
  Sql.find_pass_candidates ["ssn"] ["ssn"] "id" "id" [] dedup_rows dedup_rows true
  = Ok (rows, [[("ssn", "ssn")]])
  /\ In c rows
  /\ (exists s t, indv_id_a c = Some s /\ indv_id_b c = Some t /\ s <> t)
  /\ exists ra rb,
       In ra dedup_rows /\ In rb dedup_rows /\ c = Sql.select_row "id" "id" ra rb
       /\ (idx_text ra = false -> idx_text rb = false -> idx_a c < idx_b c)
       /\ (idx_text ra = true -> idx_text rb = true ->
           0 <= idx_a c -> 0 <= idx_b c ->
           String.ltb (pretty (idx_a c)) (pretty (idx_b c)) = true).
Proof.
  intros c rows.
  assert (H : Sql.find_pass_candidates ["ssn"] ["ssn"] "id" "id" [] dedup_rows dedup_rows true
              = Ok (rows, [[("ssn", "ssn")]])) by (vm_compute; reflexivity).
  assert (Hc : In c rows) by (left; reflexivity).
  split; [exact H|]. split; [exact Hc|].
  exact (relational_dedup_pairs _ _ _ _ _ _ _ _ _ _ H Hc).
Defined.

(** Over a text column the rows of ordinals 9 and 10 are paired with 10
    first, since its spelling sorts before that of 9. *)
Example relational_dedup_on_text_ordinals :
  Sql.find_pass_candidates ["ssn"] ["ssn"] "id" "id" [] text_rows text_rows true
  = Ok ([mkCandidate (Some "q") (Some "p") 10 9], [[("ssn", "ssn")]]).
Proof. vm_compute. reflexivity. Qed.

(** X4.  The state that [find_pass_candidates] returns excludes every
    pair of rows that the state it was given excluded, and every pair that
    holds the same non-empty value in each pair of blocking columns of the
    pass, whether the pass returned it or an earlier one had. *)
Theorem pass_condition_joins_exclusions pa pb ida idb p ta tb dedup rows p' ra rb :
  Sql.find_pass_candidates pa pb ida idb p ta tb dedup = Ok (rows, p') ->
  (Exclusion.excluded_sql p ra rb = true -> Exclusion.excluded_sql p' ra rb = true)
  /\ (Forall (agree_on ra rb) (combine pa pb) ->
      Exclusion.excluded_sql p' ra rb = true).
Proof.
  intros H. apply SqlFacts.find_pass_candidates_Ok in H.
  destruct H as (_ & -> & Hne & Hlen). split.
  - intros He. rewrite <- SqlFacts.update_past_join_cond_eq.
    apply update_keeps_excluded. exact He.
  - intros Hj. unfold Exclusion.excluded_sql.
    destruct (p ++ [combine pa pb]) as [|j q] eqn:E; [destruct p; discriminate|].
    rewrite <- E.
    assert (Ht : Sql.eval_past ra rb (p ++ [combine pa pb]) = Sql.T).
    { apply SqlFacts.eval_past_T. apply List.Exists_exists.
      exists (combine pa pb). split; [apply in_or_app; right; left; reflexivity|].
      apply agree_on_T. exact Hj. }
    rewrite Ht. reflexivity.
Qed.

Lemma pass_condition_joins_exclusions_witness :
  let ra := ssn_side "a" 0 "1" in
  let rb := ssn_side "b" 0 "1" in
  Sql.find_pass_candidates ["ssn"] ["ssn"] "id" "id" [] ex_a ex_b false
  = Ok (ssn_candidates, [[("ssn", "ssn")]])
  /\ Forall (agree_on ra rb) (combine ["ssn"] ["ssn"])
  /\ Exclusion.excluded_sql [[("ssn", "ssn")]] ra rb = true.
Proof.
  intros ra rb.
  assert (H : Sql.find_pass_candidates ["ssn"] ["ssn"] "id" "id" [] ex_a ex_b false
              = Ok (ssn_candidates, [[("ssn", "ssn")]])) by (vm_compute; reflexivity).
  assert (Hj : Forall (agree_on ra rb) (combine ["ssn"] ["ssn"])).
  { constructor; [|constructor]. exists "1". repeat split. discriminate. }
  split; [exact H|]. split; [exact Hj|].
  exact (proj2 (pass_condition_joins_exclusions _ _ _ _ _ _ _ _ _ _ ra rb H) Hj).
Defined.

(** Rows of a table with unique ordinals are known by their ordinal. *)
Lemma idx_inj (l : list record) r r' :
  List.NoDup (map idx l) -> In r l -> In r' l -> idx r = idx r' -> r = r'.
Proof.
  induction l as [|x l IH]; simpl; [tauto|].
  intros Hnd [-> | Hr] [-> | Hr'] E; auto.
  - inversion Hnd as [|? ? Hx _]; subst. exfalso. apply Hx.
    rewrite E. apply in_map. exact Hr'.
  - inversion Hnd as [|? ? Hx _]; subst. exfalso. apply Hx.
    rewrite <- E. apply in_map. exact Hr.
  - inversion Hnd; subst. auto.
Qed.

Lemma eval_conjunct_not_F ra rb cc :
  half_known ra rb cc -> Sql.eval_conjunct ra rb cc <> Sql.F.
Proof.
  destruct cc as [ca cb]. intros (s & Hs & Hne & Hb) HF. cbn [fst snd] in *.
  apply eval_conjunct_F in HF. destruct HF as [HF | (u & t & Hu & Ht & Hd)];
    cbn [fst snd] in *.
  - rewrite Hs in HF. simpl in HF. apply String.eqb_eq in HF. contradiction.
  - destruct Hb as [Hb | Hb]; congruence.
Qed.

(** X5.  Over tables with unique ordinals, a pair of rows on which a
    condition of the state is unknown, side B being NULL in one of its
    columns and repeating side A in the others, is returned by no later
    pass, although the earlier pass did not pair the two rows either:
    [NOT] of an unknown condition is not true. *)
Theorem null_on_side_b_hides_pair pa pb ida idb p ta tb dedup rows p' ra rb j :
  Sql.find_pass_candidates pa pb ida idb p ta tb dedup = Ok (rows, p') ->
  List.NoDup (map idx ta) -> List.NoDup (map idx tb) ->
  In ra ta -> In rb tb ->
  In j p ->
  Forall (half_known ra rb) j ->
  Exists (fun cc => col rb (snd cc) = None) j ->
  ~ In (Sql.select_row ida idb ra rb) rows
  /\ ~ Forall (agree_on ra rb) j.
Proof.
  intros H Hna Hnb Ha Hb Hj Hall Hnull. split; [|clear H].
  2:{ intros Hag. apply List.Exists_exists in Hnull.
      destruct Hnull as (cc & Hcc & Hn). rewrite List.Forall_forall in Hag.
      destruct (Hag cc Hcc) as (s & _ & Hs & _). congruence. }
  intros Hin.
  apply SqlFacts.find_pass_candidates_Ok in H. destruct H as (-> & _ & _ & _).
  apply in_map_iff in Hin. destruct Hin as ([ra' rb'] & E & Hq).
  apply SqlFacts.in_joined_rows in Hq. destruct Hq as (Ha' & Hb' & Ht).
  unfold Sql.select_row in E. injection E as _ _ E1 E2.
  assert (ra' = ra) by (apply (idx_inj ta); assumption).
  assert (rb' = rb) by (apply (idx_inj tb); assumption).
  subst ra' rb'. apply SqlFacts.eval_full_T in Ht. destruct Ht as (_ & Hp & _).
  rewrite List.Forall_forall in Hp. specialize (Hp j Hj).
  apply SqlFacts.eval_join_F in Hp. apply List.Exists_exists in Hp.
  destruct Hp as (cc & Hcc & HF). rewrite List.Forall_forall in Hall.
  exact (eval_conjunct_not_F ra rb cc (Hall cc Hcc) HF).
Qed.

Lemma null_on_side_b_hides_pair_witness :
  let ra := rec_of 0 [("id", "a0"); ("f1", "x"); ("f2", "k")] in
  let rb := rec_of 0 [("id", "b0"); ("f2", "k")] in
  Sql.find_pass_candidates ["f2"] ["f2"] "id" "id" [[("f1", "f1")]] null_a null_b false
  = Ok ([], [[("f1", "f1")]; [("f2", "f2")]])
  /\ Forall (agree_on ra rb) (combine ["f2"] ["f2"])
  /\ ~ In (Sql.select_row "id" "id" ra rb) []
  /\ ~ Forall (agree_on ra rb) [("f1", "f1")].
Proof.
  intros ra rb.
  assert (H : Sql.find_pass_candidates ["f2"] ["f2"] "id" "id" [[("f1", "f1")]]
                null_a null_b false
              = Ok ([], [[("f1", "f1")]; [("f2", "f2")]])) by (vm_compute; reflexivity).
  split; [exact H|]. split.
  { constructor; [|constructor]. exists "k". repeat split. discriminate. }
  apply (null_on_side_b_hides_pair _ _ _ _ _ _ _ _ _ _ ra rb [("f1", "f1")] H).
  - simpl. repeat constructor. simpl. tauto.
  - simpl. repeat constructor. simpl. tauto.
  - left. reflexivity.
  - left. reflexivity.
  - left. reflexivity.
  - constructor; [|constructor]. exists "x". split; [reflexivity|].
    split; [discriminate | left; reflexivity].
  - constructor. reflexivity.
Defined.

(** ** A relational run never returns a pair twice *)

Lemma NoDup_tagged {B : Type} (g : B -> Z) (x : Z) (l : list B) :
  List.NoDup (map g l) -> List.NoDup (map (fun b => (x, g b)) l).
Proof.
  induction l as [|b l IH]; simpl; intros H; [constructor|].
  inversion H as [|? ? Hb Hl]; subst. constructor; [|apply IH; exact Hl].
  intros Hin. apply in_map_iff in Hin. destruct Hin as (b' & E & Hb').
  inversion E as [E']. apply Hb. rewrite <- E'. apply in_map. exact Hb'.
Qed.

Lemma NoDup_product {A B : Type} (f : A -> Z) (g : B -> Z) (F : A -> list B) l :
  List.NoDup (map f l) -> (forall a, List.NoDup (map g (F a))) ->
  List.NoDup (flat_map (fun a => map (fun b => (f a, g b)) (F a)) l).
Proof.
  intros Hl HF. induction l as [|a l IH]; simpl; [constructor|].
  inversion Hl as [|? ? Ha Hl']; subst.
  apply List.NoDup_app.
  - apply NoDup_tagged, HF.
  - apply IH. exact Hl'.
  - intros q Hq Hq'. apply in_map_iff in Hq. destruct Hq as (b & <- & _).
    apply in_flat_map in Hq'. destruct Hq' as (a' & Ha' & Hq').
    apply in_map_iff in Hq'. destruct Hq' as (b' & E & _). inversion E as [[E1 E2]].
    apply Ha. rewrite <- E1. apply in_map. exact Ha'.
Qed.

Lemma NoDup_filter_map {A : Type} (g : A -> Z) (P : A -> bool) l :
  List.NoDup (map g l) -> List.NoDup (map g (List.filter P l)).
Proof.
  induction l as [|a l IH]; simpl; intros H; [constructor|].
  inversion H as [|? ? Ha Hl]; subst.
  destruct (P a); simpl; [|apply IH; exact Hl].
  constructor; [|apply IH; exact Hl].
  intros Hin. apply Ha. apply in_map_iff in Hin. destruct Hin as (x & E & Hx).
  apply filter_In in Hx. rewrite <- E. apply in_map. tauto.
Qed.

(** The pairs of ordinals of one pass. *)
Lemma pass_ordinals_NoDup ida idb ta tb f :
  List.NoDup (map idx ta) -> List.NoDup (map idx tb) ->
  List.NoDup (map ordinal_pair
                (map (fun q => Sql.select_row ida idb (fst q) (snd q))
                     (Sql.joined_rows ta tb f))).
Proof.
  intros Ha Hb. rewrite map_map. unfold Sql.joined_rows.
  rewrite FrameFacts.map_flat_map.
  erewrite flat_map_ext; [apply (NoDup_product idx idx
     (fun ra => List.filter (fun rb => Sql.is_true (Sql.eval_full ra rb f)) tb));
     [exact Ha | intros a; apply NoDup_filter_map; exact Hb]|].
  intros a. rewrite map_map. reflexivity.
Qed.

(** What a run of the plan knows of each of its candidates. *)
Lemma relational_run_rows ida idb ta tb plan past rs :
  relational_run ida idb ta tb plan past = Ok rs ->
  forall c, In c (concat rs) ->
  exists ra rb, In ra ta /\ In rb tb /\ c = Sql.select_row ida idb ra rb
                /\ Forall (fun j => Sql.eval_join ra rb j = Sql.F) past.
Proof.
  revert past rs. induction plan as [|q plan IH]; intros past rs H c Hc; simpl in H.
  - inversion H; subst. destruct Hc.
  - destruct (Sql.find_pass_candidates _ _ _ _ _ _ _ _) as [[rows p']|e] eqn:E;
      simpl in H; [|discriminate].
    destruct (relational_run ida idb ta tb plan p') as [more|e] eqn:E2;
      simpl in H; [|discriminate].
    inversion H; subst; clear H. simpl in Hc. apply in_app_or in Hc.
    pose proof (SqlFacts.find_pass_candidates_Ok _ _ _ _ _ _ _ _ _ _ E) as (Hr & Hp & _).
    destruct Hc as [Hc | Hc].
    + rewrite Hr in Hc. apply in_map_iff in Hc. destruct Hc as ([ra rb] & <- & Hq).
      apply SqlFacts.in_joined_rows in Hq. destruct Hq as (Ha & Hb & Ht).
      apply SqlFacts.eval_full_T in Ht. destruct Ht as (_ & Hpast & _).
      exists ra, rb. auto.
    + destruct (IH _ _ E2 c Hc) as (ra & rb & Ha & Hb & -> & Hpast).
      exists ra, rb. repeat split; auto. subst p'.
      apply List.Forall_app in Hpast. tauto.
Qed.

(** X6.  Over tables with unique ordinals, the passes of a linking run of
    the relational backend, the state threaded from each to the next, never
    return the same pair of ordinals twice, neither within a pass nor in two
    passes. *)
Theorem relational_run_never_repeats_a_pair ida idb ta tb plan past rs :
  List.NoDup (map idx ta) -> List.NoDup (map idx tb) ->
  relational_run ida idb ta tb plan past = Ok rs ->
  List.NoDup (map ordinal_pair (concat rs)).
Proof.
  intros Hna Hnb. revert past rs.
  induction plan as [|q plan IH]; intros past rs H; simpl in H.
  - inversion H; subst. constructor.
  - destruct (Sql.find_pass_candidates _ _ _ _ _ _ _ _) as [[rows p']|e] eqn:E;
      simpl in H; [|discriminate].
    destruct (relational_run ida idb ta tb plan p') as [more|e] eqn:E2;
      simpl in H; [|discriminate].
    inversion H; subst; clear H. simpl. rewrite map_app.
    pose proof (SqlFacts.find_pass_candidates_Ok _ _ _ _ _ _ _ _ _ _ E) as (Hr & Hp & _).
    apply List.NoDup_app.
    + rewrite Hr. apply pass_ordinals_NoDup; assumption.
    + apply (IH _ _ E2).
    + intros o Ho Ho'. rewrite Hr in Ho. rewrite map_map in Ho.
      apply in_map_iff in Ho. destruct Ho as ([ra rb] & <- & Hq).
      apply SqlFacts.in_joined_rows in Hq. destruct Hq as (Ha & Hb & Ht).
      apply SqlFacts.eval_full_T in Ht. destruct Ht as (Hj & _ & _).
      apply in_map_iff in Ho'. destruct Ho' as (c & Ec & Hc).
      destruct (relational_run_rows _ _ _ _ _ _ _ E2 c Hc)
        as (ra' & rb' & Ha' & Hb' & -> & Hpast).
      unfold ordinal_pair, Sql.select_row in Ec; simpl in Ec. inversion Ec as [[E1 E3]].
      assert (ra' = ra) by (apply (idx_inj ta); assumption).
      assert (rb' = rb) by (apply (idx_inj tb); assumption).
      subst ra' rb' p'. apply List.Forall_app in Hpast. destruct Hpast as [_ Hlast].
      inversion Hlast as [|? ? Hf _]; subst. congruence.
Qed.

Lemma two_key_unique :
  List.NoDup (map idx two_key_a) /\ List.NoDup (map idx two_key_b).
Proof. split; simpl; repeat constructor; simpl; intuition discriminate. Qed.

Lemma relational_run_never_repeats_a_pair_witness :
  List.NoDup (map idx two_key_a) /\ List.NoDup (map idx two_key_b)
  /\ relational_run "id" "id" two_key_a two_key_b two_key_plan [] = Ok two_key_rows
  /\ List.NoDup (map ordinal_pair (concat two_key_rows)).
Proof.
  destruct two_key_unique as [Ha Hb].
  assert (H : relational_run "id" "id" two_key_a two_key_b two_key_plan []
              = Ok two_key_rows) by (vm_compute; reflexivity).
  repeat split; try assumption.
  exact (relational_run_never_repeats_a_pair _ _ _ _ _ _ _ Ha Hb H).
Defined.

(** ** The ground-truth passes *)

Lemma single_pass_Ok ca cb ida idb p ta tb dedup :
  exists rows,
    Sql.find_pass_candidates [ca] [cb] ida idb p ta tb dedup
    = Ok (rows, p ++ [[(ca, cb)]]).
Proof.
  unfold Sql.find_pass_candidates; simpl.
  rewrite SqlFacts.exclude_past_join_cond_eq, SqlFacts.update_past_join_cond_eq.
  unfold Sql.execute_blocking_join. destruct dedup; simpl; eauto.
Qed.

Lemma ground_truth_loop_state gids va vb mn ida idb dedup p w cols :
  Forall2 (named_by va vb) gids cols ->
  exists r,
    ground_truth_loop gids va vb mn ida idb dedup (PastSql p) w = Ok r
    /\ fst r = PastSql (p ++ map (fun cc => [cc]) cols)
    /\ df_a (snd r) = df_a w /\ df_b (snd r) = df_b w /\ files (snd r) = files w.
Proof.
  intros H. revert p w.
  induction H as [|g [ca cb] gids cols [Ha Hb] _ IH]; intros p w; simpl.
  - eexists. split; [reflexivity|]. simpl. rewrite app_nil_r. auto.
  - unfold getitem. simpl in Ha, Hb. rewrite Ha, Hb; simpl.
    destruct (single_pass_Ok ca cb ida idb p (table_rows (df_a w)) (rows_b dedup w) dedup)
      as (rows & E).
    rewrite E; simpl.
    destruct (IH (p ++ [[(ca, cb)]])
                 (mkWorld (df_a w) (df_b w)
                    (<[store_name ("candidates_" +:+ mn +:+ "_matching_" +:+ g)
                       := rows]> (tables w))
                    (files w)))
      as (r & Hr & Hs & Hda & Hdb & Hf).
    exists r. split; [exact Hr|]. rewrite Hs, <- app_assoc. auto.
Qed.

Lemma run_ground_truth_ids_passes_Ok gids va vb na nb p w ida idb cols :
  va !! "indv_id" = Some ida -> vb !! "indv_id" = Some idb ->
  Forall2 (named_by va vb) gids cols ->
  exists r,
    run_ground_truth_ids_passes gids va vb na nb (PastSql p) w = Ok r
    /\ fst r = PastSql (p ++ map (fun cc => [cc]) cols)
    /\ df_a (snd r) = df_a w /\ df_b (snd r) = df_b w /\ files (snd r) = files w.
Proof.
  intros Ha Hb H. unfold run_ground_truth_ids_passes, getitem.
  rewrite Ha, Hb; simpl. apply ground_truth_loop_state. exact H.
Qed.



Lemma ground_truth_loop_KeyError gids va vb mn ida idb dedup p w :
  Exists (fun g => va !! g = None \/ vb !! g = None) gids ->
  ground_truth_loop gids va vb mn ida idb dedup (PastSql p) w = Raise KeyError.
Proof.
  intros H. revert p w. induction H as [g gids Hg | g gids _ IH]; intros p w; simpl.
  - unfold getitem. destruct Hg as [Hg | Hg].
    + rewrite Hg. reflexivity.
    + rewrite Hg. destruct (va !! g); reflexivity.
  - unfold getitem.
    destruct (va !! g) as [ca|]; simpl; [|reflexivity].
    destruct (vb !! g) as [cb|]; simpl; [|reflexivity].
    destruct (single_pass_Ok ca cb ida idb p (table_rows (df_a w)) (rows_b dedup w) dedup)
      as (rows & E).
    rewrite E; simpl. apply IH.
Qed.

(** X8.  When a field map lacks the identifier or one of the ground-truth
    ids, [run_ground_truth_ids_passes] raises [KeyError], whatever the
    tables hold. *)
Theorem ground_truth_passes_need_fields gids va vb na nb p w :
  va !! "indv_id" = None \/ vb !! "indv_id" = None
  \/ Exists (fun g => va !! g = None \/ vb !! g = None) gids ->
  run_ground_truth_ids_passes gids va vb na nb (PastSql p) w = Raise KeyError.
Proof.
  unfold run_ground_truth_ids_passes, getitem. intros [H | [H | H]].
  - rewrite H. reflexivity.
  - rewrite H. destruct (va !! "indv_id"); reflexivity.
  - destruct (va !! "indv_id"); simpl; [|reflexivity].
    destruct (vb !! "indv_id"); simpl; [|reflexivity].
    apply ground_truth_loop_KeyError. exact H.
Qed.

Lemma ground_truth_passes_need_fields_witness :
  Exists (fun g => same_vars !! g = None \/ same_vars !! g = None) ["ssn"; "dob"]
  /\ run_ground_truth_ids_passes ["ssn"; "dob"] same_vars same_vars "a" "b"
       (PastSql []) skip_world = Raise KeyError.
Proof.
  assert (H : Exists (fun g => same_vars !! g = None \/ same_vars !! g = None)
                     ["ssn"; "dob"]).
  { apply Exists_cons_tl, Exists_cons_hd. left. reflexivity. }
  split; [exact H|].
  apply ground_truth_passes_need_fields. right. right. exact H.
Defined.

(** ** [run_blocking_pass] with a cursor *)

Lemma omap_named (d : gmap string string) vs cs :
  Forall2 (fun v c => d !! v = Some c) vs cs ->
  omap (fun v => d !! v) vs = cs.
Proof.
  induction 1 as [|v c vs cs Hv _ IH]; [reflexivity|].
  change (omap (fun v => d !! v) (v :: vs))
    with (match d !! v with
          | Some y => y :: omap (fun v => d !! v) vs
          | None => omap (fun v => d !! v) vs
          end).
  rewrite Hv, IH. reflexivity.
Qed.

Lemma Forall2_length_eq {A B : Type} (R : A -> B -> Prop) l k :
  Forall2 R l k -> length l = length k.
Proof. induction 1; simpl; congruence. Qed.

Lemma run_blocking_pass_relational blocks pn va vb na nb p w vs ida idb pa pb :
  blocks !! pn = Some vs -> vs <> [] ->
  va !! "indv_id" = Some ida -> vb !! "indv_id" = Some idb ->
  Forall2 (fun v c => va !! v = Some c) (cleaned vs) pa ->
  Forall2 (fun v c => vb !! v = Some c) (cleaned vs) pb ->
  let pb' := if existsb contains_inv vs then rev pb else pb in
  let dedup := String.eqb nb "dedup" in
  exists rows,
    Sql.find_pass_candidates pa pb' ida idb p (table_rows (df_a w)) (rows_b dedup w) dedup
    = Ok (rows, p ++ [combine pa pb'])
    /\ run_blocking_pass blocks pn va vb na nb (PastSql p) true w
       = Ok (PastSql (p ++ [combine pa pb']),
             mkWorld (df_a w) (df_b w)
               (<[store_name ("candidates_" +:+ match_name na nb +:+ "_p" +:+ pn)
                  := rows]> (tables w))
               (files w)).
Proof.
  intros Hp Hne Ha Hb Hpa Hpb pb' dedup.
  assert (Hla : length pa = length (cleaned vs))
    by (symmetry; eapply Forall2_length_eq; eauto).
  assert (Hlb : length pb = length (cleaned vs))
    by (symmetry; eapply Forall2_length_eq; eauto).
  assert (Hlb' : length pb' = length pa).
  { unfold pb'. destruct (existsb contains_inv vs); rewrite ?length_rev; lia. }
  assert (Hpane : pa <> []).
  { intros ->. simpl in Hla. unfold cleaned in Hla.
    destruct vs; [contradiction|]. destruct (existsb _ _); discriminate. }
  destruct (Sql.find_pass_candidates pa pb' ida idb p (table_rows (df_a w))
              (rows_b dedup w) dedup) as [[rows p']|e] eqn:E.
  2:{ exfalso. unfold Sql.find_pass_candidates in E.
      rewrite SqlFacts.get_pass_join_cond_same_length in E by lia. simpl in E.
      unfold Sql.execute_blocking_join in E.
      destruct (combine pa pb') as [|c cs] eqn:Ec.
      - apply (f_equal (@length _)) in Ec. rewrite length_combine in Ec.
        rewrite Hlb', Nat.min_id in Ec.
        destruct pa; [contradiction | discriminate].
      - rewrite SqlFacts.exclude_past_join_cond_eq in E. unfold dedup in E.
        destruct (String.eqb nb "dedup"); discriminate. }
  pose proof (SqlFacts.find_pass_candidates_Ok _ _ _ _ _ _ _ _ _ _ E) as (_ & -> & _).
  exists rows. split; [reflexivity|].
  unfold run_blocking_pass, getitem. rewrite Hp, Ha, Hb. simpl.
  destruct vs as [|v vs']; [contradiction|].
  unfold cleaned in *. set (inv := existsb contains_inv (v :: vs')) in *.
  set (cl := if inv then map remove_inv (v :: vs') else v :: vs') in *.
  rewrite (omap_named va cl pa Hpa), (omap_named vb cl pb Hpb).
  rewrite Hla, Hlb, Nat.eqb_refl. simpl.
  fold dedup. fold pb'. rewrite E. simpl. unfold match_name. fold dedup.
  reflexivity.
Qed.



(** The inverted pass pairs the two rows, whose names are swapped. *)
Example inverted_pass_pairs_swapped_names :
  Sql.find_pass_candidates ["xf"; "xl"] ["xl"; "xf"] "id" "id" []
    (table_rows (df_a inv_world)) (rows_b false inv_world) false
  = Ok ([mkCandidate (Some "a0") (Some "b0") 0 0], [[("xf", "xl"); ("xl", "xf")]]).
Proof. vm_compute. reflexivity. Qed.

(** X10.  When the second data set is named [dedup], whatever the match
    type, a pass blocks the first data set against itself: the state, the
    tables and the files it leaves do not depend on the frame of side B,
    with and without a cursor. *)
Theorem pass_against_dedup_never_reads_side_b blocks pn va vb na s cursor a b b' t f :
  pass_outcome (run_blocking_pass blocks pn va vb na "dedup" s cursor (mkWorld a b t f))
  = pass_outcome (run_blocking_pass blocks pn va vb na "dedup" s cursor (mkWorld a b' t f)).
Proof.
  unfold run_blocking_pass.
  destruct (getitem blocks pn) as [vs|e]; [|reflexivity].
  destruct (getitem va "indv_id") as [ida|e]; [|reflexivity].
  destruct (getitem vb "indv_id") as [idb|e]; [|reflexivity].
  cbn [rbind]. change (String.eqb "dedup" "dedup") with true. cbv iota.
  destruct cursor.
  - destruct vs as [|v vs]; [reflexivity|].
    destruct (_ || _); [reflexivity|].
    destruct s as [p | pa pb]; [|reflexivity].
    unfold rows_b. cbn [rbind df_a df_b tables files].
    match goal with
    | |- context [Sql.find_pass_candidates ?x1 ?x2 ?x3 ?x4 ?x5 ?x6 ?x7 ?x8] =>
        destruct (Sql.find_pass_candidates x1 x2 x3 x4 x5 x6 x7 x8) as [r|e]
    end; reflexivity.
  - unfold set_indexes. cbn [df_a df_b tables files].
    change (String.eqb "dedup" "dedup") with true. cbv iota.
    destruct (Frame.set_index ida a) as [a'|e]; [|reflexivity].
    cbn [rbind]. destruct vs as [|v vs]; [reflexivity|].
    destruct (_ || _); [reflexivity|].
    cbn [rbind df_a df_b tables files].
    unfold run_block. destruct s as [[|j p] | pa pb]; try reflexivity.
    unfold Frame.find_block.
    match goal with
    | |- context [Frame.query ?x a'] => destruct (Frame.query x a') as [qa|e]
    end; [|reflexivity]. cbn [rbind].
    match goal with
    | |- context [Frame.index ?x qa None] => destruct (Frame.index x qa None) as [pairs|e]
    end; [|reflexivity]. cbn [rbind].
    match goal with
    | |- context [Frame.make_df ?x ?y ?z] => destruct (Frame.make_df x y z) as [df|e]
    end; reflexivity.
Qed.

(** ** The in-memory backend, pass by pass *)

Module MemoryFacts.
Import Sql SqlFacts Frame Normal FrameFacts.

Lemma enumerate_In_inv (l : list record) r :
  In r l -> exists i, In (i, r) (enumerate l).
Proof.
  intros H. rewrite <- (map_snd_enumerate l) in H. apply in_map_iff in H.
  destruct H as ([i r'] & E & H). simpl in E. subst. eauto.
Qed.

Lemma link_pairs_iff lk rk on_l on_r cmps ta tb q :
  In q (link_pairs lk rk on_l on_r cmps ta tb)
  <-> In (fst q) (enumerate ta) /\ In (snd q) (enumerate tb)
      /\ keys_ok on_l (fst q) = true /\ keys_ok on_r (snd q) = true
      /\ pair_test lk rk on_l on_r cmps (fst q) (snd q) = true.
Proof.
  unfold link_pairs. rewrite in_flat_map. split.
  - intros (a & Ha & H). apply in_map_iff in H. destruct H as (b & <- & Hb).
    apply filter_In in Ha. destruct Ha as [Ha Hka].
    apply filter_In in Hb. destruct Hb as [Hb Ht].
    apply filter_In in Hb. destruct Hb as [Hb Hkb]. simpl. tauto.
  - intros (Ha & Hb & Hka & Hkb & Ht). destruct q as [a b]. simpl in *.
    exists a. split; [apply filter_In; tauto|].
    apply in_map_iff. exists b. split; [reflexivity|].
    apply filter_In. split; [apply filter_In; tauto | exact Ht].
Qed.

Lemma forallb_false_Exists {A : Type} (f : A -> bool) l :
  forallb f l = false <-> Exists (fun x => f x = false) l.
Proof.
  induction l as [|x l IH]; simpl.
  - split; [discriminate | intros H; inversion H].
  - rewrite andb_false_iff, List.Exists_cons, IH. tauto.
Qed.

Lemma blocks_within ida idb (prev : list pass_columns) :
  Forall (well_formed_pass ida idb) prev ->
  Forall (fun q => fst q <> [] /\ length (fst q) = length (snd q)
                   /\ within (keep_of (map fst prev)) (keep_of (map snd prev)) q) prev.
Proof.
  intros H. apply List.Forall_forall. intros q Hq.
  pose proof (proj1 (List.Forall_forall _ _) H q Hq) as (Hne & Hlen & _ & _).
  repeat split; auto; intros c Hc; apply Agreement.keep_of_In.
  - exists (fst q). split; [apply in_map; exact Hq | exact Hc].
  - exists (snd q). split; [apply in_map; exact Hq | exact Hc].
Qed.

(** The loop over the earlier blocks keeps a pair of rows exactly when
    each block has a pair of columns on which [==] fails. *)
Lemma not_seen_same_names ida idb (prev : list pass_columns) on_l on_r a b :
  Forall (well_formed_pass ida idb) prev ->
  not_seen (map comparisons prev)
    (pair_of (keep_of (map fst prev)) (keep_of (map snd prev)) on_l on_r (a, b)) = true
  <-> Forall (fun q => Exists (unequal_on (snd a) (snd b)) (combine (fst q) (snd q))) prev.
Proof.
  intros Hw. pose proof (blocks_within ida idb prev Hw) as Hin.
  pose proof (Agreement.kept_alike ida idb prev Hw) as Hlr.
  unfold not_seen. rewrite forallb_map_comp.
  set (lk := keep_of (map fst prev)) in *. set (rk := keep_of (map snd prev)) in *.
  clearbody lk rk. clear Hw.
  induction Hin as [|q qs (_ & _ & Hq) _ IH]; simpl.
  - split; [constructor | reflexivity].
  - rewrite andb_true_iff, negb_true_iff, List.Forall_cons_iff, IH.
    rewrite (Agreement.statement_same_names lk rk Hlr on_l on_r a b q Hq).
    rewrite forallb_false_Exists. reflexivity.
Qed.

Lemma in_memory_pass_rows ida idb ta tb (prev : list pass_columns) (p : pass_columns) :
  Forall (well_formed_pass ida idb) prev -> well_formed_pass ida idb p ->
  List.NoDup (map idx ta) -> List.NoDup (map idx tb) ->
  find_block (mkFrame (Some ida) ta) (Some (mkFrame (Some idb) tb))
    (fst p) (snd p) false (map fst prev) (map snd prev)
  = Ok (map (fun q : (nat * record) * (nat * record) =>
               select_row ida idb (snd (fst q)) (snd (snd q)))
          (link_pairs (keep_of (map fst prev)) (keep_of (map snd prev))
             (fst p) (snd p) (map comparisons prev)
             (List.filter (non_empty_on (fst p)) ta)
             (List.filter (non_empty_on (snd p)) tb)),
        (map fst (prev ++ [p]), map snd (prev ++ [p]))).
Proof.
  intros prev_wf p_wf idx_a_unique idx_b_unique.
  destruct p_wf as (Hne & Hlen & Hsame & Hcol).
  assert (Hne_b : snd p <> []).
  { intros E. rewrite E in Hlen. destruct (fst p); [contradiction | discriminate]. }
  unfold find_block, query; simpl.
  destruct (fst p) as [|a pa] eqn:Epa; [contradiction|].
  destruct (snd p) as [|b pb] eqn:Epb; [contradiction|].
  rewrite <- Epa, <- Epb in *. simpl. unfold index.
  rewrite !Agreement.verify_filtered by assumption. simpl.
  rewrite _link_index_eq.
  rewrite Agreement.check_side_ok.
  2:{ intros c Hc. apply in_app_or in Hc. destruct Hc as [Hc | Hc].
      - destruct (Hcol c Hc) as (H1 & _ & H3). auto.
      - destruct (Agreement.kept_columns ida idb prev prev_wf c (or_introl Hc))
          as (H1 & _ & H3). auto. }
  simpl. rewrite Hlen. rewrite Agreement.check_side_ok.
  2:{ intros c Hc. apply in_app_or in Hc. destruct Hc as [Hc | Hc].
      - apply Hsame in Hc. destruct (Hcol c Hc) as (_ & H2 & H3). auto.
      - destruct (Agreement.kept_columns ida idb prev prev_wf c (or_intror Hc))
          as (_ & H2 & H3). auto. }
  simpl.
  rewrite (Agreement.seen_columns_same_names _ _
             (Agreement.kept_alike ida idb prev prev_wf) _ prev
             (blocks_within ida idb prev prev_wf)). simpl.
  rewrite make_df_pairs by apply link_pairs_positioned. simpl.
  rewrite !map_app. simpl. rewrite Epb at 1. rewrite <- Epb.
  reflexivity.
Qed.

Lemma in_memory_pass_selects ida idb ta tb (prev : list pass_columns)
    (p : pass_columns) :
  Forall (well_formed_pass ida idb) prev -> well_formed_pass ida idb p ->
  List.NoDup (map idx ta) -> List.NoDup (map idx tb) ->
  exists rows,
    find_block (mkFrame (Some ida) ta) (Some (mkFrame (Some idb) tb))
      (fst p) (snd p) false (map fst prev) (map snd prev)
    = Ok (rows, (map fst (prev ++ [p]), map snd (prev ++ [p])))
    /\ forall c,
         In c rows
         <-> exists ra rb,
               In ra ta /\ In rb tb /\ c = select_row ida idb ra rb
               /\ Forall (agree_on ra rb) (combine (fst p) (snd p))
               /\ Forall (fun q => Exists (unequal_on ra rb) (combine (fst q) (snd q)))
                         prev.
Proof.
  intros Hprev Hp Hna Hnb. eexists. split.
  - apply in_memory_pass_rows; assumption.
  - destruct Hp as (_ & Hlen & _ & _). intros c.
    assert (Hcond : forall ra rb,
      Forall (agree_on ra rb) (combine (fst p) (snd p))
      <-> (non_empty_on (fst p) ra = true /\ has_keys (fst p) ra = true)
          /\ (non_empty_on (snd p) rb = true /\ has_keys (snd p) rb = true)
          /\ keys_eqb (map (col ra) (fst p)) (map (col rb) (snd p)) = true).
    { intros ra rb. rewrite <- (Agreement.pass_condition_test ra rb _ _ Hlen).
      apply agree_on_T. }
    rewrite in_map_iff. split.
    + intros ([[i ra] [j rb]] & <- & Hq). apply link_pairs_iff in Hq.
      cbn [fst snd] in Hq. destruct Hq as (Ha & Hb & Hka & Hkb & Ht).
      apply enumerate_In in Ha, Hb. apply filter_In in Ha, Hb.
      unfold pair_test in Ht. apply andb_true_iff in Ht. destruct Ht as [Hk Hs].
      exists ra, rb. cbn [fst snd]. repeat split; try tauto.
      * apply Hcond. unfold has_keys. unfold keys_ok in Hka, Hkb. simpl in *. tauto.
      * apply (not_seen_same_names ida idb prev (fst p) (snd p) (i, ra) (j, rb) Hprev).
        exact Hs.
    + intros (ra & rb & Ha & Hb & -> & Hj & Hx). apply Hcond in Hj.
      destruct Hj as ((Hna1 & Hka) & (Hnb1 & Hkb) & Hk).
      destruct (enumerate_In_inv (List.filter (non_empty_on (fst p)) ta) ra)
        as (i & Hi); [apply filter_In; tauto|].
      destruct (enumerate_In_inv (List.filter (non_empty_on (snd p)) tb) rb)
        as (j & Hj); [apply filter_In; tauto|].
      exists ((i, ra), (j, rb)). split; [reflexivity|].
      apply link_pairs_iff. cbn [fst snd]. repeat split; auto.
      unfold pair_test. apply andb_true_iff. split; [exact Hk|].
      apply (not_seen_same_names ida idb prev (fst p) (snd p) (i, ra) (j, rb) Hprev).
      exact Hx.
Qed.

Lemma link_pairs_ordinals_NoDup lk rk on_l on_r cmps ta tb :
  List.NoDup (map idx ta) -> List.NoDup (map idx tb) ->
  List.NoDup (map (fun q : (nat * record) * (nat * record) =>
                     (idx (snd (fst q)), idx (snd (snd q))))
                (link_pairs lk rk on_l on_r cmps ta tb)).
Proof.
  intros Ha Hb. unfold link_pairs. rewrite map_flat_map.
  erewrite flat_map_ext.
  - apply (NoDup_product (fun a : nat * record => idx (snd a))
             (fun b : nat * record => idx (snd b))
             (fun a => List.filter (pair_test lk rk on_l on_r cmps a)
                         (List.filter (keys_ok on_r) (enumerate tb)))).
    + apply NoDup_filter_map. rewrite <- (map_map snd idx), map_snd_enumerate. exact Ha.
    + intros a. do 2 apply NoDup_filter_map.
      rewrite <- (map_map snd idx), map_snd_enumerate. exact Hb.
  - intros a. rewrite map_map. reflexivity.
Qed.

Lemma agree_not_unequal ra rb l :
  Forall (agree_on ra rb) l -> Exists (unequal_on ra rb) l -> False.
Proof.
  intros Ha He. apply List.Exists_exists in He. destruct He as (cc & Hcc & Hu).
  rewrite List.Forall_forall in Ha. destruct (Ha cc Hcc) as (s & Hs & Ht & _).
  unfold unequal_on, pd_eq in Hu. rewrite Hs, Ht, String.eqb_refl in Hu. discriminate.
Qed.

Lemma in_memory_run_rows ida idb ta tb plan (prev : list pass_columns) :
  Forall (well_formed_pass ida idb) prev -> Forall (well_formed_pass ida idb) plan ->
  List.NoDup (map idx ta) -> List.NoDup (map idx tb) ->
  exists rs,
    in_memory_run ida idb ta tb plan (map fst prev) (map snd prev) = Ok rs
    /\ List.NoDup (map ordinal_pair (concat rs))
    /\ forall c, In c (concat rs) ->
         exists ra rb, In ra ta /\ In rb tb /\ c = select_row ida idb ra rb
           /\ Forall (fun q => Exists (unequal_on ra rb) (combine (fst q) (snd q))) prev.
Proof.
  intros Hprev Hplan Hna Hnb. revert prev Hprev.
  induction Hplan as [|p plan Hp _ IH]; intros prev Hprev.
  - exists []. split; [reflexivity|]. split; [constructor | intros c []].
  - destruct (in_memory_pass_selects ida idb ta tb prev p Hprev Hp Hna Hnb)
      as (rows & Hfind & Hrows).
    pose proof (in_memory_pass_rows ida idb ta tb prev p Hprev Hp Hna Hnb) as Heq.
    rewrite Hfind in Heq. injection Heq as Heq.
    destruct (IH (prev ++ [p])) as (more & Hrun & Hnd & Hmore).
    { apply List.Forall_app. split; [exact Hprev | constructor; [exact Hp | constructor]]. }
    exists (rows :: more). simpl. rewrite Hfind. cbn [rbind fst snd].
    rewrite Hrun. cbn [rbind]. split; [reflexivity|]. split.
    + rewrite map_app. apply List.NoDup_app.
      * rewrite Heq, map_map. cbn [ordinal_pair select_row idx_a idx_b].
        apply link_pairs_ordinals_NoDup; apply Agreement.NoDup_map_filter; assumption.
      * exact Hnd.
      * intros o Ho Ho'. apply in_map_iff in Ho. destruct Ho as (c & <- & Hc).
        apply Hrows in Hc. destruct Hc as (ra & rb & Ha & Hb & -> & Hag & _).
        apply in_map_iff in Ho'. destruct Ho' as (c' & Ec & Hc').
        destruct (Hmore c' Hc') as (ra' & rb' & Ha' & Hb' & -> & Hx).
        unfold ordinal_pair, select_row in Ec. cbn [idx_a idx_b] in Ec.
        injection Ec as E1 E2.
        assert (ra' = ra) by (apply (idx_inj ta); assumption).
        assert (rb' = rb) by (apply (idx_inj tb); assumption).
        subst ra' rb'. apply List.Forall_app in Hx. destruct Hx as [_ Hlast].
        inversion Hlast as [|? ? He _]; subst.
        exact (agree_not_unequal ra rb _ Hag He).
    + intros c Hc. apply in_app_or in Hc. destruct Hc as [Hc | Hc].
      * apply Hrows in Hc. destruct Hc as (ra & rb & Ha & Hb & -> & _ & Hx).
        exists ra, rb. auto.
      * destruct (Hmore c Hc) as (ra & rb & Ha & Hb & -> & Hx).
        apply List.Forall_app in Hx. exists ra, rb. tauto.
Qed.

Lemma In_position {A : Type} (l : list A) x : In x l -> exists i, l !! i = Some x.
Proof.
  induction l as [|a l IH]; simpl; [tauto|].
  intros [-> | H]; [exists O; reflexivity|].
  destruct (IH H) as (i & Hi). exists (S i). exact Hi.
Qed.

Lemma position_In {A : Type} (l : list A) i x : l !! i = Some x -> In x l.
Proof.
  revert i. induction l as [|a l IH]; intros [|i] H; simpl in H; try discriminate.
  - left. congruence.
  - right. eapply IH. exact H.
Qed.

(** [query] keeps the rows in their order. *)
Lemma filter_keeps_order {A : Type} (P : A -> bool) (l : list A) i j x y :
  List.filter P l !! i = Some x -> List.filter P l !! j = Some y -> (j < i)%nat ->
  exists i' j', (j' < i')%nat /\ l !! i' = Some x /\ l !! j' = Some y.
Proof.
  revert i j. induction l as [|a l IH]; intros i j Hi Hj Hlt; simpl in Hi, Hj.
  - destruct i; discriminate.
  - destruct (P a).
    + destruct j as [|j].
      * destruct i as [|i]; [lia|]. simpl in Hi, Hj.
        apply position_In, filter_In in Hi. destruct Hi as [Hi _].
        destruct (In_position _ _ Hi) as (i' & Hi').
        exists (S i'), O. split; [lia|]. split; [exact Hi' | exact Hj].
      * destruct i as [|i]; [lia|]. simpl in Hi, Hj.
        destruct (IH i j Hi Hj ltac:(lia)) as (i' & j' & H1 & H2 & H3).
        exists (S i'), (S j'). split; [lia | auto].
    + destruct (IH i j Hi Hj Hlt) as (i' & j' & H1 & H2 & H3).
      exists (S i'), (S j'). split; [lia | auto].
Qed.

End MemoryFacts.

Lemma two_key_well_formed : Forall (well_formed_pass "id" "id") two_key_plan.
Proof.
  assert (H : forall k, k <> "id" -> k <> "idx" -> well_formed_pass "id" "id" ([k], [k])).
  { intros k H1 H2. unfold well_formed_pass; simpl.
    split; [discriminate|]. split; [reflexivity|]. split; [tauto|].
    intros c [<- | []]. auto. }
  constructor; [apply H; discriminate|].
  constructor; [apply H; discriminate | constructor].
Qed.





(** X13.  In a deduplication the in-memory backend never pairs a row with
    itself, and of two rows that it pairs the one on side A is the one that
    comes later in the frame; the identifiers play no part. *)
Theorem in_memory_dedup_pairs_later_row_first id ta odb pa pb pva pvb rows st' c :
  Frame.find_block (Frame.mkFrame (Some id) ta) odb pa pb true pva pvb = Ok (rows, st') ->
  In c rows ->
  exists i j ra rb,
    (j < i)%nat /\ ta !! i = Some ra /\ ta !! j = Some rb
    /\ c = Sql.select_row id id ra rb.
Proof.
  unfold Frame.find_block. intros H Hc.
  destruct (Frame.query pa (Frame.mkFrame (Some id) ta)) as [qa|e] eqn:Eqa;
    simpl in H; [|discriminate].
  destruct (FrameFacts.query_Ok _ _ _ Eqa) as (_ & Hix & Hrows). simpl in Hix, Hrows.
  unfold Frame.index, Frame._dedup_index in H.
  destruct (Frame._verify_integrity qa) as [[]|e]; simpl in H; [|discriminate].
  change (Frame._link_index (Frame.mkCustomIndex pa None pva None) qa qa)
    with (Frame._link_index (Frame.mkCustomIndex pa (Some pa) pva (Some pva)) qa qa) in H.
  rewrite FrameFacts._link_index_eq in H.
  destruct (Normal.check_side qa pa (Frame.keep_of pva) (length pa)) as [[]|e];
    simpl in H; [|discriminate].
  destruct (Normal.seen_columns _ _ _ _ pva pva) as [cmps|e]; simpl in H; [|discriminate].
  unfold Frame.index_values in H. rewrite Hix in H. simpl in H.
  rewrite List.filter_map_swap in H.
  rewrite FrameFacts.make_df_pairs in H.
  2:{ apply List.Forall_forall. intros q Hq. apply filter_In in Hq.
      destruct Hq as [Hq _]. revert q Hq. apply List.Forall_forall.
      apply FrameFacts.link_pairs_positioned. }
  simpl in H. inversion H; subst; clear H.
  apply in_map_iff in Hc. destruct Hc as (q & <- & Hq).
  apply filter_In in Hq. destruct Hq as [Hq Hlt].
  pose proof (proj1 (List.Forall_forall _ _)
                (FrameFacts.link_pairs_positioned _ _ _ _ _ _ _) q Hq) as [Hpa Hpb].
  destruct q as [[i ra] [j rb]]. unfold Normal.code_of in Hlt. cbn [fst snd] in *.
  apply Nat.ltb_lt in Hlt. rewrite Hrows in Hpa, Hpb.
  destruct (MemoryFacts.filter_keeps_order _ _ _ _ _ _ Hpa Hpb Hlt)
    as (i' & j' & H1 & H2 & H3).
  exists i', j', ra, rb. auto.
Qed.

Lemma in_memory_dedup_pairs_later_row_first_witness :
  let c := mkCandidate (Some "x") (Some "x") 1 0 in
  Frame.find_block (Frame.mkFrame (Some "id") twin_rows) None ["ssn"] ["ssn"] true [] []
  = Ok ([c], ([["ssn"]], [["ssn"]]))
  /\ exists i j ra rb,
       (j < i)%nat /\ twin_rows !! i = Some ra /\ twin_rows !! j = Some rb
       /\ c = Sql.select_row "id" "id" ra rb.
Proof.
  intros c.
  assert (H : Frame.find_block (Frame.mkFrame (Some "id") twin_rows) None
                ["ssn"] ["ssn"] true [] []
              = Ok ([c], ([["ssn"]], [["ssn"]]))) by (vm_compute; reflexivity).
  split; [exact H|].
  apply (in_memory_dedup_pairs_later_row_first _ _ _ _ _ _ _ _ _ c H).
  left. reflexivity.
Defined.

(** X14.  [remove_previously_seen_pairs] keeps exactly the new pairs that
    no index of [old_pairs] stored under another name holds; an index
    stored under the name of the new pairs removes nothing. *)
Theorem remove_previously_seen_pairs_keeps_the_unseen new_pairs new_name old_pairs x :
  x ∈ remove_previously_seen_pairs new_pairs new_name old_pairs
  <-> x ∈ new_pairs
      /\ forall name pairs, In (name, pairs) old_pairs -> name <> new_name -> x ∉ pairs.
Proof.
  unfold remove_previously_seen_pairs. revert new_pairs.
  induction old_pairs as [|[name pairs] l IH]; intros new_pairs; simpl.
  - split; [intros H; split; [exact H | intros ? ? []] | tauto].
  - rewrite IH. clear IH.
    destruct (String.eqb_spec name new_name) as [-> | Hne]; simpl.
    + split; intros [H1 H2]; (split; [exact H1|]).
      * intros n p [E | Hin] Hn; [inversion E; subst; contradiction | eauto].
      * intros n p Hin Hn. eauto.
    + destruct (Nat.eqb_spec (size pairs) 0) as [Hz | Hnz]; simpl.
      * apply size_empty_inv in Hz.
        split; intros [H1 H2]; (split; [exact H1|]).
        -- intros n p [E | Hin] Hn; [inversion E; subst | eauto].
           intros Hx. apply Hz in Hx. exact (not_elem_of_empty x Hx).
        -- intros n p Hin Hn. eauto.
      * rewrite elem_of_difference.
        split.
        -- intros [[H1 H3] H2]. split; [exact H1|].
           intros n p [E | Hin] Hn; [inversion E; subst; exact H3 | eauto].
        -- intros [H1 H2]. split; [split; [exact H1 | eauto] | eauto].
Qed.

(** ** The pass loop reads what the pass blocked *)

Lemma append_assoc (s t u : string) : (s +:+ t) +:+ u = s +:+ t +:+ u.
Proof.
  induction s as [|a s IH]; [reflexivity|].
  change (String a ((s +:+ t) +:+ u) = String a (s +:+ t +:+ u)).
  rewrite IH. reflexivity.
Qed.

(** [run_blocking_pass] and the pass loop build the same name. *)
Lemma cand_table_eq cfg pn :
  "candidates_" +:+ match_name (name_a cfg) (name_b cfg) +:+ "_p" +:+ pn
  = cand_table cfg pn.
Proof.
  unfold cand_table, match_name. f_equal.
  destruct (String.eqb_spec (name_b cfg) "dedup") as [E | _].
  - rewrite E, append_assoc. reflexivity.
  - rewrite append_assoc. reflexivity.
Qed.

Lemma chunks_of_pass_read pn l (chunks : list chunk) l' :
  chunks_read l' = chunks_read l ++ map (fun c => (c, pn)) chunks ->
  chunks_of_pass pn l' = chunks_of_pass pn l ++ concat chunks.
Proof.
  unfold chunks_of_pass. intros ->.
  rewrite List.filter_app, map_app, concat_app. f_equal.
  induction chunks as [|c chunks IH]; simpl; [reflexivity|].
  rewrite String.eqb_refl. simpl. rewrite IH. reflexivity.
Qed.

Lemma read_pairs_read pn l (chunks : list chunk) l' :
  chunks_read l' = chunks_read l ++ map (fun c => (c, pn)) chunks ->
  read_pairs l' = read_pairs l ++ concat chunks.
Proof.
  unfold read_pairs. intros ->. rewrite map_app, concat_app, map_map. simpl.
  rewrite map_id. reflexivity.
Qed.

Lemma lower_plain c : plain_char c = true -> lower c = c.
Proof.
  unfold plain_char, lower. intros H.
  destruct (N.leb_spec 65 (N_of_ascii c)) as [L1 | L1]; [|reflexivity].
  destruct (N.leb_spec (N_of_ascii c) 90) as [L2 | L2]; [|reflexivity]. exfalso.
  apply orb_true_iff in H. destruct H as [H | H];
    [apply orb_true_iff in H; destruct H as [H | H];
     apply andb_true_iff in H; destruct H as [H1 H2];
     apply N.leb_le in H1; apply N.leb_le in H2; lia
    | apply N.eqb_eq in H; lia].
Qed.

Lemma fold_case_plain s : all_plain s = true -> fold_case s = s.
Proof.
  induction s as [|c s IH]; simpl; [reflexivity|].
  intros H. apply andb_true_iff in H. destruct H as [Hc Hs].
  rewrite (lower_plain c Hc), (IH Hs). reflexivity.
Qed.

Lemma substring_all s m : (String.length s <= m)%nat -> String.substring 0 m s = s.
Proof.
  revert m. induction s as [|c s IH]; intros m H.
  - destruct m; reflexivity.
  - destruct m; simpl in *; [lia|]. rewrite IH by lia. reflexivity.
Qed.

(** The store keeps a plain name as it is written. *)
Lemma store_name_plain s : plain_name s = true -> store_name s = s.
Proof.
  unfold plain_name, store_name. intros H.
  apply andb_true_iff in H. destruct H as [Hp Hl].
  rewrite (fold_case_plain s Hp). apply substring_all.
  apply Nat.leb_le. exact Hl.
Qed.

(** An iteration of the pass loop with a relational store, on a pass that
    blocks: what it returns, what it reads and what it leaves.  The look-up
    finds the table of the pass when the store keeps it under the name as
    written, and nothing is read otherwise. *)
Lemma process_pass_relational cfg st pn vs ida idb pa pb p n size :
  conn cfg = true -> past st = PastSql p ->
  blocks_by_pass cfg !! pn = Some vs -> vs <> [] ->
  vars_a cfg !! "indv_id" = Some ida -> vars_b cfg !! "indv_id" = Some idb ->
  Forall2 (fun v c => vars_a cfg !! v = Some c) (cleaned vs) pa ->
  Forall2 (fun v c => vars_b cfg !! v = Some c) (cleaned vs) pb ->
  pass_number pn = Ok n ->
  chunk_sizes cfg !! pretty n = Some size -> (1 <= size)%nat ->
  let pb' := if existsb contains_inv vs then rev pb else pb in
  let dedup := String.eqb (name_b cfg) "dedup" in
  exists rows st',
    Sql.find_pass_candidates pa pb' ida idb p (table_rows (df_a (wld st)))
      (rows_b dedup (wld st)) dedup
    = Ok (rows, p ++ [combine pa pb'])
    /\ process_pass cfg st pn = Ok st'
    /\ past st' = PastSql (p ++ [combine pa pb'])
    /\ df_a (wld st') = df_a (wld st) /\ df_b (wld st') = df_b (wld st)
    /\ (let read :=
          if String.eqb (store_name (cand_table cfg pn)) (cand_table cfg pn)
          then rows else [] in
        chunks_of_pass pn (log st') = chunks_of_pass pn (log st) ++ read
        /\ read_pairs (log st') = read_pairs (log st) ++ read)
    /\ (store_name (cand_table cfg pn) = cand_table cfg pn ->
        tables (wld st') !! cand_table cfg pn = None).
Proof.
  intros Hc Hpast Hb Hne Hia Hib Hpa Hpb Hn Hsize Hpos pb' dedup.
  destruct (run_blocking_pass_relational (blocks_by_pass cfg) pn
              (vars_a cfg) (vars_b cfg) (name_a cfg) (name_b cfg) p (wld st)
              vs ida idb pa pb Hb Hne Hia Hib Hpa Hpb) as (rows & Hf & Hr).
  fold pb' dedup in Hf, Hr. rewrite cand_table_eq in Hr.
  exists rows. unfold process_pass. rewrite Hn, Hpast, Hc, Hr. cbn [rbind fst snd wld tables].
  unfold listed. destruct (String.eqb_spec (store_name (cand_table cfg pn)) (cand_table cfg pn))
    as [E | E].
  - rewrite E, lookup_insert_eq. unfold getitem. rewrite Hsize. cbn [rbind].
    eexists. split; [exact Hf|]. split; [reflexivity|].
    cbn [past wld log with_tables tables df_a df_b].
    rewrite fold_on_chunk_wld. cbn [wld df_a df_b].
    split; [apply fold_on_chunk_past|]. split; [reflexivity|]. split; [reflexivity|].
    split; [split|].
    + erewrite chunks_of_pass_read.
      2:{ apply fold_chunks_read. apply on_chunk_chunks_read. }
      cbn [log]. unfold fetchmany_all. rewrite DispatcherFacts.fetch_chunks_all by lia.
      f_equal. unfold chunks_of_pass. rewrite chunks_read_app. simpl.
      rewrite app_nil_r. reflexivity.
    + erewrite read_pairs_read.
      2:{ apply fold_chunks_read. apply on_chunk_chunks_read. }
      cbn [log]. unfold fetchmany_all. rewrite DispatcherFacts.fetch_chunks_all by lia.
      f_equal. unfold read_pairs. rewrite chunks_read_app. simpl.
      rewrite app_nil_r. reflexivity.
    + intros _. apply lookup_delete_eq.
  - eexists. split; [exact Hf|]. split; [reflexivity|]. cbn [past wld log df_a df_b].
    split; [reflexivity|]. split; [reflexivity|]. split; [reflexivity|].
    split; [split|].
    + unfold chunks_of_pass. rewrite chunks_read_app. simpl.
      rewrite !app_nil_r. reflexivity.
    + unfold read_pairs. rewrite chunks_read_app. simpl.
      rewrite !app_nil_r. reflexivity.
    + intros E'. contradiction.
Qed.

(** X15.  With a relational store, an iteration of the pass loop on a
    pass whose variables the two field maps all name, with a chunk size of
    at least 1 configured under the number of the pass and a candidates
    table whose name is plain (lower-case letters, digits and underscores,
    63 characters at most), completes: the chunks it reads for the pass are,
    put end to end, the rows that [find_pass_candidates] returned for it,
    the state it keeps is the one the pass returned, and the candidates table
    of the pass is dropped. *)
Theorem relational_pass_reads_what_it_blocked cfg st pn vs ida idb pa pb p n size :
  conn cfg = true -> past st = PastSql p ->
  blocks_by_pass cfg !! pn = Some vs -> vs <> [] ->
  vars_a cfg !! "indv_id" = Some ida -> vars_b cfg !! "indv_id" = Some idb ->
  Forall2 (fun v c => vars_a cfg !! v = Some c) (cleaned vs) pa ->
  Forall2 (fun v c => vars_b cfg !! v = Some c) (cleaned vs) pb ->
  pass_number pn = Ok n ->
  chunk_sizes cfg !! pretty n = Some size -> (1 <= size)%nat ->
  plain_name (cand_table cfg pn) = true ->
  let pb' := if existsb contains_inv vs then rev pb else pb in
  let dedup := String.eqb (name_b cfg) "dedup" in
  exists rows st',
    Sql.find_pass_candidates pa pb' ida idb p (table_rows (df_a (wld st)))
      (rows_b dedup (wld st)) dedup
    = Ok (rows, p ++ [combine pa pb'])
    /\ process_pass cfg st pn = Ok st'
    /\ past st' = PastSql (p ++ [combine pa pb'])
    /\ chunks_of_pass pn (log st') = chunks_of_pass pn (log st) ++ rows
    /\ tables (wld st') !! cand_table cfg pn = None.
Proof.
  intros Hc Hpast Hb Hne Hia Hib Hpa Hpb Hn Hsize Hpos Hplain pb' dedup.
  apply store_name_plain in Hplain.
  destruct (process_pass_relational cfg st pn vs ida idb pa pb p n size
              Hc Hpast Hb Hne Hia Hib Hpa Hpb Hn Hsize Hpos)
    as (rows & st' & Hf & Hproc & Hp' & _ & _ & [Hch _] & Htab).
  rewrite Hplain, String.eqb_refl in Hch.
  exists rows, st'. repeat (split; [assumption|]). exact (Htab Hplain).
Qed.

Lemma relational_pass_reads_what_it_blocked_witness :
  Forall2 (fun v c => vars_a two_chunk_config !! v = Some c) (cleaned ["ssn"]) ["ssn"]
  /\ pass_number "1" = Ok 1%N
  /\ chunk_sizes two_chunk_config !! pretty 1%N = Some 2%nat
  /\ plain_name (cand_table two_chunk_config "1") = true
  /\ exists rows st',
       Sql.find_pass_candidates ["ssn"] ["ssn"] "id" "id" [] ex_a ex_b false
       = Ok (rows, [] ++ [combine ["ssn"] ["ssn"]])
       /\ process_pass two_chunk_config start_sql "1" = Ok st'
       /\ past st' = PastSql ([] ++ [combine ["ssn"] ["ssn"]])
       /\ chunks_of_pass "1" (log st') = chunks_of_pass "1" (log start_sql) ++ rows
       /\ tables (wld st') !! cand_table two_chunk_config "1" = None.
Proof.
  assert (H : Forall2 (fun v c => vars_a two_chunk_config !! v = Some c)
                      (cleaned ["ssn"]) ["ssn"]) by (repeat constructor).
  split; [exact H|]. split; [reflexivity|]. split; [reflexivity|].
  split; [reflexivity|].
  apply (relational_pass_reads_what_it_blocked two_chunk_config start_sql "1"
           ["ssn"] "id" "id" ["ssn"] ["ssn"] [] 1%N 2%nat);
    try reflexivity; try exact H; try discriminate. lia.
Defined.

(** With the data sets named [A] and [B] the store keeps the table of
    pass 1 as [candidates_a_b_p1]; the look-up of [candidates_A_B_p1] finds
    nothing, so the pass reads no chunk and its table stays in the store. *)
Example capital_names_hide_the_table :
  let st' := state_of (process_pass capital_config start_sql "1") in
  process_pass capital_config start_sql "1" = Ok st'
  /\ chunks_of_pass "1" (log st') = []
  /\ tables (wld st') !! "candidates_a_b_p1" = Some ssn_candidates
  /\ tables (wld st') !! "candidates_A_B_p1" = None.
Proof. vm_compute. repeat split; reflexivity. Qed.

Lemma read_csv_all files blockfile size rows :
  files !! blockfile = Some rows -> (1 <= size)%nat ->
  exists chunks, read_csv files blockfile size = Ok chunks
                 /\ concat chunks = map read_row rows.
Proof.
  intros Hf Hs. unfold read_csv. rewrite Hf.
  destruct size as [|k]; [lia|]. destruct rows as [|r rows].
  - exists [[]]. split; reflexivity.
  - eexists. split; [reflexivity|]. unfold fetchmany_all.
    apply DispatcherFacts.fetch_chunks_all; lia.
Qed.

(** An iteration of the pass loop without a store, once the frames are
    indexed and [find_block] has returned for a pass that blocks. *)
Lemma process_pass_file cfg st pn vs ida idb pa pb prev_a prev_b
    n size w1 rows prev' :
  conn cfg = false -> past st = PastSeen prev_a prev_b ->
  blocks_by_pass cfg !! pn = Some vs -> vs <> [] ->
  vars_a cfg !! "indv_id" = Some ida -> vars_b cfg !! "indv_id" = Some idb ->
  Forall2 (fun v c => vars_a cfg !! v = Some c) (cleaned vs) pa ->
  Forall2 (fun v c => vars_b cfg !! v = Some c) (cleaned vs) pb ->
  pass_number pn = Ok n ->
  chunk_sizes cfg !! pretty n = Some size -> (1 <= size)%nat ->
  set_indexes ida idb (name_b cfg) (wld st) = Ok w1 ->
  Frame.find_block (df_a w1) (df_b w1) pa
    (if existsb contains_inv vs then rev pb else pb)
    (String.eqb (name_b cfg) "dedup") prev_a prev_b = Ok (rows, prev') ->
  exists st',
    process_pass cfg st pn = Ok st'
    /\ past st' = PastSeen (fst prev') (snd prev')
    /\ chunks_of_pass pn (log st') = chunks_of_pass pn (log st) ++ map read_row rows
    /\ files (wld st') !! (cand_table cfg pn +:+ ".csv") = Some rows
    /\ tables (wld st') = tables (wld st)
    /\ read_pairs (log st') = read_pairs (log st) ++ map read_row rows
    /\ wld st' = reset_indexes (name_b cfg)
                   (mkWorld (df_a w1) (df_b w1) (tables w1)
                      (<[cand_table cfg pn +:+ ".csv" := rows]> (files w1))).
Proof.
  intros Hc Hpast Hb Hne Hia Hib Hpa Hpb Hn Hsize Hpos Hset Hfind.
  assert (Hla : length pa = length (cleaned vs))
    by (symmetry; eapply Forall2_length_eq; eauto).
  assert (Hlb : length pb = length (cleaned vs))
    by (symmetry; eapply Forall2_length_eq; eauto).
  assert (Ht : tables w1 = tables (wld st) /\ files w1 = files (wld st)).
  { unfold set_indexes in Hset.
    destruct (Frame.set_index ida (df_a (wld st))) as [a|e]; simpl in Hset; [|discriminate].
    destruct (String.eqb (name_b cfg) "dedup").
    - inversion Hset; subst. auto.
    - destruct (df_b (wld st)) as [b|]; [|discriminate].
      destruct (Frame.set_index idb b); simpl in Hset; [|discriminate].
      inversion Hset; subst. auto. }
  destruct Ht as [Ht Hfl].
  assert (Hr : run_blocking_pass (blocks_by_pass cfg) pn (vars_a cfg) (vars_b cfg)
                 (name_a cfg) (name_b cfg) (PastSeen prev_a prev_b) false (wld st)
               = Ok (PastSeen (fst prev') (snd prev'),
                     reset_indexes (name_b cfg)
                       (mkWorld (df_a w1) (df_b w1) (tables w1)
                          (<[cand_table cfg pn +:+ ".csv" := rows]> (files w1))))).
  { unfold run_blocking_pass, getitem. rewrite Hb, Hia, Hib. cbn [rbind].
    rewrite Hset. cbn [rbind].
    destruct vs as [|v vs']; [contradiction|].
    unfold cleaned in *. set (inv := existsb contains_inv (v :: vs')) in *.
    set (cl := if inv then map remove_inv (v :: vs') else v :: vs') in *.
    rewrite (omap_named (vars_a cfg) cl pa Hpa), (omap_named (vars_b cfg) cl pb Hpb).
    rewrite Hla, Hlb, Nat.eqb_refl. cbn [negb orb].
    unfold run_block. rewrite Hfind. cbn [rbind fst snd].
    rewrite <- cand_table_eq. unfold match_name. rewrite !append_assoc.
    reflexivity. }
  destruct (read_csv_all (<[cand_table cfg pn +:+ ".csv" := rows]> (files w1))
              (cand_table cfg pn +:+ ".csv") size rows)
    as (chunks & Hread & Hcat); [apply lookup_insert_eq | exact Hpos |].
  unfold process_pass. rewrite Hn, Hpast, Hc, Hr. cbn [rbind fst snd wld].
  unfold getitem. rewrite Hsize. cbn [rbind].
  unfold reset_indexes at 1. cbn [files]. rewrite Hread. cbn [rbind].
  eexists. split; [reflexivity|].
  assert (Hp : forall l s0,
             past (fold_left (on_csv_chunk (num_processes cfg) pn) l s0) = past s0
             /\ wld (fold_left (on_csv_chunk (num_processes cfg) pn) l s0) = wld s0).
  { induction l as [|c l IH]; intros s0; simpl; [auto|].
    destruct (IH (on_csv_chunk (num_processes cfg) pn s0 c)) as [-> ->].
    unfold on_csv_chunk, submit. destruct (threshold_reached _ _); auto. }
  match goal with
  | |- context [fold_left _ chunks ?s0] => destruct (Hp chunks s0) as [Hp1 Hp2]
  end.
  rewrite Hp1, Hp2. cbn [past wld]. split; [reflexivity|].
  split; [|split; [|split; [|split; [|reflexivity]]]].
  - erewrite chunks_of_pass_read.
    2:{ apply fold_chunks_read. apply on_csv_chunk_chunks_read. }
    cbn [log]. rewrite Hcat. f_equal. unfold chunks_of_pass.
    rewrite chunks_read_app. simpl. rewrite app_nil_r. reflexivity.
  - unfold reset_indexes. cbn [files]. apply lookup_insert_eq.
  - unfold reset_indexes. cbn [tables]. exact Ht.
  - erewrite read_pairs_read.
    2:{ apply fold_chunks_read. apply on_csv_chunk_chunks_read. }
    cbn [log]. rewrite Hcat. f_equal. unfold read_pairs.
    rewrite chunks_read_app. simpl. rewrite app_nil_r. reflexivity.
Qed.

(** X16.  Without a relational store, once the frames are indexed and
    [find_block] has returned for a pass whose variables the two field maps
    all name, with a chunk size of at least 1 configured under the number of
    the pass, the iteration of the pass loop completes.  The rows of
    [find_block] stay in the CSV file of the pass, and the chunks read for
    the pass are, put end to end, those rows as [pd.read_csv] reads them
    back: the ordinals as written, and each identifier as written unless
    it is spelled like a missing value (the empty string, [NA], [NULL],
    [nan], [None] and the like), which comes back as NaN.  The state kept is
    the one [find_block] returned, the index of the frames is reset and the
    tables are untouched. *)
Theorem file_pass_reads_what_it_blocked cfg st pn vs ida idb pa pb prev_a prev_b
    n size w1 rows prev' :
  conn cfg = false -> past st = PastSeen prev_a prev_b ->
  blocks_by_pass cfg !! pn = Some vs -> vs <> [] ->
  vars_a cfg !! "indv_id" = Some ida -> vars_b cfg !! "indv_id" = Some idb ->
  Forall2 (fun v c => vars_a cfg !! v = Some c) (cleaned vs) pa ->
  Forall2 (fun v c => vars_b cfg !! v = Some c) (cleaned vs) pb ->
  pass_number pn = Ok n ->
  chunk_sizes cfg !! pretty n = Some size -> (1 <= size)%nat ->
  set_indexes ida idb (name_b cfg) (wld st) = Ok w1 ->
  Frame.find_block (df_a w1) (df_b w1) pa
    (if existsb contains_inv vs then rev pb else pb)
    (String.eqb (name_b cfg) "dedup") prev_a prev_b = Ok (rows, prev') ->
  exists st',
    process_pass cfg st pn = Ok st'
    /\ past st' = PastSeen (fst prev') (snd prev')
    /\ chunks_of_pass pn (log st') = chunks_of_pass pn (log st) ++ map read_row rows
    /\ files (wld st') !! (cand_table cfg pn +:+ ".csv") = Some rows
    /\ df_a (wld st') = Frame.reset_index (df_a w1)
    /\ tables (wld st') = tables (wld st).
Proof.
  intros Hc Hpast Hb Hne Hia Hib Hpa Hpb Hn Hsize Hpos Hset Hfind.
  destruct (process_pass_file cfg st pn vs ida idb pa pb prev_a prev_b n size w1
              rows prev' Hc Hpast Hb Hne Hia Hib Hpa Hpb Hn Hsize Hpos Hset Hfind)
    as (st' & Hproc & Hp' & Hch & Hfile & Htab & _ & Hw).
  exists st'. repeat (split; [assumption|]).
  split; [rewrite Hw; reflexivity | exact Htab].
Qed.

Lemma file_pass_reads_what_it_blocked_witness :
  let cfg := link_config false [("1", ["ssn"])] [] in
  let w1 := mkWorld (frame_by_id ex_a) (Some (frame_by_id ex_b)) ∅ ∅ in
  set_indexes "id" "id" (name_b cfg) (wld start_seen) = Ok w1
  /\ Frame.find_block (df_a w1) (df_b w1) ["ssn"] ["ssn"] false [] []
     = Ok (ssn_candidates, ([["ssn"]], [["ssn"]]))
  /\ exists st',
       process_pass cfg start_seen "1" = Ok st'
       /\ past st' = PastSeen [["ssn"]] [["ssn"]]
       /\ chunks_of_pass "1" (log st')
          = chunks_of_pass "1" (log start_seen) ++ map read_row ssn_candidates
       /\ files (wld st') !! (cand_table cfg "1" +:+ ".csv") = Some ssn_candidates
       /\ df_a (wld st') = Frame.reset_index (df_a w1)
       /\ tables (wld st') = tables (wld start_seen).
Proof.
  intros cfg w1.
  assert (Hs : set_indexes "id" "id" (name_b cfg) (wld start_seen) = Ok w1)
    by reflexivity.
  assert (Hf : Frame.find_block (df_a w1) (df_b w1) ["ssn"] ["ssn"] false [] []
               = Ok (ssn_candidates, ([["ssn"]], [["ssn"]])))
    by (vm_compute; reflexivity).
  split; [exact Hs|]. split; [exact Hf|].
  apply (file_pass_reads_what_it_blocked cfg start_seen "1" ["ssn"] "id" "id"
           ["ssn"] ["ssn"] [] [] 1%N 9%nat w1 ssn_candidates ([["ssn"]], [["ssn"]]));
    try reflexivity; try (repeat constructor); try discriminate; try lia.
Defined.

(** An identifier spelled [NA], [None] or with no character at all is
    read back as NaN; [na] and [007] are read as they are written. *)
Example csv_reads_missing_values_as_nan :
  read_csv (list_to_map [("f.csv", na_rows)]) "f.csv" 9
  = Ok [[mkCandidate None (Some "b1") 0 0;
         mkCandidate (Some "a2") None 1 1;
         mkCandidate None None 2 2;
         mkCandidate (Some "na") (Some "007") 3 3]].
Proof. vm_compute. reflexivity. Qed.

(** X17.  With a relational store, an iteration of the pass loop on a
    pass that names a variable missing from a field map changes nothing but
    the log: the state, the frames, the tables, the pending batch and the
    shard index are as before, and no chunk is read, provided no table of
    the name of the pass's candidates table was there. *)
Theorem relational_run_skips_missing_field cfg st pn vs ida idb n :
  conn cfg = true ->
  blocks_by_pass cfg !! pn = Some vs -> vs <> [] ->
  vars_a cfg !! "indv_id" = Some ida -> vars_b cfg !! "indv_id" = Some idb ->
  names_missing_field (vars_a cfg) (vars_b cfg) vs ->
  pass_number pn = Ok n ->
  tables (wld st) !! cand_table cfg pn = None ->
  process_pass cfg st pn
  = Ok (mkRun (past st) (wld st) (all_cands st) (shard st)
              (log st ++ [BlockingPass pn])).
Proof.
  intros Hc Hb Hne Hia Hib Hm Hn Ht. unfold process_pass.
  rewrite Hn, Hc. cbn [rbind].
  rewrite (missing_field_skipped_relational _ _ _ _ (name_a cfg) (name_b cfg) _ _ _
             (past st) (wld st) Hb Hne Hia Hib Hm).
  cbn [rbind fst snd wld]. unfold listed. rewrite Ht.
  destruct (String.eqb _ _); reflexivity.
Qed.

Lemma relational_run_skips_missing_field_witness :
  let cfg := link_config true missing_field_plan [] in
  names_missing_field (vars_a cfg) (vars_b cfg) ["dob"]
  /\ process_pass cfg start_sql "1"
     = Ok (mkRun (past start_sql) (wld start_sql) (all_cands start_sql) (shard start_sql)
                 (log start_sql ++ [BlockingPass "1"])).
Proof.
  intros cfg.
  assert (Hm : names_missing_field (vars_a cfg) (vars_b cfg) ["dob"]).
  { exists "dob". split; [left; reflexivity | left; reflexivity]. }
  split; [exact Hm|].
  apply (relational_run_skips_missing_field cfg start_sql "1" ["dob"] "id" "id" 1%N);
    try reflexivity; try exact Hm; discriminate.
Defined.

(** ** The passes of a run that ends *)

(** X18.  A run that ends has started the numbered passes that are the
    keys of [blocks_by_pass], each once, in ascending order of their names
    as strings, and after every event of the ground-truth stage. *)
Theorem finished_run_starts_each_pass_once cfg data_a data_b tables0 files0 st :
  main cfg data_a data_b tables0 files0 = Ok st ->
  List.NoDup (pass_events (log st))
  /\ (forall k, In k (pass_events (log st)) <-> is_Some (blocks_by_pass cfg !! k))
  /\ Sorted string_le (pass_events (log st))
  /\ exists before after,
       log st = before ++ after
       /\ Forall starts_no_pass before /\ Forall numbered after.
Proof.
  intros H. destruct (run_pass_order _ _ _ _ _ _ H) as (-> & Hsplit).
  destruct (passes_once cfg) as (Hnd & Hin).
  repeat split; try assumption; try (apply Hin).
  apply sorted_ascending.
Qed.

Lemma finished_run_starts_each_pass_once_witness :
  let st := state_of (main ten_pass_config ex_a ex_b ∅ ∅) in
  main ten_pass_config ex_a ex_b ∅ ∅ = Ok st
  /\ List.NoDup (pass_events (log st))
  /\ (forall k, In k (pass_events (log st))
                <-> is_Some (blocks_by_pass ten_pass_config !! k))
  /\ Sorted string_le (pass_events (log st))
  /\ exists before after,
       log st = before ++ after
       /\ Forall starts_no_pass before /\ Forall numbered after.
Proof.
  intros st.
  assert (H : main ten_pass_config ex_a ex_b ∅ ∅ = Ok st) by (vm_compute; reflexivity).
  split; [exact H|].
  exact (finished_run_starts_each_pass_once _ _ _ _ _ _ H).
Defined.

Lemma fold_shift ds acc :
  fold_left (fun acc d => (10 * acc + d)%N) ds acc
  = (acc * 10 ^ N.of_nat (length ds) + dval ds)%N.
Proof.
  unfold dval. revert acc. induction ds as [|d ds IH]; intros acc.
  - simpl. lia.
  - cbn [fold_left length]. rewrite IH, (IH (10 * 0 + d)%N).
    rewrite Nat2N.inj_succ, N.pow_succ_r'. lia.
Qed.

Lemma dval_cons d ds :
  dval (d :: ds) = (d * 10 ^ N.of_nat (length ds) + dval ds)%N.
Proof.
  unfold dval at 1. cbn [fold_left]. rewrite fold_shift. lia.
Qed.

Lemma dval_bound ds :
  Forall (fun d => (d <= 9)%N) ds -> (dval ds < 10 ^ N.of_nat (length ds))%N.
Proof.
  induction 1 as [|d ds Hd _ IH].
  - vm_compute. reflexivity.
  - rewrite dval_cons. cbn [length]. rewrite Nat2N.inj_succ, N.pow_succ_r'.
    nia.
Qed.

Lemma digits_of_all s :
  all_digits s = true ->
  length (digits_of s) = String.length s
  /\ Forall (fun d => (d <= 9)%N) (digits_of s).
Proof.
  induction s as [|c s IH]; simpl; intros H; [split; [reflexivity | constructor]|].
  apply andb_true_iff in H. destruct H as [Hc Hs]. rewrite Hc.
  destruct (IH Hs) as [Hl Hf]. simpl. split; [congruence|].
  constructor; [|exact Hf]. unfold is_digit in Hc.
  apply andb_true_iff in Hc. destruct Hc as [H1 H2].
  apply N.leb_le in H1, H2. lia.
Qed.

(** On strings of digits of one length the order of the strings is the
    order of the numbers. *)
Lemma compare_digits s t :
  all_digits s = true -> all_digits t = true ->
  String.length s = String.length t ->
  String.compare s t = Lt ->
  (dval (digits_of s) < dval (digits_of t))%N.
Proof.
  revert t. induction s as [|c s IH]; intros [|d t] Hs Ht Hlen Hc;
    simpl in Hlen; try discriminate.
  simpl in Hs, Ht. apply andb_true_iff in Hs, Ht.
  destruct Hs as [Hcd Hs], Ht as [Hdd Ht].
  simpl digits_of. rewrite Hcd, Hdd. rewrite !dval_cons.
  destruct (digits_of_all s Hs) as [Hls Hfs].
  destruct (digits_of_all t Ht) as [Hlt Hft].
  pose proof (dval_bound _ Hfs) as Hbs.
  rewrite Hls in *. rewrite Hlt in *.
  assert (El : String.length s = String.length t) by lia. rewrite <- El in *.
  set (P := (10 ^ N.of_nat (String.length s))%N) in *.
  unfold is_digit in Hcd, Hdd. apply andb_true_iff in Hcd, Hdd.
  destruct Hcd as [Hc1 _], Hdd as [Hd1 _]. apply N.leb_le in Hc1, Hd1.
  simpl in Hc. unfold Ascii.compare in Hc.
  destruct (N.compare_spec (N_of_ascii c) (N_of_ascii d)) as [E | L | G];
    try discriminate.
  - rewrite E. specialize (IH t Hs Ht El Hc). lia.
  - nia.
Qed.

Lemma pass_number_digits s :
  all_digits s = true -> (1 <= String.length s)%nat ->
  pass_number s = Ok (dval (digits_of s)).
Proof.
  intros Hs Hl. unfold pass_number, int_of_digits.
  destruct (digits_of_all s Hs) as [Hlen _].
  destruct (digits_of s) as [|d ds]; [simpl in Hlen; lia | reflexivity].
Qed.

(** X19.  When the keys of [blocks_by_pass] are strings of decimal digits
    of one and the same length, every pass has a number and the passes are
    processed in strictly ascending order of their numbers. *)
Theorem digit_names_of_one_length_run_in_numeric_order cfg w :
  (1 <= w)%nat ->
  (forall k, is_Some (blocks_by_pass cfg !! k) ->
             all_digits k = true /\ String.length k = w) ->
  exists ns, map pass_number (passes cfg) = map Ok ns /\ Sorted N.lt ns.
Proof.
  intros Hw Hk. destruct (passes_once cfg) as [Hnd Hin].
  pose proof (sorted_ascending (keys (blocks_by_pass cfg))) as Hs.
  fold (passes cfg) in Hs.
  assert (Hall : Forall (fun k => all_digits k = true /\ String.length k = w) (passes cfg)).
  { apply List.Forall_forall. intros k Hkin. apply Hk, Hin. exact Hkin. }
  clear Hin Hk. exists (map (fun k => dval (digits_of k)) (passes cfg)).
  induction Hs as [|k l Hl IH Hhd].
  - split; constructor.
  - inversion Hnd as [|? ? Hk Hnd']; subst.
    inversion Hall as [|? ? [Hd Hlen] Hall']; subst.
    destruct (IH Hnd' Hall') as [Hm Hsorted]. split.
    + simpl. rewrite Hm, pass_number_digits by (auto; lia). reflexivity.
    + simpl. constructor; [exact Hsorted|].
      destruct Hhd as [|k' l' Hle]; simpl; constructor.
      inversion Hall' as [|? ? [Hd' Hlen'] _]; subst.
      apply compare_digits; auto.
      unfold string_le, String.leb in Hle.
      destruct (String.compare k k') eqn:E; try discriminate; [|reflexivity].
      apply String.compare_eq_iff in E. subst. exfalso. apply Hk. left. reflexivity.
Qed.

Lemma digit_names_of_one_length_run_in_numeric_order_witness :
  (forall k, is_Some (blocks_by_pass padded_config !! k) ->
             all_digits k = true /\ String.length k = 2%nat)
  /\ exists ns, map pass_number (passes padded_config) = map Ok ns /\ Sorted N.lt ns.
Proof.
  assert (H : forall k, is_Some (blocks_by_pass padded_config !! k) ->
                        all_digits k = true /\ String.length k = 2%nat).
  { intros k [v Hv]. unfold padded_config in Hv. cbn [blocks_by_pass] in Hv.
    apply elem_of_list_to_map_2 in Hv.
    repeat (apply elem_of_cons in Hv; destruct Hv as [Hv | Hv];
            [inversion Hv; subst; split; reflexivity|]).
    inversion Hv. }
  split; [exact H|].
  apply (digit_names_of_one_length_run_in_numeric_order padded_config 2); [lia | exact H].
Defined.

Example padded_names_run_in_numeric_order :
  pass_events (log_of (main padded_config ex_a ex_b ∅ ∅)) = ["01"; "02"; "10"].
Proof. vm_compute. reflexivity. Qed.

Lemma process_pass_configured cfg st pn st' :
  process_pass cfg st pn = Ok st' -> pass_configured cfg pn.
Proof.
  unfold process_pass, pass_configured. intros H.
  destruct (pass_number pn) as [n|e]; simpl in H; [|discriminate].
  exists n. split; [reflexivity|]. intros Hc. rewrite Hc in H.
  destruct (run_blocking_pass _ _ _ _ _ _ _ _ _) as [r|e]; simpl in H; [|discriminate].
  unfold getitem in H.
  destruct (chunk_sizes cfg !! pretty n) as [size|]; simpl in H; [|discriminate].
  exists size. split; [reflexivity|].
  destruct size; [discriminate | lia].
Qed.

Lemma pass_loop_configured cfg names st st' :
  pass_loop cfg names st = Ok st' -> Forall (pass_configured cfg) names.
Proof.
  revert st. induction names as [|p names IH]; intros st H; simpl in H; [constructor|].
  destruct (process_pass cfg st p) as [st1|e] eqn:E; simpl in H; [|discriminate].
  constructor; [eapply process_pass_configured; exact E | eapply IH; exact H].
Qed.

(** X20.  In a run that ends, the name of every pass holds a decimal
    digit, and without a relational store a chunk size of at least 1 is
    configured for every pass under the decimal form of the number that the
    digits of its name write; a run in which this fails for a pass
    raises. *)
Theorem finished_run_has_numbered_passes cfg data_a data_b tables0 files0 st k :
  main cfg data_a data_b tables0 files0 = Ok st ->
  is_Some (blocks_by_pass cfg !! k) ->
  pass_configured cfg k.
Proof.
  unfold main. intros H Hk.
  destruct (ground_truth_stage cfg _) as [st1|e]; simpl in H; [|discriminate].
  destruct (num_processes cfg); [discriminate|].
  destruct (pass_loop cfg (passes cfg) st1) as [st2|e] eqn:E; simpl in H; [|discriminate].
  apply pass_loop_configured in E. rewrite List.Forall_forall in E.
  apply E. apply passes_once. exact Hk.
Qed.

Lemma finished_run_has_numbered_passes_witness :
  let st := state_of (main dedup_file_config twin_rows [] ∅ ∅) in
  main dedup_file_config twin_rows [] ∅ ∅ = Ok st
  /\ is_Some (blocks_by_pass dedup_file_config !! "1")
  /\ pass_configured dedup_file_config "1".
Proof.
  intros st.
  assert (H : main dedup_file_config twin_rows [] ∅ ∅ = Ok st) by (vm_compute; reflexivity).
  assert (Hk : is_Some (blocks_by_pass dedup_file_config !! "1"))
    by (vm_compute; eauto).
  split; [exact H|]. split; [exact Hk|].
  exact (finished_run_has_numbered_passes _ _ _ _ _ _ _ H Hk).
Defined.

(** A pass named with a leading zero looks up its chunk size without
    it. *)
Example chunk_size_key_is_the_number :
  main (mkConfig "link" "a" "b" same_vars same_vars false []
          (list_to_map [("01", ["ssn"])]) (list_to_map [("01", 9%nat)]) 1)
       ex_a ex_b ∅ ∅
  = Raise KeyError.
Proof. vm_compute. reflexivity. Qed.

(** ** The shards of a run *)

Lemma shards_app l1 l2 : shards (l1 ++ l2) = shards l1 ++ shards l2.
Proof. unfold shards. apply omap_app. Qed.

Lemma on_chunk_shards n p st c : shards_ok st -> shards_ok (on_chunk n p st c).
Proof.
  unfold shards_ok, on_chunk, threshold_reached, submit. cbn [log shard all_cands].
  intros H.
  destruct (Nat.eqb _ _); cbn [log shard]; rewrite !shards_app, H, ?seq_S;
    change (shards [ChunkRead p c]) with (@nil nat); rewrite app_nil_r; reflexivity.
Qed.

Lemma on_csv_chunk_shards n p st c :
  shards_ok st -> shards_ok (on_csv_chunk n p st c).
Proof.
  unfold shards_ok, on_csv_chunk, threshold_reached, submit. cbn [log shard all_cands].
  intros H.
  destruct (Nat.eqb _ _); cbn [log shard]; rewrite !shards_app, H, ?seq_S;
    change (shards [ChunkRead p c]) with (@nil nat); rewrite app_nil_r; reflexivity.
Qed.

Lemma fold_shards (f : run_state -> chunk -> run_state) chunks st :
  (forall st c, shards_ok st -> shards_ok (f st c)) ->
  shards_ok st -> shards_ok (fold_left f chunks st).
Proof.
  intros H. revert st. induction chunks as [|c chunks IH]; intros st Hs; simpl; auto.
Qed.

Lemma process_pass_shards cfg st pn st' :
  process_pass cfg st pn = Ok st' -> shards_ok st -> shards_ok st'.
Proof.
  unfold process_pass. intros H Hs.
  destruct (pass_number pn) as [n|e]; simpl in H; [|discriminate].
  destruct (run_blocking_pass _ _ _ _ _ _ _ _ _) as [r|e]; simpl in H; [|discriminate].
  assert (H1 : shards_ok (mkRun (fst r) (snd r) (all_cands st) (shard st)
                                (log st ++ [BlockingPass pn]))).
  { unfold shards_ok in *; simpl. rewrite shards_app, Hs. apply app_nil_r. }
  destruct (conn cfg).
  - destruct (listed (tables (snd r)) (cand_table cfg pn)) as [rows|].
    + destruct (getitem (chunk_sizes cfg) (pretty n)) as [size|e];
        simpl in H; [|discriminate].
      inversion H; subst.
      pose proof (fold_shards (on_chunk (num_processes cfg) pn)
                    (fetchmany_all size rows) _ (on_chunk_shards _ _) H1) as H2.
      exact H2.
    + inversion H; subst. exact H1.
  - destruct (getitem (chunk_sizes cfg) (pretty n)) as [size|e];
      simpl in H; [|discriminate].
    destruct (read_csv _ _ size) as [chunks|e]; simpl in H; [|discriminate].
    inversion H; subst. apply fold_shards; [apply on_csv_chunk_shards | exact H1].
Qed.

Lemma pass_loop_shards cfg names st st' :
  pass_loop cfg names st = Ok st' -> shards_ok st -> shards_ok st'.
Proof.
  revert st. induction names as [|p names IH]; intros st H Hs; simpl in H.
  - inversion H; subst. exact Hs.
  - destruct (process_pass cfg st p) as [st1|e] eqn:E; simpl in H; [|discriminate].
    eapply IH; [exact H|]. eapply process_pass_shards; eauto.
Qed.

(** X21.  The batches that a run submits are written to shards numbered
    0, 1, 2, ... in the order of their submission, the trailing batch
    included: no shard of the numbered passes is written twice. *)
Theorem shards_are_numbered_in_order cfg data_a data_b tables0 files0 st :
  main cfg data_a data_b tables0 files0 = Ok st ->
  shards (log st) = seq 0 (length (submitted (log st))).
Proof.
  unfold main. intros H.
  destruct (ground_truth_stage cfg _) as [st1|e] eqn:E1; simpl in H; [|discriminate].
  destruct (num_processes cfg); [discriminate|].
  destruct (pass_loop cfg (passes cfg) st1) as [st2|e] eqn:E2; simpl in H; [|discriminate].
  inversion H; subst; clear H.
  assert (H1 : shards_ok st1).
  { unfold ground_truth_stage in E1. destruct (ground_truth_ids cfg).
    - inversion E1; subst. reflexivity.
    - destruct (conn cfg); [|discriminate].
      destruct (run_ground_truth_ids_passes _ _ _ _ _ _ _) as [r|e];
        simpl in E1; [|discriminate].
      inversion E1; subst. unfold shards_ok. cbn [log shard].
      change (shards (ground_truth_results cfg (snd r)) = []).
      unfold ground_truth_results.
      induction (ground_truth_ids cfg) as [|g gs IH]; [reflexivity | exact IH]. }
  pose proof (pass_loop_shards _ _ _ _ E2 H1) as H2.
  assert (Hlen : forall l, length (shards l) = length (submitted l)).
  { induction l as [|e l IH]; [reflexivity|]. destruct e; simpl; auto. }
  rewrite <- Hlen. unfold submit_rest. unfold shards_ok in H2.
  destruct (all_cands st2); simpl.
  - rewrite H2, length_seq. reflexivity.
  - rewrite shards_app, H2; simpl. rewrite length_app, length_seq; simpl.
    rewrite Nat.add_1_r, seq_S. reflexivity.
Qed.

Lemma shards_are_numbered_in_order_witness :
  let st := state_of (main two_chunk_config ex_a ex_b ∅ ∅) in
  main two_chunk_config ex_a ex_b ∅ ∅ = Ok st
  /\ shards (log st) = [0%nat; 1%nat]
  /\ shards (log st) = seq 0 (length (submitted (log st))).
Proof.
  intros st.
  assert (H : main two_chunk_config ex_a ex_b ∅ ∅ = Ok st) by (vm_compute; reflexivity).
  split; [exact H|]. split; [vm_compute; reflexivity|].
  exact (shards_are_numbered_in_order _ _ _ _ _ _ H).
Defined.

(** ** A relational run that is configured completes *)

Lemma omap_length_eq_named (d : gmap string string) vs :
  length (omap (fun v => d !! v) vs) = length vs ->
  Forall2 (fun v c => d !! v = Some c) vs (omap (fun v => d !! v) vs).
Proof.
  induction vs as [|v vs IH]; [constructor|].
  change (omap (fun v => d !! v) (v :: vs))
    with (match d !! v with
          | Some y => y :: omap (fun v => d !! v) vs
          | None => omap (fun v => d !! v) vs
          end).
  destruct (d !! v) as [c|] eqn:E; simpl; intros H.
  - constructor; [exact E | apply IH; lia].
  - pose proof (omap_length_le (fun v => d !! v) vs). lia.
Qed.

(** With a cursor a pass never raises once the pass and the two
    identifiers are configured. *)
Lemma relational_pass_total blocks pn va vb na nb p w :
  is_Some (blocks !! pn) ->
  is_Some (va !! "indv_id") -> is_Some (vb !! "indv_id") ->
  exists p' t',
    run_blocking_pass blocks pn va vb na nb (PastSql p) true w
    = Ok (PastSql p', mkWorld (df_a w) (df_b w) t' (files w)).
Proof.
  intros [vs Hvs] [ida Ha] [idb Hb].
  destruct vs as [|v vs'].
  - unfold run_blocking_pass, getitem. rewrite Hvs, Ha, Hb. simpl.
    exists [], (tables w). destruct w; reflexivity.
  - set (vs := v :: vs') in *.
    destruct (Nat.eqb_spec (length (omap (fun x => va !! x) (cleaned vs)))
                           (length (cleaned vs))) as [Ela | Ela];
      [destruct (Nat.eqb_spec (length (omap (fun x => vb !! x) (cleaned vs)))
                              (length (cleaned vs))) as [Elb | Elb]|].
    + destruct (run_blocking_pass_relational blocks pn va vb na nb p w
                  vs ida idb _ _ Hvs ltac:(discriminate) Ha Hb
                  (omap_length_eq_named va _ Ela) (omap_length_eq_named vb _ Elb))
        as (rows & _ & Hr).
      rewrite Hr. eauto.
    + exists p, (tables w). unfold run_blocking_pass, getitem. rewrite Hvs, Ha, Hb.
      cbn [rbind]. unfold vs. fold vs. unfold cleaned in Ela, Elb.
      apply Nat.eqb_neq in Elb. rewrite Elb, orb_true_r. destruct w; reflexivity.
    + exists p, (tables w). unfold run_blocking_pass, getitem. rewrite Hvs, Ha, Hb.
      cbn [rbind]. unfold vs. fold vs. unfold cleaned in Ela.
      apply Nat.eqb_neq in Ela. rewrite Ela. destruct w; reflexivity.
Qed.

Lemma process_pass_relational_total cfg st pn p :
  conn cfg = true -> past st = PastSql p ->
  is_Some (blocks_by_pass cfg !! pn) ->
  is_Some (vars_a cfg !! "indv_id") -> is_Some (vars_b cfg !! "indv_id") ->
  sized cfg pn ->
  exists st' p', process_pass cfg st pn = Ok st' /\ past st' = PastSql p'.
Proof.
  intros Hc Hp Hb Ha Hbid (n & size & Hn & Hs & _).
  destruct (relational_pass_total (blocks_by_pass cfg) pn (vars_a cfg) (vars_b cfg)
              (name_a cfg) (name_b cfg) p (wld st) Hb Ha Hbid) as (p' & t' & Hr).
  unfold process_pass. rewrite Hn, Hp, Hc, Hr. cbn [rbind fst snd wld tables].
  destruct (listed t' (cand_table cfg pn)) as [rows|].
  - unfold getitem. rewrite Hs. cbn [rbind].
    eexists _, p'. split; [reflexivity|]. cbn [past]. apply fold_on_chunk_past.
  - eexists _, p'. split; reflexivity.
Qed.

Lemma pass_loop_relational_total cfg names st p :
  conn cfg = true -> past st = PastSql p ->
  is_Some (vars_a cfg !! "indv_id") -> is_Some (vars_b cfg !! "indv_id") ->
  Forall (fun pn => is_Some (blocks_by_pass cfg !! pn) /\ sized cfg pn) names ->
  exists st', pass_loop cfg names st = Ok st'.
Proof.
  intros Hc Hp Ha Hb H. revert st p Hp.
  induction H as [|pn names [Hpn Hs] _ IH]; intros st p Hp; simpl; [eauto|].
  destruct (process_pass_relational_total cfg st pn p Hc Hp Hpn Ha Hb Hs)
    as (st1 & p1 & E & Hp1).
  rewrite E. cbn [rbind]. eapply IH. exact Hp1.
Qed.

Lemma named_columns va vb gids :
  Forall (fun g => is_Some (va !! g) /\ is_Some (vb !! g)) gids ->
  exists cols, Forall2 (named_by va vb) gids cols.
Proof.
  induction 1 as [|g gids [[ca Ha] [cb Hb]] _ (cols & IH)].
  - exists []. constructor.
  - exists ((ca, cb) :: cols). constructor; [split; assumption | exact IH].
Qed.



(** ** The columns of the shards *)

Lemma add_output_var_spec acc v :
  List.NoDup acc ->
  List.NoDup (add_output_var acc v)
  /\ (exists rest, add_output_var acc v = acc ++ rest)
  /\ forall x, In x (add_output_var acc v) <-> In x acc \/ x = v.
Proof.
  intros Hnd. unfold add_output_var.
  destruct (Frame.mem v acc) eqn:E.
  - apply Agreement.mem_In in E. split; [exact Hnd|]. split.
    + exists []. symmetry. apply app_nil_r.
    + intros x. split; [auto | intros [H | ->]; assumption].
  - assert (Hv : ~ In v acc).
    { intros H. apply Agreement.mem_In in H. congruence. }
    split; [|split].
    + apply List.NoDup_app; [exact Hnd | repeat constructor; intros [] |].
      intros a Ha [<- | []]. contradiction.
    + eauto.
    + intros x. rewrite in_app_iff. simpl. intuition.
Qed.

Lemma add_output_vars_spec vars acc :
  List.NoDup acc ->
  List.NoDup (fold_left add_output_var vars acc)
  /\ (exists rest, fold_left add_output_var vars acc = acc ++ rest)
  /\ forall x, In x (fold_left add_output_var vars acc) <-> In x acc \/ In x vars.
Proof.
  revert acc. induction vars as [|v vars IH]; intros acc Hnd; simpl.
  - split; [exact Hnd|]. split; [exists []; symmetry; apply app_nil_r|].
    intros x. tauto.
  - destruct (add_output_var_spec acc v Hnd) as (H1 & (r1 & H2) & H3).
    destruct (IH _ H1) as (H4 & (r2 & H5) & H6).
    split; [exact H4|]. split.
    + exists (r1 ++ r2). rewrite H5, H2, <- app_assoc. reflexivity.
    + intros x. rewrite H6, H3. intuition (subst; auto).
Qed.

(** X23.  [output_vars] lists every column once: it starts with the ten
    fixed columns, in their order, and holds besides them exactly the
    comparison names of [comp_names_by_pass]. *)
Theorem output_vars_lists_each_column_once comp_names_by_pass :
  List.NoDup (output_vars comp_names_by_pass)
  /\ (exists rest, output_vars comp_names_by_pass = base_output_vars ++ rest)
  /\ forall v, In v (output_vars comp_names_by_pass)
               <-> In v base_output_vars
                   \/ exists kv, In kv comp_names_by_pass /\ In v (snd kv).
Proof.
  unfold output_vars.
  assert (Hbase : List.NoDup base_output_vars).
  { unfold base_output_vars. repeat constructor; simpl; intuition discriminate. }
  revert Hbase. generalize base_output_vars as acc.
  induction comp_names_by_pass as [|kv l IH]; intros acc Hnd; simpl.
  - split; [exact Hnd|]. split; [exists []; symmetry; apply app_nil_r|].
    intros v. split; [auto | intros [H | (kv & [] & _)]; exact H].
  - destruct (add_output_vars_spec (snd kv) acc Hnd) as (H1 & (r1 & H2) & H3).
    destruct (IH _ H1) as (H4 & (r2 & H5) & H6).
    split; [exact H4|]. split.
    + exists (r1 ++ r2). rewrite H5, H2, <- app_assoc. reflexivity.
    + intros v. rewrite H6, H3. split.
      * intros [[H | H] | (kv' & Hk & Hv)]; eauto.
      * intros [H | (kv' & [<- | Hk] & Hv)]; eauto.
Qed.

(** ** The two backends, pass by pass *)



(** ** A run reads each pair once *)

Lemma read_pairs_quiet l es :
  chunks_read es = [] -> read_pairs (l ++ es) = read_pairs l.
Proof.
  intros E. unfold read_pairs. rewrite chunks_read_app, E, app_nil_r. reflexivity.
Qed.

Section RelationalRun.

Variable cfg : config.
Variables (ida idb : string) (ta tb : list record).
Hypothesis store : conn cfg = true.
Hypothesis id_a : vars_a cfg !! "indv_id" = Some ida.
Hypothesis id_b : vars_b cfg !! "indv_id" = Some idb.
Hypothesis unique_a : List.NoDup (map idx ta).
Hypothesis unique_b : List.NoDup (map idx tb).

Lemma process_pass_read_once st pn :
  ready cfg pn -> read_once cfg ida idb ta tb st ->
  exists st', process_pass cfg st pn = Ok st' /\ read_once cfg ida idb ta tb st'.
Proof.
  intros (vs & pa & pb & Hvs & Hne & Hpa & Hpb & n & size & Hn & Hsize & Hpos)
         (p & Hpast & Hta & Htb & Hnd & Hold).
  destruct (process_pass_relational cfg st pn vs ida idb pa pb p n size
              store Hpast Hvs Hne id_a id_b Hpa Hpb Hn Hsize Hpos)
    as (rows & st' & Hf & Hproc & Hpast' & Hda & Hdb & [_ Hread] & _).
  rewrite Hta, Htb in Hf.
  exists st'. split; [exact Hproc|].
  pose proof (SqlFacts.find_pass_candidates_Ok _ _ _ _ _ _ _ _ _ _ Hf) as (Hr & _).
  simpl in Hr.
  assert (Hnew : forall c, In c rows ->
            exists ra rb, In ra ta /\ In rb tb /\ c = Sql.select_row ida idb ra rb
              /\ Sql.eval_join ra rb
                   (combine pa (if existsb contains_inv vs then rev pb else pb)) = Sql.T
              /\ Forall (fun j => Sql.eval_join ra rb j = Sql.F) p).
  { intros c Hc. rewrite Hr in Hc. apply in_map_iff in Hc.
    destruct Hc as ([ra rb] & <- & Hq). apply SqlFacts.in_joined_rows in Hq.
    destruct Hq as (Ha & Hb & Ht). apply SqlFacts.eval_full_T in Ht.
    destruct Ht as (Hj & Hp & _). exists ra, rb. auto. }
  eexists. split; [exact Hpast'|].
  split; [unfold table_rows in *; rewrite Hda; exact Hta|].
  split; [unfold rows_b, table_rows in *; rewrite Hda, Hdb; exact Htb|].
  rewrite Hread.
  destruct (String.eqb (store_name (cand_table cfg pn)) (cand_table cfg pn)).
  - split.
    + rewrite map_app. apply List.NoDup_app.
      * exact Hnd.
      * rewrite Hr. apply pass_ordinals_NoDup; assumption.
      * intros o Ho Ho'. apply in_map_iff in Ho. destruct Ho as (c & <- & Hc).
        destruct (Hold c Hc) as (ra & rb & Ha & Hb & -> & Hex).
        apply in_map_iff in Ho'. destruct Ho' as (c' & Ec & Hc').
        destruct (Hnew c' Hc') as (ra' & rb' & Ha' & Hb' & -> & _ & Hall).
        unfold ordinal_pair, Sql.select_row in Ec. cbn [idx_a idx_b] in Ec.
        injection Ec as E1 E2.
        assert (ra' = ra) by (apply (idx_inj ta); assumption).
        assert (rb' = rb) by (apply (idx_inj tb); assumption).
        subst ra' rb'. apply List.Exists_exists in Hex. destruct Hex as (j & Hj & HT).
        rewrite List.Forall_forall in Hall. specialize (Hall j Hj). congruence.
    + intros c Hc. apply in_app_or in Hc. destruct Hc as [Hc | Hc].
      * destruct (Hold c Hc) as (ra & rb & Ha & Hb & -> & Hex).
        exists ra, rb. repeat split; auto. apply List.Exists_app. left. exact Hex.
      * destruct (Hnew c Hc) as (ra & rb & Ha & Hb & -> & HT & _).
        exists ra, rb. repeat split; auto. apply List.Exists_app. right.
        constructor. exact HT.
  - rewrite app_nil_r. split; [exact Hnd|].
    intros c Hc. destruct (Hold c Hc) as (ra & rb & Ha & Hb & -> & Hex).
    exists ra, rb. repeat split; auto. apply List.Exists_app. left. exact Hex.
Qed.

Lemma pass_loop_read_once names st :
  Forall (ready cfg) names -> read_once cfg ida idb ta tb st ->
  exists st', pass_loop cfg names st = Ok st' /\ read_once cfg ida idb ta tb st'.
Proof.
  intros H. revert st. induction H as [|pn names Hpn _ IH]; intros st Hst; simpl.
  - eauto.
  - destruct (process_pass_read_once st pn Hpn Hst) as (st1 & E & H1).
    rewrite E. cbn [rbind]. apply IH. exact H1.
Qed.

End RelationalRun.



Section FileRun.

Variable cfg : config.
Variables (ida idb : string) (ta tb : list record).
Hypothesis no_store : conn cfg = false.
Hypothesis linking : String.eqb (name_b cfg) "dedup" = false.
Hypothesis id_a : vars_a cfg !! "indv_id" = Some ida.
Hypothesis id_b : vars_b cfg !! "indv_id" = Some idb.
Hypothesis unique_a : List.NoDup (map idx ta).
Hypothesis unique_b : List.NoDup (map idx tb).

Lemma process_pass_read_once_seen st pn :
  ready_alike cfg ida idb pn -> read_once_seen ida idb ta tb st ->
  exists st', process_pass cfg st pn = Ok st' /\ read_once_seen ida idb ta tb st'.
Proof.
  intros (vs & pa & pb & Hvs & Hne & Hpa & Hpb & Hwf & n & size & Hn & Hsize & Hpos)
         (prev & Hpast & Hprev & Hda & Hdb & Hnd & Hold).
  set (p := (pa, if existsb contains_inv vs then rev pb else pb)) in *.
  destruct (MemoryFacts.in_memory_pass_selects ida idb ta tb prev p Hprev Hwf
              unique_a unique_b) as (rows & Hfind & Hrows).
  pose proof (MemoryFacts.in_memory_pass_rows ida idb ta tb prev p Hprev Hwf
                unique_a unique_b) as Heq.
  rewrite Hfind in Heq. injection Heq as Heq.
  set (w1 := mkWorld (Frame.mkFrame (Some ida) ta) (Some (Frame.mkFrame (Some idb) tb))
                     (tables (wld st)) (files (wld st))).
  assert (Hset : set_indexes ida idb (name_b cfg) (wld st) = Ok w1).
  { unfold set_indexes. rewrite Hda, Hdb, linking. reflexivity. }
  destruct (process_pass_file cfg st pn vs ida idb pa pb (map fst prev) (map snd prev)
              n size w1 rows (map fst (prev ++ [p]), map snd (prev ++ [p]))
              no_store Hpast Hvs Hne id_a id_b Hpa Hpb Hn Hsize Hpos Hset)
    as (st' & Hproc & Hpast' & _ & _ & _ & Hread & Hw).
  { rewrite linking. exact Hfind. }
  exists st'. split; [exact Hproc|]. exists (prev ++ [p]).
  split; [exact Hpast'|].
  split; [apply List.Forall_app; split; [exact Hprev | constructor; [exact Hwf | constructor]]|].
  rewrite Hw. unfold reset_indexes. rewrite linking. cbn [df_a df_b option_map].
  split; [reflexivity|]. split; [reflexivity|].
  rewrite Hread. split.
  - rewrite map_app. apply List.NoDup_app.
    + exact Hnd.
    + rewrite Heq, !map_map. cbn [ordinal_pair read_row Sql.select_row idx_a idx_b].
      apply MemoryFacts.link_pairs_ordinals_NoDup;
        apply Agreement.NoDup_map_filter; assumption.
    + intros o Ho Ho'. apply in_map_iff in Ho. destruct Ho as (c & <- & Hc).
      destruct (Hold c Hc) as (ra & rb & Ha & Hb & -> & Hex).
      apply in_map_iff in Ho'. destruct Ho' as (c' & Ec & Hc').
      apply in_map_iff in Hc'. destruct Hc' as (c0 & <- & Hc0).
      apply Hrows in Hc0. destruct Hc0 as (ra' & rb' & Ha' & Hb' & -> & _ & Hall).
      unfold ordinal_pair, read_row, Sql.select_row in Ec. cbn [idx_a idx_b] in Ec.
      injection Ec as E1 E2.
      assert (ra' = ra) by (apply (idx_inj ta); assumption).
      assert (rb' = rb) by (apply (idx_inj tb); assumption).
      subst ra' rb'. apply List.Exists_exists in Hex. destruct Hex as (q & Hq & Hag).
      rewrite List.Forall_forall in Hall.
      exact (MemoryFacts.agree_not_unequal ra rb _ Hag (Hall q Hq)).
  - intros c Hc. apply in_app_or in Hc. destruct Hc as [Hc | Hc].
    + destruct (Hold c Hc) as (ra & rb & Ha & Hb & -> & Hex).
      exists ra, rb. repeat split; auto. apply List.Exists_app. left. exact Hex.
    + apply in_map_iff in Hc. destruct Hc as (c0 & <- & Hc0).
      apply Hrows in Hc0. destruct Hc0 as (ra & rb & Ha & Hb & -> & Hag & _).
      exists ra, rb. repeat split; auto. apply List.Exists_app. right.
      constructor. exact Hag.
Qed.

Lemma pass_loop_read_once_seen names st :
  Forall (ready_alike cfg ida idb) names -> read_once_seen ida idb ta tb st ->
  exists st', pass_loop cfg names st = Ok st' /\ read_once_seen ida idb ta tb st'.
Proof.
  intros H. revert st. induction H as [|pn names Hpn _ IH]; intros st Hst; simpl.
  - eauto.
  - destruct (process_pass_read_once_seen st pn Hpn Hst) as (st1 & E & H1).
    rewrite E. cbn [rbind]. apply IH. exact H1.
Qed.

End FileRun.

(** X26.  Without a relational store, a linking run with no ground-truth
    id in which every pass blocks on columns that the two field maps name
    alike, apart from the identifiers and the ordinal, with a chunk size of
    at least 1 configured under its number, over frames with unique
    ordinals and with a process in the pool, reaches its end, and no two of
    the candidates that the pass loop reads from the CSV files, over all the
    passes, have the same pair of ordinals. *)
Theorem file_run_reads_each_pair_once cfg data_a data_b tables0 files0 ida idb :
  conn cfg = false ->
  String.eqb (name_b cfg) "dedup" = false ->
  ground_truth_ids cfg = [] ->
  (1 <= num_processes cfg)%nat ->
  vars_a cfg !! "indv_id" = Some ida -> vars_b cfg !! "indv_id" = Some idb ->
  (forall k, is_Some (blocks_by_pass cfg !! k) -> ready_alike cfg ida idb k) ->
  List.NoDup (map idx data_a) -> List.NoDup (map idx data_b) ->
  exists st,
    main cfg data_a data_b tables0 files0 = Ok st
    /\ List.NoDup (map ordinal_pair (read_pairs (log st))).
Proof.
  intros Hc Hl Hg Hn Ha Hb Hk Hna Hnb. unfold main, ground_truth_stage.
  rewrite Hc, Hg. cbn [rbind].
  destruct (num_processes cfg) as [|k]; [lia|].
  assert (Hd : dedup_run cfg = false).
  { unfold name_b in Hl. destruct (dedup_run cfg); [discriminate | reflexivity]. }
  rewrite Hd.
  destruct (pass_loop_read_once_seen cfg ida idb data_a data_b Hc Hl Ha Hb Hna Hnb
              (passes cfg)
              (mkRun (PastSeen [] []) (mkWorld (Frame.mkFrame None data_a)
                        (Some (Frame.mkFrame None data_b)) tables0 files0) [] 0%nat []))
    as (st2 & E2 & H2).
  { apply List.Forall_forall. intros pn Hpn. apply Hk, passes_once. exact Hpn. }
  { exists []. repeat split; auto; try constructor. intros c []. }
  rewrite E2. cbn [rbind]. eexists. split; [reflexivity|].
  destruct H2 as (p & _ & _ & _ & _ & Hnd & _).
  unfold submit_rest. destruct (all_cands st2); [exact Hnd|].
  cbn [log]. rewrite read_pairs_quiet; [exact Hnd | reflexivity].
Qed.

Lemma file_run_reads_each_pair_once_witness :
  (forall k, is_Some (blocks_by_pass (two_key_config false) !! k) ->
             ready_alike (two_key_config false) "id" "id" k)
  /\ exists st,
       main (two_key_config false) two_key_a two_key_b ∅ ∅ = Ok st
       /\ List.NoDup (map ordinal_pair (read_pairs (log st))).
Proof.
  destruct two_key_unique as [Ha Hb].
  pose proof two_key_well_formed as Hw. unfold two_key_plan in Hw.
  apply List.Forall_cons_iff in Hw. destruct Hw as [Hw1 Hw].
  apply List.Forall_cons_iff in Hw. destruct Hw as [Hw2 _].
  assert (H : forall k, is_Some (blocks_by_pass (two_key_config false) !! k) ->
                        ready_alike (two_key_config false) "id" "id" k).
  { intros k [v Hv]. unfold two_key_config in Hv. cbn [blocks_by_pass] in Hv.
    apply elem_of_list_to_map_2 in Hv.
    apply elem_of_cons in Hv. destruct Hv as [Hv | Hv].
    { inversion Hv; subst. exists ["ssn"], ["ssn"], ["ssn"].
      split; [reflexivity|]. split; [discriminate|].
      split; [repeat constructor|]. split; [repeat constructor|].
      split; [exact Hw1|].
      exists 1%N, 9%nat. split; [reflexivity | split; [reflexivity | lia]]. }
    apply elem_of_cons in Hv. destruct Hv as [Hv | Hv].
    { inversion Hv; subst. exists ["dob"], ["dob"], ["dob"].
      split; [reflexivity|]. split; [discriminate|].
      split; [repeat constructor|]. split; [repeat constructor|].
      split; [exact Hw2|].
      exists 2%N, 9%nat. split; [reflexivity | split; [reflexivity | lia]]. }
    inversion Hv. }
  split; [exact H|].
  apply (file_run_reads_each_pair_once (two_key_config false)
           two_key_a two_key_b ∅ ∅ "id" "id");
    try reflexivity; try exact H; try assumption; try (simpl; lia).
Defined.
